(** * Catalog reconciliation engine of tcg-sync-app: a shallow embedding

    The repository holds two versions of one Express server.  [server.js]
    reconciles the feed against the store through the WooCommerce REST API
    (module [Rest] below); the second server file does it through SSH, with
    SQL price updates and WP-CLI creations (module [Ssh] below).  Both share
    the utilities [slugify], [getTRM], the sellable filter and the key
    derivation, and both keep one process-wide [syncState].
    Module [Remote] holds what the SSH server runs its commands with: the
    quoting of SQL texts, the promise of a remote command, and the route
    that counts the products of the store.

    JavaScript numbers are IEEE-754 binary64 values; they are modelled by
    [spec_float] with the operations of [SpecFloat] at precision 53 and
    maximal exponent 1024, which compute inside Rocq.  Strings are sequences
    of code units below 256.  Everything that the program obtains from the
    outside (HTTP responses, command outputs, the clock) is an explicit input
    of the model. *)

From Stdlib Require Import SpecFloat ZArith Ascii String Lia.
From stdpp Require Import gmap strings list.

Open Scope string_scope.

(** ** JavaScript built-ins used by the program *)

Module JS.

(** *** Numbers *)

Abbreviation number := spec_float.

Definition prec : Z := 53.
Definition emax : Z := 1024.

Definition NaN : number := S754_nan.

(** The number nearest to an integer (exact below 2^53). *)
Definition ofZ (z : Z) : number := binary_normalize prec emax z 0 false.

Definition mul : number -> number -> number := SFmul prec emax.
Definition div : number -> number -> number := SFdiv prec emax.
Definition sub : number -> number -> number := SFsub prec emax.
Definition ltb : number -> number -> bool := SFltb.
Definition gtb (x y : number) : bool := SFltb y x.
Definition leb : number -> number -> bool := SFleb.
Definition Math_abs : number -> number := SFabs.

(** Truthiness of a number: [NaN], [+0] and [-0] are falsy. *)
Definition truthy (x : number) : bool :=
match x with
| S754_nan | S754_zero _ => false
| _ => true
end.

(** [x || y] on numbers. *)
Definition or_else (x y : number) : number := if truthy x then x else y.

(** An integer as a number, keeping the sign of a zero result. *)
Definition ofZ_signed (neg : bool) (z : Z) : number :=
match z with
| Z0 => S754_zero neg
| _ => ofZ z
end.

(** [Math.ceil]: a finite [±m·2^e] with [e < 0] goes to the least integer
  not below it; everything else is already integral (or not finite). *)
Definition Math_ceil (x : number) : number :=
match x with
| S754_finite s m e =>
    if (0 <=? e)%Z then x
    else
      let d := (2 ^ (- e))%Z in
      let n := cond_Zopp s (Z.pos m) in
      ofZ_signed s (- ((- n) / d))%Z
| _ => x
end.

(** [Math.round]: the nearest integer, ties towards [+∞], that is
  [floor (x + 1/2)] computed exactly. *)
Definition Math_round (x : number) : number :=
match x with
| S754_finite s m e =>
    if (0 <=? e)%Z then x
    else
      let d := (2 ^ (- e))%Z in
      let n := cond_Zopp s (Z.pos m) in
      ofZ_signed s ((2 * n + d) / (2 * d))%Z
| _ => x
end.

(** *** Characters and strings *)

Definition code (c : ascii) : nat := nat_of_ascii c.

(** White space and line terminators below 256: what [trim] removes and
  what [\s] matches. *)
Definition isSpace (c : ascii) : bool :=
let n := code c in
(Nat.leb 9 n && Nat.leb n 13) || Nat.eqb n 32 || Nat.eqb n 160.

Definition isDigit (c : ascii) : bool :=
let n := code c in Nat.leb 48 n && Nat.leb n 57.

Definition isLowerAZ (c : ascii) : bool :=
let n := code c in Nat.leb 97 n && Nat.leb n 122.

Definition isUpper (c : ascii) : bool :=
let n := code c in
(Nat.leb 65 n && Nat.leb n 90)
|| (Nat.leb 192 n && Nat.leb n 222 && negb (Nat.eqb n 215)).

Definition lowerChar (c : ascii) : ascii :=
if isUpper c then ascii_of_nat (code c + 32) else c.

Fixpoint toLowerCase (s : string) : string :=
match s with
| EmptyString => EmptyString
| String c t => String (lowerChar c) (toLowerCase t)
end.

Fixpoint trimStart (s : string) : string :=
match s with
| EmptyString => EmptyString
| String c t => if isSpace c then trimStart t else s
end.

Fixpoint trimEnd (s : string) : string :=
match s with
| EmptyString => EmptyString
| String c t =>
    match trimEnd t with
    | EmptyString => if isSpace c then EmptyString else String c EmptyString
    | t' => String c t'
    end
end.

Definition trim (s : string) : string := trimEnd (trimStart s).

Fixpoint dropChars (n : nat) (s : string) : string :=
match n, s with
| O, _ => s
| S _, EmptyString => EmptyString
| S k, String _ t => dropChars k t
end.

(** [s.includes(sub)] *)
Fixpoint includes (s sub : string) : bool :=
String.prefix sub s
|| match s with
   | EmptyString => false
   | String _ t => includes t sub
   end.

(** [s.replace(pat, rep)] for a string pattern: the first occurrence only. *)
Fixpoint replaceFirst (pat rep s : string) : string :=
if String.prefix pat s then rep ++ dropChars (String.length pat) s
else match s with
     | EmptyString => EmptyString
     | String c t => String c (replaceFirst pat rep t)
     end.

(** [s.replace(/\s+/g, rep)]: every maximal run of white space becomes
  [rep]; [inRun] tells that the previous character was white space. *)
Fixpoint replaceSpaceRuns (rep : string) (inRun : bool) (s : string) : string :=
match s with
| EmptyString => EmptyString
| String c t =>
    if isSpace c
    then (if inRun then replaceSpaceRuns rep true t
          else rep ++ replaceSpaceRuns rep true t)
    else String c (replaceSpaceRuns rep false t)
end.

(** [s.split(sep)] for a one-character separator. *)
Fixpoint split (sep : ascii) (s : string) : list string :=
match s with
| EmptyString => [EmptyString]
| String c t =>
    if Ascii.eqb c sep then EmptyString :: split sep t
    else match split sep t with
         | [] => [String c EmptyString]
         | h :: r => String c h :: r
         end
end.

Fixpoint filterChars (keep : ascii -> bool) (s : string) : string :=
match s with
| EmptyString => EmptyString
| String c t =>
    if keep c then String c (filterChars keep t) else filterChars keep t
end.

(** A value that may be [undefined]. *)
Abbreviation maybe := option.

(** [a || b] on possibly undefined strings: [undefined] and [''] are falsy. *)
Definition strOr (a b : maybe string) : maybe string :=
match a with
| Some EmptyString | None => b
| Some _ => a
end.

Definition strTruthy (a : maybe string) : bool :=
match a with
| Some EmptyString | None => false
| Some _ => true
end.

(** A template hole [${x}]. *)
Definition render (a : maybe string) : string :=
match a with
| Some s => s
| None => "undefined"
end.

(** *** parseFloat *)

Definition digitVal (c : ascii) : Z := Z.of_nat (code c - 48).

(** Reads a run of decimal digits: its value continuing [acc], the number
  of digits read and the rest of the string. *)
Fixpoint readDigits (acc : Z) (n : nat) (s : string) : Z * nat * string :=
match s with
| String c t =>
    if isDigit c then readDigits (10 * acc + digitVal c)%Z (S n) t
    else (acc, n, s)
| EmptyString => (acc, n, s)
end.

Definition readSign (s : string) : bool * string :=
match s with
| String "-" t => (true, t)
| String "+" t => (false, t)
| _ => (false, s)
end.

(** The exponent part [e±ddd], taken only when at least one digit follows. *)
Definition readExponent (s : string) : Z :=
match s with
| String c t =>
    if (Ascii.eqb c "e" || Ascii.eqb c "E")%bool then
      let '(neg, t1) := readSign t in
      let '(v, n, _) := readDigits 0 0 t1 in
      match n with
      | O => 0%Z
      | _ => if neg then (- v)%Z else v
      end
    else 0%Z
| EmptyString => 0%Z
end.

(** The number nearest to [m · 10^k], for [m > 0]. *)
Definition decimal (neg : bool) (m : positive) (k : Z) : number :=
match k with
| Zneg p =>
    SFdiv prec emax (S754_finite neg m 0)
          (S754_finite false (Pos.pow 10 p) 0)
| _ => binary_normalize prec emax
         (cond_Zopp neg (Z.pos m * 10 ^ k)%Z) 0 neg
end.

(** [parseFloat(s)]: skips leading white space, reads the longest prefix
  that is a decimal literal ([Infinity] included) and ignores the rest;
  [NaN] when there is no such prefix. *)
Definition parseFloat (s : string) : number :=
let '(neg, s1) := readSign (trimStart s) in
if String.prefix "Infinity" s1 then S754_infinity neg
else
  let '(ip, ni, s2) := readDigits 0 0 s1 in
  let '(m, nf, s3) :=
    match s2 with
    | String "." t => readDigits ip 0 t
    | _ => (ip, O, s2)
    end in
  match (ni + nf)%nat with
  | O => NaN
  | _ =>
      match m with
      | Zpos p => decimal neg p (readExponent s3 - Z.of_nat nf)
      | _ => S754_zero neg
      end
  end.

(** [parseFloat(v)] for a possibly undefined string: [undefined] is first
  turned into the text "undefined", which is not a number. *)
Definition parseFloat' (v : maybe string) : number :=
match v with
| Some s => parseFloat s
| None => NaN
end.

Definition hexVal (c : ascii) : option Z :=
let n := code c in
if isDigit c then Some (Z.of_nat (n - 48))
else if (Nat.leb 97 n && Nat.leb n 102)%bool then Some (Z.of_nat (n - 87))
else if (Nat.leb 65 n && Nat.leb n 70)%bool then Some (Z.of_nat (n - 55))
else None.

Fixpoint readHex (acc : Z) (n : nat) (s : string) : Z * nat :=
match s with
| String c t =>
    match hexVal c with
    | Some d => readHex (16 * acc + d)%Z (S n) t
    | None => (acc, n)
    end
| EmptyString => (acc, n)
end.

(** [parseInt(s)] without a radix: decimal, or hexadecimal after [0x]. *)
Definition parseInt (s : string) : number :=
let '(neg, s1) := readSign (trimStart s) in
let '(v, n) :=
  match s1 with
  | String "0" (String c t) =>
      if (Ascii.eqb c "x" || Ascii.eqb c "X")%bool then readHex 0 0 t
      else let '(v, n, _) := readDigits 0 0 s1 in (v, n)
  | _ => let '(v, n, _) := readDigits 0 0 s1 in (v, n)
  end in
match n with
| O => NaN
| _ => ofZ_signed neg (cond_Zopp neg v)
end.

End JS.

Import JS.

Open Scope list_scope.

(** ** Data model *)

(** One record of a parsed CSV document ([parse(csv, {columns: true})]):
    column name to text; a column the header lacks reads as [undefined]. *)
Abbreviation RawRow := (gmap string string).

Inductive Phase :=
| idle | starting | downloading | connecting | fetching | syncing
| complete | error.

Inductive Severity := info | warn | success | failure.

(** The text of a log line: one constructor per message template of the
    two servers, carrying the interpolated values. *)
Inductive Message :=
| MsgAlreadyRunning
| MsgStarting (pricesOnly : bool)
| MsgStartingSsh
| MsgDownloading
| MsgFoundSets (n : nat)
| MsgTrmDefault
| MsgRate (trm : number)
| MsgConnecting
| MsgFetchingExisting
| MsgFetchedSoFar (n : nat)
| MsgPageError (page : nat) (reason : string)
| MsgFoundExisting (n : nat)
| MsgStartSync
| MsgBatchCreateError (reason : string)
| MsgBatchUpdateError (reason : string)
| MsgPriceUpdateError (reason : string)
| MsgSetDone (setName : maybe string) (nCreate nUpdate : nat)
| MsgSetsProgress (done_ total_ nUpdated nCreated nSkipped : nat)
| MsgPriceSummary (nUpdated nSkipped : nat)
| MsgFullSummary (nCreated nUpdated : nat)
| MsgSshSummary (startedAt endedAt : option nat) (nCreated nUpdated nSkipped : nat)
| MsgSyncFailed (reason : string)
| MsgStopRequested.

Record LogEntry := { timestamp : nat; msg : Message; type : Severity }.

(** The process-wide run state.  [server.js] has no [errors], [method] and
    [stopping] fields: there they keep their reset values. *)
Record RunState := {
  running : bool;
  phase : Phase;
  progress : nat;
  total : nat;
  created : nat;
  updated : nat;
  skipped : nat;
  errors : nat;
  currentSet : maybe string;
  logs : list LogEntry;
  startTime : option nat;
  endTime : option nat;
  mode : option string;
  method : option string;
  stopping : bool
}.

(** The value [resetState] installs (also the initial value). *)
Definition initialState : RunState :=
  {| running := false; phase := idle; progress := 0; total := 0;
     created := 0; updated := 0; skipped := 0; errors := 0;
     currentSet := Some ""; logs := []; startTime := None; endTime := None;
     mode := None; method := None; stopping := false |}.

(** A property assignment of the object passed to [updateProgress], or of
    a direct assignment [syncState.f = v]. *)
Inductive Update :=
| SetRunning (b : bool)
| SetPhase (p : Phase)
| SetProgress (n : nat)
| SetTotal (n : nat)
| SetCreated (n : nat)
| SetUpdated (n : nat)
| SetSkipped (n : nat)
| SetErrors (n : nat)
| SetCurrentSet (s : maybe string)
| SetLogs (l : list LogEntry)
| SetStartTime (t : option nat)
| SetEndTime (t : option nat)
| SetMode (m : option string)
| SetMethod (m : option string)
| SetStopping (b : bool).

Definition assign1 (st : RunState) (u : Update) : RunState :=
  let '{| running := r; phase := ph; progress := pr; total := tt_;
          created := cr; updated := up; skipped := sk; errors := er;
          currentSet := cs; logs := lg; startTime := t0; endTime := t1;
          mode := mo; method := me; stopping := sp |} := st in
  match u with
  | SetRunning b => Build_RunState b ph pr tt_ cr up sk er cs lg t0 t1 mo me sp
  | SetPhase p => Build_RunState r p pr tt_ cr up sk er cs lg t0 t1 mo me sp
  | SetProgress n => Build_RunState r ph n tt_ cr up sk er cs lg t0 t1 mo me sp
  | SetTotal n => Build_RunState r ph pr n cr up sk er cs lg t0 t1 mo me sp
  | SetCreated n => Build_RunState r ph pr tt_ n up sk er cs lg t0 t1 mo me sp
  | SetUpdated n => Build_RunState r ph pr tt_ cr n sk er cs lg t0 t1 mo me sp
  | SetSkipped n => Build_RunState r ph pr tt_ cr up n er cs lg t0 t1 mo me sp
  | SetErrors n => Build_RunState r ph pr tt_ cr up sk n cs lg t0 t1 mo me sp
  | SetCurrentSet s => Build_RunState r ph pr tt_ cr up sk er s lg t0 t1 mo me sp
  | SetLogs l => Build_RunState r ph pr tt_ cr up sk er cs l t0 t1 mo me sp
  | SetStartTime t => Build_RunState r ph pr tt_ cr up sk er cs lg t t1 mo me sp
  | SetEndTime t => Build_RunState r ph pr tt_ cr up sk er cs lg t0 t mo me sp
  | SetMode m => Build_RunState r ph pr tt_ cr up sk er cs lg t0 t1 m me sp
  | SetMethod m => Build_RunState r ph pr tt_ cr up sk er cs lg t0 t1 mo m sp
  | SetStopping b => Build_RunState r ph pr tt_ cr up sk er cs lg t0 t1 mo me b
  end.

(** [Object.assign(syncState, updates)] *)
Definition assign (st : RunState) (us : list Update) : RunState :=
  fold_left assign1 us st.

(** ** The world a run executes in *)

(** What leaves the process or can be seen from outside it while a run is
    suspended.  [EvLog] and [EvProgress] are the two messages [broadcast]
    sends to the subscribers; [EvProgress] carries the run state as it is
    serialised at that moment.  [EvAwait] marks a suspension of the run (an
    [await] on the network, a remote command or a timer) and records the run
    state that a request served meanwhile, such as [GET /api/status], reads. *)
Inductive Event :=
| EvLog (e : LogEntry)
| EvProgress (st : RunState)
| EvAwait (st : RunState).

(** The run state, a logical clock standing for [new Date()] and the
    events so far, oldest first.  The clock advances at every suspension and
    stands still within a turn of the event loop, where the wall clock may
    also move: of a start and an end, the properties below use only that
    the end is not before the start. *)
Record World := {
  syncState : RunState;
  clock : nat;
  events : list Event
}.

(** A computation either returns or throws an error with a message. *)
Inductive Res (A : Type) :=
| Ok (a : A)
| Throw (reason : string).
Arguments Ok {A} a.
Arguments Throw {A} reason.

Definition M (A : Type) : Type := World -> Res A * World.

Definition ret {A} (a : A) : M A := fun w => (Ok a, w).

Definition bind {A B} (m : M A) (k : A -> M B) : M B :=
  fun w =>
    match m w with
    | (Ok a, w') => k a w'
    | (Throw r, w') => (Throw r, w')
    end.

Definition throw {A} (reason : string) : M A := fun w => (Throw reason, w).

(** [try { body } catch (e) { handler(e.message) }] *)
Definition tryCatch {A} (body : M A) (handler : string -> M A) : M A :=
  fun w =>
    match body w with
    | (Ok a, w') => (Ok a, w')
    | (Throw r, w') => handler r w'
    end.

Declare Scope run_scope.
Delimit Scope run_scope with run.
Notation "x <- m ;; k" := (bind m (fun x => k))
  (at level 100, m at next level, right associativity) : run_scope.
Notation "m ;;; k" := (bind m (fun _ => k))
  (at level 100, right associativity) : run_scope.
Open Scope run_scope.

Definition getState : M RunState := fun w => (Ok (syncState w), w).

Definition modify (f : RunState -> RunState) : M unit :=
  fun w => (Ok tt, {| syncState := f (syncState w); clock := clock w;
                      events := events w |}).

(** [new Date().toISOString()] *)
Definition now : M nat := fun w => (Ok (clock w), w).

Definition emit (e : Event) : M unit :=
  fun w => (Ok tt, {| syncState := syncState w; clock := clock w;
                      events := events w ++ [e] |}).

(** A suspension point: the state is visible to other requests, and time
    passes. *)
Definition await : M unit :=
  fun w => (Ok tt, {| syncState := syncState w; clock := S (clock w);
                      events := events w ++ [EvAwait (syncState w)] |}).

(** An awaited outside call whose outcome [r] is an input of the model:
    [inl reason] when it rejects, [inr a] when it resolves. *)
Definition awaitCall {A} (r : string + A) : M A :=
  await ;;;
  match r with
  | inl reason => throw reason
  | inr a => ret a
  end.

(** [for (...) state = body(x, state)] threading a loop state. *)
Fixpoint foldM {A St} (body : A -> St -> M St) (l : list A) (s : St) : M St :=
  match l with
  | [] => ret s
  | x :: t => s' <- body x s ;; foldM body t s'
  end.

(** ** State, logging and progress (both servers) *)

Section Logging.

(** The number of log lines kept: 500 in [server.js], 1000 in the SSH
    server. *)
Variable LOG_CAP : nat.

(** [logs.push(entry); if (logs.length > LOG_CAP) logs.shift()] *)
Definition pushLog (entry : LogEntry) (l : list LogEntry) : list LogEntry :=
  let l' := l ++ [entry] in
  if Nat.ltb LOG_CAP (length l') then tail l' else l'.

Definition log (m : Message) (ty : Severity) : M unit :=
  t <- now ;;
  let entry := {| timestamp := t; msg := m; type := ty |} in
  modify (fun st => assign1 st (SetLogs (pushLog entry (logs st)))) ;;;
  emit (EvLog entry).

Definition updateProgress (updates : list Update) : M unit :=
  modify (fun st => assign st updates) ;;;
  st <- getState ;;
  emit (EvProgress st).

(** [resetState()] *)
Definition resetState : M unit := modify (fun _ => initialState).

End Logging.

(** ** Utilities shared by the two servers *)

(** [slugify(text)]: lower case, trimmed, characters outside
    [[a-z0-9\s-]] removed, white-space runs turned into one hyphen. *)
Definition slugKeep (c : ascii) : bool :=
  isLowerAZ c || isDigit c || isSpace c || Ascii.eqb c "-".

Definition slugify (text : string) : string :=
  match text with
  | EmptyString => EmptyString
  | _ => replaceSpaceRuns "-" false
           (filterChars slugKeep (trim (toLowerCase text)))
  end.

(** *** The exchange rate *)

(** A parsed JSON document. *)
#[local] Unset Elimination Schemes.
Inductive json :=
| JNull
| JBool (b : bool)
| JNum (x : number)
| JStr (s : string)
| JArr (items : list json)
| JObj (members : list (string * json)).
#[local] Set Elimination Schemes.

(** Member lookup; of two members with one name the later one counts. *)
Fixpoint member (name : string) (members : list (string * json)) : maybe json :=
  match members with
  | [] => None
  | (k, v) :: rest =>
      match member name rest with
      | Some v' => Some v'
      | None => if String.eqb k name then Some v else None
      end
  end.

(** [data[0]]: reading a property of [null] is a [TypeError]. *)
Definition first (data : json) : string + maybe json :=
  match data with
  | JNull => inl "TypeError"
  | JArr items => inr (head items)
  | JObj members => inr (member "0" members)
  | JStr (String c _) => inr (Some (JStr (String c EmptyString)))
  | _ => inr None
  end.

(** [x.valor]: a [TypeError] on [undefined] and [null]. *)
Definition valor (x : maybe json) : string + maybe json :=
  match x with
  | None | Some JNull => inl "TypeError"
  | Some (JObj members) => inr (member "valor" members)
  | Some _ => inr None
  end.

(** [parseFloat(v)] on a JSON value: [v] is turned into text first.  A
    number prints to a text that reads back as itself (a negative zero
    prints as "0"); an array prints its items separated by commas, so only
    its first item can contribute; the other values print as words. *)
Fixpoint parseFloatJson (v : json) : number :=
  match v with
  | JStr s => parseFloat s
  | JNum (S754_zero _) => S754_zero false
  | JNum x => x
  | JArr (x :: _) => parseFloatJson x
  | _ => NaN
  end.

(** What the request to the rate service comes to. *)
Inductive TrmResponse :=
| FetchRejected (reason : string)
| NotJson (reason : string)
| Body (data : json).

(** [await fetch(url)] rejects or resolves; [await res.json()] then rejects
    or yields the document. *)
Definition fetchOutcome (resp : TrmResponse) : string + unit :=
  match resp with
  | FetchRejected r => inl r
  | _ => inr tt
  end.

Definition jsonOutcome (resp : TrmResponse) : string + json :=
  match resp with
  | Body d => inr d
  | NotJson r | FetchRejected r => inl r
  end.

Definition DEFAULT_TRM : number := ofZ 4200.

Section Rate.

Variable LOG_CAP : nat.

(** [getTRM()] *)
Definition getTRM (resp : TrmResponse) : M number :=
  tryCatch
    (awaitCall (fetchOutcome resp) ;;;
     data <- awaitCall (jsonOutcome resp) ;;
     match first data with
     | inl r => throw r
     | inr x =>
         match valor x with
         | inl r => throw r
         | inr None => ret NaN
         | inr (Some v) => ret (parseFloatJson v)
         end
     end)
    (fun _ =>
       log LOG_CAP MsgTrmDefault warn ;;;
       ret DEFAULT_TRM).

End Rate.

(** *** Normalisation of a feed row *)

Definition MIN_PRICE_COP : number := ofZ 200.

(** [(v || '')] *)
Definition orEmpty (v : maybe string) : string :=
  match v with
  | Some s => s
  | None => EmptyString
  end.

(** The predicate of [products.filter(...)]: the sellable rows. *)
Definition isSingle (p : RawRow) : bool :=
  let extNum := trim (orEmpty (p !! "extNumber")) in
  let hasSlash := includes extNum "/" in
  let hasPrice := strTruthy (p !! "marketPrice")
                  && gtb (parseFloat' (p !! "marketPrice")) (ofZ 0) in
  hasSlash && hasPrice.

Definition singlesOf (products : list RawRow) : list RawRow :=
  List.filter isSingle products.

(** [slugify(row.subTypeName || 'normal') || 'base'] *)
Definition subTypeOf (subTypeName : maybe string) : string :=
  match slugify (render (strOr subTypeName (Some "normal"))) with
  | EmptyString => "base"
  | s => s
  end.

(** [`${productId}-${subType}-${abbrev}`] *)
Definition skuOf (productId subTypeName abbrev : maybe string) : string :=
  (render productId +:+ "-" +:+ subTypeOf subTypeName +:+ "-" +:+ render abbrev)%string.

Definition skuOfRow (abbrev : maybe string) (row : RawRow) : string :=
  skuOf (row !! "productId") (row !! "subTypeName") abbrev.

(** The product title. *)
Definition titleOf (setName : maybe string) (row : RawRow) : string :=
  let baseName :=
    replaceFirst " - " " | "
      (trim (orEmpty (strOr (strOr (row !! "name") (row !! "cleanName")) (Some "")))) in
  let extNumber := trim (orEmpty (row !! "extNumber")) in
  let t1 := if includes baseName extNumber then baseName
            else (baseName +:+ " | " +:+ extNumber)%string in
  let t2 := if strTruthy (row !! "subTypeName")
            then (t1 +:+ " | " +:+ render (row !! "subTypeName"))%string
            else t1 in
  let t3 := (t2 +:+ " | " +:+ render setName)%string in
  trim (replaceSpaceRuns " " false t3).

(** [row.imageUrl.replace('_200w', '_400w')] *)
Definition imageOf (row : RawRow) : maybe string :=
  if strTruthy (row !! "imageUrl")
  then Some (replaceFirst "_200w" "_400w" (render (row !! "imageUrl")))
  else None.

(** [if (priceCOP < MIN_PRICE_COP) priceCOP = MIN_PRICE_COP] *)
Definition clampMin (priceCOP : number) : number :=
  if ltb priceCOP MIN_PRICE_COP then MIN_PRICE_COP else priceCOP.

(** [groupsMap] and [abbrevMap] are plain objects ([{}]) used as maps from
    texts to texts.  A plain object inherits the members of
    [Object.prototype]: a key that the object does not hold itself reads as
    the inherited member of that name, when there is one.  The program uses
    what it reads only as a text (in a template literal, or stored in
    [currentSet]) and for its truth value, so an inherited member is kept
    as the text it reads as: [__proto__] reads as [Object.prototype]
    itself, the other names as built-in functions. *)
Definition inheritedMember (key : string) : maybe string :=
  if String.eqb key "__proto__" then Some "[object Object]"
  else if String.eqb key "constructor" then Some "function Object() { [native code] }"
  else if existsb (String.eqb key)
            ["__defineGetter__"; "__defineSetter__"; "hasOwnProperty";
             "__lookupGetter__"; "__lookupSetter__"; "isPrototypeOf";
             "propertyIsEnumerable"; "toString"; "valueOf"; "toLocaleString"]
       then Some ("function " +:+ key +:+ "() { [native code] }")
       else None.

(** [obj[key] = value] for a value that is a text or [undefined].  Under
    the key [__proto__] the assignment reaches the accessor of
    [Object.prototype], whose setter ignores such a value: the object is
    left as it was. *)
Definition assignObj (m : gmap string (maybe string)) (key value : maybe string)
  : gmap string (maybe string) :=
  if String.eqb (render key) "__proto__" then m else <[render key := value]> m.

(** The groups listing gives, per group identifier, the display name and
    the abbreviation ([g.abbreviation || g.groupId]); of two groups with one
    identifier the later one counts. *)
Definition groupsMapOf (groups : list RawRow) : gmap string (maybe string) :=
  fold_left (fun m g => assignObj m (g !! "groupId") (g !! "name")) groups ∅.

Definition abbrevMapOf (groups : list RawRow) : gmap string (maybe string) :=
  fold_left
    (fun m g =>
       assignObj m (g !! "groupId") (strOr (g !! "abbreviation") (g !! "groupId")))
    groups ∅.

(** [map[key]] for an object used as a map with possibly undefined values. *)
Definition lookupObj (m : gmap string (maybe string)) (key : maybe string)
  : maybe string :=
  match m !! render key with
  | Some v => v
  | None => inheritedMember (render key)
  end.

(** [abbrevMap[groupId] || groupId] *)
Definition abbrevOf (abbrevMap : gmap string (maybe string)) (groupId : maybe string)
  : maybe string :=
  strOr (lookupObj abbrevMap groupId) groupId.

(** [list.slice(j, j + size)] for [j = 0, size, 2·size, ...] while
    [j < list.length]. *)
Fixpoint chunksAux (fuel size : nat) {A} (l : list A) : list (list A) :=
  match fuel, l with
  | O, _ | _, [] => []
  | S fuel', _ => take size l :: chunksAux fuel' size (drop size l)
  end.

Definition chunks (size : nat) {A} (l : list A) : list (list A) :=
  chunksAux (length l) size l.

(** [for (let i = i0; i < list.length; i++) state = body(i, list[i], state)] *)
Fixpoint forIndexed {A St} (body : nat -> A -> St -> M St) (i : nat) (l : list A)
  (s : St) : M St :=
  match l with
  | [] => ret s
  | x :: t => s' <- body i x s ;; forIndexed body (S i) t s'
  end.

Definition when (b : bool) (m : M unit) : M unit := if b then m else ret tt.

(** ** The REST server ([server.js]) *)

Module Rest.

Definition BATCH_SIZE : nat := 100.
Definition LOG_CAP : nat := 500.

Definition log := log LOG_CAP.
Definition getTRM := getTRM LOG_CAP.

(** A product of the store listing, as far as the program reads it; the
    listing carries the stored price, which the program does not read. *)
Record Product := {
  p_id : Z;
  p_sku : maybe string;
  p_status : maybe string;
  p_regular_price : maybe string
}.

(** An entry of [existingProducts]. *)
Record Existing := { id : Z; status : maybe string }.

(** An item of [toUpdate]; [regular_price] is sent as [String(priceCOP)].
    The constant category of the full variant is left out. *)
Inductive UpdateData :=
| PriceUpdate (id : Z) (regular_price : number)
| FullUpdate (id : Z) (name : string) (regular_price : number)
             (tag : maybe string) (status : maybe string).

(** An item of [toCreate], without its constant fields and without the
    HTML description built from the row. *)
Record CreateData := {
  c_name : string;
  c_sku : string;
  c_regular_price : number;
  c_tag : maybe string;
  c_image : maybe string
}.

(** What the run receives from outside.  [setCsv i] is the download and
    parse of the CSV of the group at index [i]; [createBatch i j] and
    [updateBatch i j] are the outcomes of the [j]-th batch calls of that
    group.  [pages] are the answers to the successive listing requests: a
    request fails, or gives the elements of a page, each a product or
    [null]; past them the store answers with an empty page. *)
Record Env := {
  groupsCsv : string + list RawRow;
  trmResponse : TrmResponse;
  connect : string + unit;
  pages : list (string + list (option Product));
  setCsv : nat -> string + list RawRow;
  createBatch : nat -> nat -> string + unit;
  updateBatch : nat -> nat -> string + unit
}.

Inductive Decision :=
| CREATE (data : CreateData)
| UPDATE (data : UpdateData)
| SKIP.

(** [Math.round(parseFloat(row.marketPrice) * trm)], then the minimum. *)
Definition computedPrice (trm : number) (row : RawRow) : number :=
  Math_round (mul (parseFloat' (row !! "marketPrice")) trm).

Definition priceOf (trm : number) (row : RawRow) : number :=
  clampMin (computedPrice trm row).

(** The body of the loop over the sellable rows of a group: which list
    the row goes to. *)
Definition decide (pricesOnly : bool) (trm : number)
  (setName abbrev : maybe string) (existingProducts : gmap string Existing)
  (row : RawRow) : Decision :=
  let sku := skuOfRow abbrev row in
  let title := titleOf setName row in
  let priceCOP := priceOf trm row in
  match existingProducts !! sku with
  | Some existing =>
      UPDATE
        (if pricesOnly then PriceUpdate (id existing) priceCOP
         else FullUpdate (id existing) title priceCOP setName
                (match status existing with
                 | Some "trash" => Some "publish"
                 | _ => None
                 end))
  | None =>
      if negb pricesOnly then
        CREATE {| c_name := title; c_sku := sku; c_regular_price := priceCOP;
                  c_tag := setName; c_image := imageOf row |}
      else SKIP
  end.

(** The price a decision sends to the store. *)
Definition emittedPrice (d : Decision) : option number :=
  match d with
  | CREATE c => Some (c_regular_price c)
  | UPDATE (PriceUpdate _ p) => Some p
  | UPDATE (FullUpdate _ _ p _ _) => Some p
  | SKIP => None
  end.

(** The same inputs with another feed. *)
Definition withSetCsv (env : Env) (feed : nat -> string + list RawRow) : Env :=
  {| groupsCsv := groupsCsv env; trmResponse := trmResponse env;
     connect := connect env; pages := pages env; setCsv := feed;
     createBatch := createBatch env; updateBatch := updateBatch env |}.

Definition addSkipped (n : nat) : M unit :=
  modify (fun st => assign1 st (SetSkipped (skipped st + n))).

(** [for (const row of singles) { ... }] *)
Definition planRow (pricesOnly : bool) (trm : number)
  (setName abbrev : maybe string) (existingProducts : gmap string Existing)
  (row : RawRow) (lists : list CreateData * list UpdateData)
  : M (list CreateData * list UpdateData) :=
  let '(toCreate, toUpdate) := lists in
  match decide pricesOnly trm setName abbrev existingProducts row with
  | UPDATE u => ret (toCreate, toUpdate ++ [u])
  | CREATE c => ret (toCreate ++ [c], toUpdate)
  | SKIP => addSkipped 1 ;;; ret (toCreate, toUpdate)
  end.

(** One pass of the loop over the create batches. *)
Definition createStep (post : nat -> string + unit) (j : nat)
  (batch : list CreateData) (existingProducts : gmap string Existing)
  : M (gmap string Existing) :=
  ex <- tryCatch
          (awaitCall (post j) ;;;
           modify (fun st => assign1 st (SetCreated (created st + length batch))) ;;;
           st <- getState ;;
           updateProgress [SetCreated (created st)] ;;;
           ret (fold_left
                  (fun m p => <[c_sku p := {| id := 0; status := Some "publish" |}]> m)
                  batch existingProducts))
          (fun reason =>
             log (MsgBatchCreateError reason) warn ;;;
             ret existingProducts) ;;
  await ;;;
  ret ex.

(** One pass of the loop over the update batches. *)
Definition updateStep (post : nat -> string + unit) (j : nat)
  (batch : list UpdateData) (_ : unit) : M unit :=
  tryCatch
    (awaitCall (post j) ;;;
     modify (fun st => assign1 st (SetUpdated (updated st + length batch))) ;;;
     st <- getState ;;
     updateProgress [SetUpdated (updated st)])
    (fun reason => log (MsgBatchUpdateError reason) warn) ;;;
  await.

(** The loop body after the filter: what is done with the sellable rows
    of a group; [postCreate] and [postUpdate] are the outcomes of its
    batch calls. *)
Definition syncSingles (postCreate postUpdate : nat -> string + unit)
  (pricesOnly : bool) (trm : number)
  (setName abbrev : maybe string) (singles : list RawRow)
  (existingProducts : gmap string Existing) : M (gmap string Existing) :=
  match singles with
  | [] => ret existingProducts
  | _ =>
      lists <- foldM (planRow pricesOnly trm setName abbrev existingProducts)
                     singles ([], []) ;;
      let '(toCreate, toUpdate) := lists in
      ex <- (if negb pricesOnly
             then forIndexed (createStep postCreate) 0
                    (chunks BATCH_SIZE toCreate) existingProducts
             else ret existingProducts) ;;
      forIndexed (updateStep postUpdate) 0 (chunks BATCH_SIZE toUpdate) tt ;;;
      when (negb (Nat.eqb (length toCreate) 0) || negb (Nat.eqb (length toUpdate) 0))
           (log (MsgSetDone setName (length toCreate) (length toUpdate)) success) ;;;
      ret ex
  end.

(** The body of the loop over the groups. *)
Definition processGroup (env : Env) (pricesOnly : bool) (trm : number)
  (groupsMap abbrevMap : gmap string (maybe string))
  (i : nat) (group : RawRow) (existingProducts : gmap string Existing)
  : M (gmap string Existing) :=
  let groupId := group !! "groupId" in
  let setName := lookupObj groupsMap groupId in
  updateProgress [SetProgress (i + 1); SetCurrentSet setName] ;;;
  fetched <- tryCatch (products <- awaitCall (setCsv env i) ;; ret (Some products))
                      (fun _ => ret None) ;;
  match fetched with
  | None => ret existingProducts
  | Some products =>
      syncSingles (createBatch env i) (updateBatch env i) pricesOnly trm
        setName (abbrevOf abbrevMap groupId) (singlesOf products)
        existingProducts
  end.

(** The message of the [TypeError] that reading [p.sku] throws when an
    element [p] of the page is [null], as Node words it since version 16. *)
Definition nullSkuError : string := "Cannot read properties of null (reading 'sku')".

(** [products.forEach(p => { if (p.sku) existingProducts.set(p.sku, ...) })]
    on the elements of a page, each a product or [null] ([None]).  The
    products are put in the map one by one; a [null] element throws, and
    the map keeps what was put in it before. *)
Fixpoint registerPage (products : list (option Product))
  (existingProducts : gmap string Existing) : gmap string Existing * option string :=
  match products with
  | [] => (existingProducts, None)
  | None :: _ => (existingProducts, Some nullSkuError)
  | Some p :: rest =>
      registerPage rest
        (if strTruthy (p_sku p)
         then <[render (p_sku p) := {| id := p_id p; status := p_status p |}]>
                existingProducts
         else existingProducts)
  end.

(** One listing request of the loop that fills [existingProducts], with its
    [try ... catch]; the boolean is [hasMore].  The [catch] is reached from
    the request, with the map untouched, or from inside the [forEach], with
    the map as the [forEach] left it. *)
Definition pageStep (resp : string + list (option Product)) (page : nat)
  (existingProducts : gmap string Existing) : M (bool * gmap string Existing) :=
  await ;;;
  match resp with
  | inl reason =>
      log (MsgPageError page reason) warn ;;;
      ret (false, existingProducts)
  | inr products =>
      let r := registerPage products existingProducts in
      match snd r with
      | Some reason =>
          log (MsgPageError page reason) warn ;;;
          ret (false, fst r)
      | None =>
          when (Nat.eqb ((page + 1) mod 5) 0) (log (MsgFetchedSoFar (size (fst r))) info) ;;;
          ret (Nat.eqb (length products) 100, fst r)
      end
  end.

Fixpoint fetchExisting (answers : list (string + list (option Product))) (page : nat)
  (existingProducts : gmap string Existing) : M (gmap string Existing) :=
  match answers with
  | [] => r <- pageStep (inr []) page existingProducts ;; ret (snd r)
  | resp :: rest =>
      r <- pageStep resp page existingProducts ;;
      if fst r then fetchExisting rest (page + 1) (snd r) else ret (snd r)
  end.

(** The loop over the groups, from the map the listing filled. *)
Definition syncGroups (env : Env) (pricesOnly : bool) (trm : number)
  (groups : list RawRow) (existingProducts : gmap string Existing)
  : M (gmap string Existing) :=
  forIndexed
    (processGroup env pricesOnly trm (groupsMapOf groups) (abbrevMapOf groups))
    0 groups existingProducts.

(** The [try] block of [runSync]. *)
Definition runBody (env : Env) (pricesOnly : bool) : M unit :=
  updateProgress [SetPhase downloading] ;;;
  log MsgDownloading info ;;;
  groups <- awaitCall (groupsCsv env) ;;
  log (MsgFoundSets (length groups)) success ;;;
  updateProgress [SetTotal (length groups)] ;;;
  trm <- getTRM (trmResponse env) ;;
  log (MsgRate trm) info ;;;
  updateProgress [SetPhase connecting] ;;;
  log MsgConnecting info ;;;
  match connect env with
  | inl reason => throw reason
  | inr _ =>
      updateProgress [SetPhase fetching] ;;;
      log MsgFetchingExisting info ;;;
      existingProducts <- fetchExisting (pages env) 1 ∅ ;;
      log (MsgFoundExisting (size existingProducts)) success ;;;
      updateProgress [SetPhase syncing; SetProgress 0] ;;;
      log MsgStartSync info ;;;
      syncGroups env pricesOnly trm groups existingProducts ;;;
      t <- now ;;
      modify (fun st => assign1 st (SetEndTime (Some t))) ;;;
      updateProgress [SetPhase complete; SetRunning false] ;;;
      st <- getState ;;
      log (if pricesOnly then MsgPriceSummary (updated st) (skipped st)
           else MsgFullSummary (created st) (updated st)) success
  end.

(** [runSync(mode)] *)
Definition runSync (env : Env) (mode : string) : M unit :=
  st <- getState ;;
  if running st then log MsgAlreadyRunning warn
  else
    let pricesOnly := String.eqb mode "prices" in
    resetState ;;;
    modify (fun st => assign1 st (SetRunning true)) ;;;
    modify (fun st => assign1 st (SetMode (Some mode))) ;;;
    t <- now ;;
    modify (fun st => assign1 st (SetStartTime (Some t))) ;;;
    updateProgress [SetPhase starting] ;;;
    log (MsgStarting pricesOnly) info ;;;
    tryCatch (runBody env pricesOnly)
      (fun reason =>
         log (MsgSyncFailed reason) failure ;;;
         updateProgress [SetPhase error; SetRunning false]).

(** The answer of a route. *)
Inductive Response :=
| Json200 (st : RunState)
| Started (mode : string)
| Rejected400.

(** [GET /api/status] *)
Definition getStatus : M Response :=
  st <- getState ;; ret (Json200 st).

(** [POST /api/sync]: [mode] is [req.body.mode || 'full'].  The answer is
    sent when the run first suspends; the world returned here is the one
    the run ends in. *)
Definition postSync (env : Env) (bodyMode : maybe string) : M Response :=
  st <- getState ;;
  if running st then ret Rejected400
  else
    let mode := render (strOr bodyMode (Some "full")) in
    runSync env mode ;;;
    ret (Started mode).

End Rest.

(** ** The SSH server *)

Module Ssh.

Definition BATCH_SIZE : nat := 500.
Definition LOG_CAP : nat := 1000.

Definition log := log LOG_CAP.
Definition getTRM := getTRM LOG_CAP.

(** An entry of [existingProducts]. *)
Record Existing := { id : number; price : number }.

(** An item of [priceUpdates]. *)
Record PriceUpdate := { u_id : number; u_price : number }.

(** An item of [newProducts] (without the HTML description). *)
Record NewProduct := {
  n_sku : string;
  n_title : string;
  n_price : number;
  n_image : string;
  n_setName : maybe string
}.

(** The counters [runSSHSync] keeps in local variables. *)
Record Totals := {
  totalCreated : nat;
  totalUpdated : nat;
  totalSkipped : nat;
  totalErrors : nat
}.

(** The variables that live across the iterations of the group loop. *)
Record Loop := {
  totals : Totals;
  existingProducts : gmap string Existing
}.

(** What the run receives from outside.  [existingRaw] is the output of
    the query that lists the store; [setCsv i] is the download and parse
    of the CSV of the group at index [i]; [sqlBatch i j] is the outcome of
    the two [UPDATE] statements of the [j]-th price batch of that group
    (it fails when either does); [wpCreate i k] is the outcome of the
    creation command of its [k]-th new product. *)
Record Env := {
  SSH_PASS : maybe string;
  groupsCsv : string + list RawRow;
  trmResponse : TrmResponse;
  existingRaw : string + string;
  setCsv : nat -> string + list RawRow;
  sqlBatch : nat -> nat -> string + unit;
  wpCreate : nat -> nat -> string + string
}.

Definition TAB : ascii := ascii_of_nat 9.
Definition LF : ascii := ascii_of_nat 10.

(** One line [id \t sku \t price] of the listing. *)
Definition loadLine (m : gmap string Existing) (line : string)
  : gmap string Existing :=
  match line with
  | EmptyString => m
  | _ =>
      let cols := split TAB line in
      let sku := cols !! 1%nat in
      if strTruthy sku
      then <[render sku :=
               {| id := parseInt (render (cols !! 0%nat));
                  price := or_else (parseFloat' (cols !! 2%nat)) (ofZ 0) |}]> m
      else m
  end.

(** The map built from the output of the listing query. *)
Definition loadExisting (raw : string) : gmap string Existing :=
  fold_left loadLine (split LF (trim raw)) ∅.

Inductive Decision :=
| CREATE (p : NewProduct)
| UPDATE (u : PriceUpdate)
| SKIP.

(** [Math.ceil(parseFloat(row.marketPrice) * trm / 100) * 100], then the
    minimum. *)
Definition computedPrice (trm : number) (row : RawRow) : number :=
  mul (Math_ceil (div (mul (parseFloat' (row !! "marketPrice")) trm) (ofZ 100)))
      (ofZ 100).

Definition priceOf (trm : number) (row : RawRow) : number :=
  clampMin (computedPrice trm row).

(** [Math.abs(existing.price - priceCOP) > 1] *)
Definition priceChanged (stored priceCOP : number) : bool :=
  gtb (Math_abs (sub stored priceCOP)) (ofZ 1).

(** The body of the loop over the sellable rows of a group. *)
Definition decide (pricesOnly : bool) (trm : number)
  (setName abbrev : maybe string) (existing : gmap string Existing)
  (row : RawRow) : Decision :=
  let sku := skuOfRow abbrev row in
  let title := titleOf setName row in
  let priceCOP := priceOf trm row in
  match existing !! sku with
  | Some e =>
      if priceChanged (price e) priceCOP
      then UPDATE {| u_id := id e; u_price := priceCOP |}
      else SKIP
  | None =>
      if negb pricesOnly then
        CREATE {| n_sku := sku; n_title := title; n_price := priceCOP;
                  n_image := orEmpty (imageOf row); n_setName := setName |}
      else SKIP
  end.

(** The price a decision sends to the store. *)
Definition emittedPrice (d : Decision) : option number :=
  match d with
  | CREATE p => Some (n_price p)
  | UPDATE u => Some (u_price u)
  | SKIP => None
  end.

(** The same inputs with another feed. *)
Definition withSetCsv (env : Env) (feed : nat -> string + list RawRow) : Env :=
  {| SSH_PASS := SSH_PASS env; groupsCsv := groupsCsv env;
     trmResponse := trmResponse env; existingRaw := existingRaw env;
     setCsv := feed; sqlBatch := sqlBatch env; wpCreate := wpCreate env |}.

(** The lists and the counter the row loop fills. *)
Record Plan := {
  priceUpdates : list PriceUpdate;
  newProducts : list NewProduct;
  planSkipped : nat
}.

Definition planRow (pricesOnly : bool) (trm : number)
  (setName abbrev : maybe string) (existing : gmap string Existing)
  (plan : Plan) (row : RawRow) : Plan :=
  match decide pricesOnly trm setName abbrev existing row with
  | UPDATE u => {| priceUpdates := priceUpdates plan ++ [u];
                   newProducts := newProducts plan;
                   planSkipped := planSkipped plan |}
  | CREATE p => {| priceUpdates := priceUpdates plan;
                   newProducts := newProducts plan ++ [p];
                   planSkipped := planSkipped plan |}
  | SKIP => {| priceUpdates := priceUpdates plan;
               newProducts := newProducts plan;
               planSkipped := S (planSkipped plan) |}
  end.

Definition planOf (pricesOnly : bool) (trm : number)
  (setName abbrev : maybe string) (existing : gmap string Existing)
  (singles : list RawRow) (skippedSoFar : nat) : Plan :=
  fold_left (planRow pricesOnly trm setName abbrev existing) singles
    {| priceUpdates := []; newProducts := []; planSkipped := skippedSoFar |}.

(** The loop over the price batches, inside its [try]: it stops at the
    first batch that fails and hands the reason to the [catch]; the
    counter keeps what the earlier batches added. *)
Fixpoint sqlBatches (sql : nat -> string + unit) (j : nat)
  (batches : list (list PriceUpdate)) (updatedSoFar : nat)
  : M (nat * option string) :=
  match batches with
  | [] => ret (updatedSoFar, None)
  | batch :: rest =>
      await ;;;
      match sql j with
      | inl reason => ret (updatedSoFar, Some reason)
      | inr _ =>
          let n := updatedSoFar + length batch in
          updateProgress [SetUpdated n] ;;;
          sqlBatches sql (S j) rest n
      end
  end.

Definition withErrors (t : Totals) (n : nat) : Totals :=
  {| totalCreated := totalCreated t; totalUpdated := totalUpdated t;
     totalSkipped := totalSkipped t; totalErrors := n |}.

Definition withUpdated (t : Totals) (n : nat) : Totals :=
  {| totalCreated := totalCreated t; totalUpdated := n;
     totalSkipped := totalSkipped t; totalErrors := totalErrors t |}.

Definition withSkipped (t : Totals) (n : nat) : Totals :=
  {| totalCreated := totalCreated t; totalUpdated := totalUpdated t;
     totalSkipped := n; totalErrors := totalErrors t |}.

Definition withCreated (t : Totals) (n : nat) : Totals :=
  {| totalCreated := n; totalUpdated := totalUpdated t;
     totalSkipped := totalSkipped t; totalErrors := totalErrors t |}.

(** [totalErrors++] *)
Definition bumpErrors (l : Loop) : Loop :=
  {| totals := withErrors (totals l) (S (totalErrors (totals l)));
     existingProducts := existingProducts l |}.

(** One pass of the loop over the new products. *)
Definition createStep (wp : nat -> string + string) (k : nat)
  (p : NewProduct) (l : Loop) : M Loop :=
  await ;;;
  l' <- match wp k with
        | inr result =>
            if negb (String.eqb (trim result) "SKIP") then
              let n := S (totalCreated (totals l)) in
              updateProgress [SetCreated n] ;;;
              ret {| totals := withCreated (totals l) n;
                     existingProducts :=
                       <[n_sku p := {| id := parseInt result; price := n_price p |}]>
                         (existingProducts l) |}
            else ret l
        | inl _ => ret (bumpErrors l)
        end ;;
  when (Nat.eqb (totalCreated (totals l') mod 10) 0) await ;;;
  ret l'.

(** The price batches of a group, with their [try ... catch]. *)
Definition applyPriceUpdates (sql : nat -> string + unit)
  (updates : list PriceUpdate) (t : Totals) : M Totals :=
  match updates with
  | [] => ret t
  | _ =>
      r <- sqlBatches sql 0 (chunks BATCH_SIZE updates) (totalUpdated t) ;;
      match snd r with
      | None => ret (withUpdated t (fst r))
      | Some reason =>
          log (MsgPriceUpdateError reason) warn ;;;
          ret (withErrors (withUpdated t (fst r)) (S (totalErrors t)))
      end
  end.

(** The creations of a group. *)
Definition applyCreates (wp : nat -> string + string) (pricesOnly : bool)
  (new : list NewProduct) (l : Loop) : M Loop :=
  if negb (Nat.eqb (length new) 0) && negb pricesOnly
  then forIndexed (createStep wp) 0 new l
  else ret l.

(** The loop body after the filter: what is done with the sellable rows
    of the group at index [i]; [sql] and [wp] are the outcomes of its
    price batches and of its creation commands. *)
Definition syncSingles (sql : nat -> string + unit) (wp : nat -> string + string)
  (pricesOnly : bool) (trm : number)
  (nGroups : nat) (setName abbrev : maybe string) (i : nat)
  (singles : list RawRow) (l : Loop) : M Loop :=
  match singles with
  | [] => ret l
  | _ =>
      let plan := planOf pricesOnly trm setName abbrev (existingProducts l)
                    singles (totalSkipped (totals l)) in
      let t1 := withSkipped (totals l) (planSkipped plan) in
      t2 <- applyPriceUpdates sql (priceUpdates plan) t1 ;;
      l2 <- applyCreates wp pricesOnly (newProducts plan)
              {| totals := t2; existingProducts := existingProducts l |} ;;
      when (Nat.eqb ((i + 1) mod 10) 0)
           (log (MsgSetsProgress (i + 1) nGroups (totalUpdated (totals l2))
                   (totalCreated (totals l2)) (totalSkipped (totals l2))) info) ;;;
      ret l2
  end.

(** The body of the loop over the groups. *)
Definition processGroup (env : Env) (pricesOnly : bool) (trm : number)
  (nGroups : nat) (groupsMap abbrevMap : gmap string (maybe string))
  (i : nat) (group : RawRow) (l : Loop) : M Loop :=
  let groupId := group !! "groupId" in
  let setName := lookupObj groupsMap groupId in
  let abbrev := abbrevOf abbrevMap groupId in
  updateProgress [SetProgress (i + 1); SetCurrentSet setName] ;;;
  await ;;;
  match setCsv env i with
  | inl _ => ret (bumpErrors l)
  | inr products =>
      syncSingles (sqlBatch env i) (wpCreate env i) pricesOnly trm nGroups
        setName abbrev i (singlesOf products) l
  end.

Definition noTotals : Totals :=
  {| totalCreated := 0; totalUpdated := 0; totalSkipped := 0; totalErrors := 0 |}.

(** The loop over the groups, from the freshly loaded store listing. *)
Definition syncGroups (env : Env) (pricesOnly : bool) (trm : number)
  (groups : list RawRow) (existing : gmap string Existing) : M Loop :=
  forIndexed
    (processGroup env pricesOnly trm (length groups)
       (groupsMapOf groups) (abbrevMapOf groups))
    0 groups {| totals := noTotals; existingProducts := existing |}.

(** [runSSHSync(mode)] *)
Definition runSSHSync (env : Env) (mode : string) : M Totals :=
  let pricesOnly := String.eqb mode "prices" in
  log MsgStartingSsh info ;;;
  updateProgress [SetMethod (Some "ssh")] ;;;
  updateProgress [SetPhase downloading] ;;;
  log MsgDownloading info ;;;
  groups <- awaitCall (groupsCsv env) ;;
  log (MsgFoundSets (length groups)) success ;;;
  updateProgress [SetTotal (length groups)] ;;;
  trm <- getTRM (trmResponse env) ;;
  log (MsgRate trm) info ;;;
  updateProgress [SetPhase fetching] ;;;
  log MsgFetchingExisting info ;;;
  raw <- awaitCall (existingRaw env) ;;
  let existing := loadExisting raw in
  log (MsgFoundExisting (size existing)) success ;;;
  updateProgress [SetPhase syncing; SetProgress 0] ;;;
  log MsgStartSync info ;;;
  l <- syncGroups env pricesOnly trm groups existing ;;
  let t := totals l in
  modify (fun st => assign1 st (SetCreated (totalCreated t))) ;;;
  modify (fun st => assign1 st (SetUpdated (totalUpdated t))) ;;;
  modify (fun st => assign1 st (SetSkipped (totalSkipped t))) ;;;
  modify (fun st => assign1 st (SetErrors (totalErrors t))) ;;;
  ret t.

(** [runSync(mode, method)].  The [await] on [runSSHSync] itself resumes
    within the same turn of the event loop, so no request is served
    between the return of [runSSHSync] and the lines that follow it. *)
Definition runSync (env : Env) (mode method : string) : M unit :=
  st <- getState ;;
  if running st then log MsgAlreadyRunning warn
  else
    resetState ;;;
    modify (fun st => assign1 st (SetRunning true)) ;;;
    modify (fun st => assign1 st (SetMode (Some mode))) ;;;
    modify (fun st => assign1 st (SetMethod (Some method))) ;;;
    t <- now ;;
    modify (fun st => assign1 st (SetStartTime (Some t))) ;;;
    updateProgress [SetPhase starting] ;;;
    tryCatch
      (result <- (if String.eqb method "ssh" && strTruthy (SSH_PASS env)
                  then runSSHSync env mode
                  else throw "SSH credentials not configured. Set SSH_PASS environment variable.") ;;
       t <- now ;;
       modify (fun st => assign1 st (SetEndTime (Some t))) ;;;
       updateProgress [SetPhase complete; SetRunning false] ;;;
       st <- getState ;;
       log (MsgSshSummary (startTime st) (endTime st) (totalCreated result)
              (totalUpdated result) (totalSkipped result)) success)
      (fun reason =>
         log (MsgSyncFailed reason) failure ;;;
         updateProgress [SetPhase error; SetRunning false] ;;;
         t <- now ;;
         modify (fun st => assign1 st (SetEndTime (Some t)))).

(** The answer of a route. *)
Inductive Response :=
| Json200 (st : RunState)
| Started (mode method : string)
| Stopping
| Rejected400.

(** [GET /api/status] *)
Definition getStatus : M Response :=
  st <- getState ;; ret (Json200 st).

(** [POST /api/sync]: the answer is sent when the run first suspends; the
    world returned here is the one the run ends in. *)
Definition postSync (env : Env) (bodyMode bodyMethod : maybe string) : M Response :=
  st <- getState ;;
  if running st then ret Rejected400
  else
    let mode := render (strOr bodyMode (Some "full")) in
    let method := render (strOr bodyMethod (Some "ssh")) in
    runSync env mode method ;;;
    ret (Started mode method).

(** [POST /api/sync/stop] *)
Definition postStop : M Response :=
  st <- getState ;;
  if negb (running st) then ret Rejected400
  else
    modify (fun st => assign1 st (SetStopping true)) ;;;
    log MsgStopRequested warn ;;;
    ret Stopping.

End Ssh.

(** ** Remote commands and the product count (SSH server) *)

Module Remote.

(** The backslash (code 92) and the quote (code 39). *)
Definition backslash : ascii := Ascii false false true true true false true false.
Definition quote : ascii := Ascii true true true false false true false false.

(** [s.replace(/c/g, rep)] for a pattern of one character. *)
Fixpoint replaceChar (c : ascii) (rep : string) (s : string) : string :=
  match s with
  | EmptyString => EmptyString
  | String d t =>
      if Ascii.eqb d c then (rep +:+ replaceChar c rep t)%string
      else String d (replaceChar c rep t)
  end.

(** [String(str)] with every quote doubled and then every backslash
    doubled. *)
Definition escaped (s : string) : string :=
  replaceChar backslash (String backslash (String backslash EmptyString))
    (replaceChar quote (String quote (String quote EmptyString)) s).

(** [escapeSQL(str)]: [null] and [undefined] give the word [NULL]; a text
    is escaped and put between quotes. *)
Definition escapeSQL (str : maybe string) : string :=
  match str with
  | None => "NULL"
  | Some s => (String quote (escaped s) +:+ String quote EmptyString)%string
  end.

(** What the connection and the stream of the command deliver to the
    handlers that [sshExec] registers, for one connection that runs one
    command: the connection is ready, [conn.exec] calls back with an error
    or with the stream, the stream gives data on its two channels and
    closes with an exit code, the connection reports an error. *)
Inductive SshEvent :=
| ConnReady
| ExecCallback (err : option string)
| StdoutData (chunk : string)
| StderrData (chunk : string)
| StreamClose (exitCode : maybe Z)
| ConnError (reason : string).

(** What the promise is rejected with: the error of the connection or of
    [conn.exec], or the error [Command failed (code ...): text]. *)
Inductive Failure :=
| Rejected (reason : string)
| CommandFailed (exitCode : maybe Z) (text : string).

(** The variables of one call.  [listening] tells that the handlers of
    the stream are registered; [settled] is the state of the promise. *)
Record Session := {
  listening : bool;
  output : string;
  errorOutput : string;
  settled : option (Failure + string)
}.

Definition start : Session :=
  {| listening := false; output := EmptyString; errorOutput := EmptyString;
     settled := None |}.

(** [resolve] and [reject]: only the first call settles the promise. *)
Definition settle (r : Failure + string) (s : Session) : Session :=
  match settled s with
  | Some _ => s
  | None => {| listening := listening s; output := output s;
               errorOutput := errorOutput s; settled := Some r |}
  end.

(** [errorOutput || output] *)
Definition failureText (s : Session) : string :=
  match errorOutput s with
  | EmptyString => output s
  | e => e
  end.

(** The handlers.  Before [conn.exec] has called back with the stream no
    handler of the stream is registered, and its events are not heard.
    [conn.end()] closes the connection and leaves the promise alone; it is
    not part of the model. *)
Definition handle (s : Session) (e : SshEvent) : Session :=
  match e with
  | ConnReady => s
  | ExecCallback (Some err) => settle (inl (Rejected err)) s
  | ExecCallback None =>
      {| listening := true; output := output s; errorOutput := errorOutput s;
         settled := settled s |}
  | StdoutData chunk =>
      if listening s
      then {| listening := true; output := (output s +:+ chunk)%string;
              errorOutput := errorOutput s; settled := settled s |}
      else s
  | StderrData chunk =>
      if listening s
      then {| listening := true; output := output s;
              errorOutput := (errorOutput s +:+ chunk)%string; settled := settled s |}
      else s
  | StreamClose exitCode =>
      if listening s
      then match exitCode with
           | Some 0%Z => settle (inr (output s)) s
           | _ => settle (inl (CommandFailed exitCode (failureText s))) s
           end
      else s
  | ConnError reason => settle (inl (Rejected reason)) s
  end.

(** [sshExec(command)]: what the promise holds after the events; [None]
    while it is pending. *)
Definition sshExec (events : list SshEvent) : option (Failure + string) :=
  settled (fold_left handle events start).

(** The object [GET /api/products/count] passes to [res.json]: its
    properties [count] ([None] for [null]) and [error]. *)
Record CountAnswer := { count : maybe number; countError : maybe string }.

(** [GET /api/products/count]; [result] is the outcome of the query that
    [mysqlQuery] runs through [sshExec]. *)
Definition getProductsCount (SSH_PASS : maybe string) (result : string + string)
  : M CountAnswer :=
  tryCatch
    (if negb (strTruthy SSH_PASS)
     then ret {| count := None; countError := Some "SSH not configured" |}
     else
       r <- awaitCall result ;;
       ret {| count := Some (parseInt (trim r)); countError := None |})
    (fun reason => ret {| count := None; countError := Some reason |}).

End Remote.

(** ** Sample inputs *)

(** The scenario of one group with two rows: row A is sellable, row B has
    no number; the rate service answers 4000. *)
Module Sample.

Definition mkRow (l : list (string * string)) : RawRow := list_to_map l.

Definition rowA : RawRow :=
  mkRow [("productId", "42"); ("name", "Pikachu"); ("extNumber", "4/102");
         ("marketPrice", "2.50")].

Definition rowB : RawRow :=
  mkRow [("productId", "43"); ("name", "Booster Box"); ("marketPrice", "99.0")].

(** A sellable row whose converted price is below the minimum. *)
Definition rowCheap : RawRow :=
  mkRow [("productId", "44"); ("name", "Rattata"); ("extNumber", "61/102");
         ("marketPrice", "0.01")].

Definition group1 : RawRow :=
  mkRow [("groupId", "7"); ("name", "Base Set"); ("abbreviation", "BS")].

Definition rate4000 : TrmResponse :=
  Body (JArr [JObj [("valor", JStr "4000.00")]]).

Definition world0 : World :=
  {| syncState := initialState; clock := 0; events := [] |}.

(** A world in which a run is in progress. *)
Definition worldRunning : World :=
  {| syncState := assign initialState [SetRunning true; SetPhase syncing];
     clock := 5; events := [] |}.

Definition restEnv : Rest.Env :=
  {| Rest.groupsCsv := inr [group1];
     Rest.trmResponse := rate4000;
     Rest.connect := inr tt;
     Rest.pages := [];
     Rest.setCsv := fun _ => inr [rowA; rowB];
     Rest.createBatch := fun _ _ => inr tt;
     Rest.updateBatch := fun _ _ => inr tt |}.

Definition sshEnv : Ssh.Env :=
  {| Ssh.SSH_PASS := Some "secret";
     Ssh.groupsCsv := inr [group1];
     Ssh.trmResponse := rate4000;
     Ssh.existingRaw := inr "";
     Ssh.setCsv := fun _ => inr [rowA; rowB];
     Ssh.sqlBatch := fun _ _ => inr tt;
     Ssh.wpCreate := fun _ _ => inr "101" |}.

Definition group2 : RawRow :=
  mkRow [("groupId", "8"); ("name", "Jungle"); ("abbreviation", "JU")].

(** The output of the listing query for a store that holds row A, with
    identifier 101, at 10000. *)
Definition listingA : string :=
  ("101" +:+ String Ssh.TAB "42-normal-BS" +:+ String Ssh.TAB "10000")%string.

(** The sample feed against a store that lists row A as a first run has
    created it. *)
Definition sshEnvSettled : Ssh.Env :=
  {| Ssh.SSH_PASS := Some "secret";
     Ssh.groupsCsv := inr [group1];
     Ssh.trmResponse := rate4000;
     Ssh.existingRaw := inr listingA;
     Ssh.setCsv := fun _ => inr [rowA; rowB];
     Ssh.sqlBatch := fun _ _ => inr tt;
     Ssh.wpCreate := fun _ _ => inr "101" |}.

(** The same store, as the REST listing shows it. *)
Definition restEnvListed : Rest.Env :=
  {| Rest.groupsCsv := inr [group1];
     Rest.trmResponse := rate4000;
     Rest.connect := inr tt;
     Rest.pages := [inr [Some {| Rest.p_id := 101; Rest.p_sku := Some "42-normal-BS";
                                 Rest.p_status := Some "publish";
                                 Rest.p_regular_price := Some "10000" |}]];
     Rest.setCsv := fun _ => inr [rowA; rowB];
     Rest.createBatch := fun _ _ => inr tt;
     Rest.updateBatch := fun _ _ => inr tt |}.

(** Two groups against a store that lists row A at 10000: in the first
    group row A is unchanged and the row "Rattata" is new; the download of
    the second group fails. *)
Definition sshEnv2 : Ssh.Env :=
  {| Ssh.SSH_PASS := Some "secret";
     Ssh.groupsCsv := inr [group1; group2];
     Ssh.trmResponse := rate4000;
     Ssh.existingRaw := inr listingA;
     Ssh.setCsv := fun i => if Nat.eqb i 0 then inr [rowA; rowB; rowCheap]
                            else inl "socket hang up";
     Ssh.sqlBatch := fun _ _ => inr tt;
     Ssh.wpCreate := fun _ _ => inr "102" |}.

End Sample.

(** ** Vocabulary of the properties *)

(** Two run states that agree on every field but [logs]. *)
Definition sameButLogs (a b : RunState) : Prop :=
  running a = running b /\ phase a = phase b /\ progress a = progress b
  /\ total a = total b /\ created a = created b /\ updated a = updated b
  /\ skipped a = skipped b /\ errors a = errors b
  /\ currentSet a = currentSet b /\ startTime a = startTime b
  /\ endTime a = endTime b /\ mode a = mode b /\ method a = method b
  /\ stopping a = stopping b.

(** From every world that satisfies [P], [m] either returns a value and a
    world that satisfy [Q], or throws in a world that satisfies [E]. *)
Definition triple {A} (P : World -> Prop) (m : M A) (Q : A -> World -> Prop)
  (E : string -> World -> Prop) : Prop :=
  forall w, P w ->
    match m w with
    | (Ok a, w') => Q a w'
    | (Throw r, w') => E r w'
    end.

Definition never : string -> World -> Prop := fun _ _ => False.

(** The value-level reading: [m] returns, from every world, a value that
    satisfies [Q]; it does not throw. *)
Definition yields {A} (m : M A) (Q : A -> Prop) : Prop :=
  triple (fun _ => True) m (fun a _ => Q a) never.

(** [m] keeps [P]: from a world that satisfies [P] it ends, returning or
    throwing, in a world that satisfies [P]. *)
Definition preserves {A} (P : World -> Prop) (m : M A) : Prop :=
  triple P m (fun _ => P) (fun _ => P).

(** No end time has been recorded. *)
Definition noEndTime (w : World) : Prop := endTime (syncState w) = None.

(** What the four counters of the SSH run add up to. *)
Definition sumTotals (t : Ssh.Totals) : nat :=
  Ssh.totalCreated t + Ssh.totalUpdated t + Ssh.totalSkipped t + Ssh.totalErrors t.

(** The counters never decrease. *)
Definition grows (t t' : Ssh.Totals) : Prop :=
  Ssh.totalCreated t <= Ssh.totalCreated t'
  /\ Ssh.totalUpdated t <= Ssh.totalUpdated t'
  /\ Ssh.totalSkipped t <= Ssh.totalSkipped t'
  /\ Ssh.totalErrors t <= Ssh.totalErrors t'.

(** The number of sellable rows of a downloaded group; a failed download
    has none. *)
Definition sellableCount (feed : string + list RawRow) : nat :=
  match feed with
  | inr products => length (singlesOf products)
  | inl _ => 0
  end.

(** The number of sellable rows in the first [n] groups. *)
Definition sellableTotal (env : Ssh.Env) (n : nat) : nat :=
  sum_list_with (fun i => sellableCount (Ssh.setCsv env i)) (seq 0 n).

(** The run state an event shows to the outside, if any. *)
Definition observed (e : Event) : option RunState :=
  match e with
  | EvProgress st | EvAwait st => Some st
  | EvLog _ => None
  end.

(** An event that, if it shows a run in progress, shows no skipped row
    and no error. *)
Definition hidesSkips (e : Event) : Prop :=
  forall st, observed e = Some st -> running st = true ->
             skipped st = 0 /\ errors st = 0.

(** The run state carries [c] created and [u] updated products, no skipped
    row and no error, and no event so far has shown otherwise. *)
Definition live (c u : nat) (w : World) : Prop :=
  created (syncState w) = c /\ updated (syncState w) = u
  /\ skipped (syncState w) = 0 /\ errors (syncState w) = 0
  /\ Forall hidesSkips (events w).

Definition liveT (t : Ssh.Totals) : World -> Prop :=
  live (Ssh.totalCreated t) (Ssh.totalUpdated t).

(** The run state at the return of [runSSHSync]. *)
Definition publishes (t : Ssh.Totals) (w : World) : Prop :=
  Forall hidesSkips (events w)
  /\ created (syncState w) = Ssh.totalCreated t
  /\ updated (syncState w) = Ssh.totalUpdated t
  /\ skipped (syncState w) = Ssh.totalSkipped t
  /\ errors (syncState w) = Ssh.totalErrors t.

(** The rate [getTRM] returns for an answer of the rate service. *)
Definition rateOf (resp : TrmResponse) : number :=
  match jsonOutcome resp with
  | inl _ => DEFAULT_TRM
  | inr data =>
      match first data with
      | inl _ => DEFAULT_TRM
      | inr x =>
          match valor x with
          | inl _ => DEFAULT_TRM
          | inr None => NaN
          | inr (Some v) => parseFloatJson v
          end
      end
  end.

(** The snapshot is settled for a feed at a rate: it holds the key of
    every sellable row of every downloaded group, at a price within 1 of the
    price computed for the row. *)
Definition settled (env : Ssh.Env) (trm : number) (groups : list RawRow)
  (existing : gmap string Ssh.Existing) : Prop :=
  forall i group products row,
    groups !! i = Some group ->
    Ssh.setCsv env i = inr products ->
    In row (singlesOf products) ->
    exists e,
      existing !! skuOfRow (abbrevOf (abbrevMapOf groups) (group !! "groupId")) row
      = Some e
      /\ Ssh.priceChanged (Ssh.price e) (Ssh.priceOf trm row) = false.

(** [row] is a row a run of the SSH server works on: a sellable row of a
    group of the feed whose download succeeds; [abbrev] is the abbreviation
    the run gives its group. *)
Definition inFeed (env : Ssh.Env) (groups : list RawRow) (abbrev : maybe string)
  (row : RawRow) : Prop :=
  exists i group products,
    groups !! i = Some group
    /\ Ssh.setCsv env i = inr products
    /\ In row (singlesOf products)
    /\ abbrev = abbrevOf (abbrevMapOf groups) (group !! "groupId").

(** Where the entries of a snapshot come from: the snapshot [existing0],
    or a creation for a row of the feed, at the price computed for it. *)
Definition registered (env : Ssh.Env) (trm : number) (groups : list RawRow)
  (existing0 existing : gmap string Ssh.Existing) : Prop :=
  forall key e,
    existing !! key = Some e ->
    existing0 !! key = Some e
    \/ exists abbrev row,
         inFeed env groups abbrev row /\ skuOfRow abbrev row = key
         /\ Ssh.price e = Ssh.priceOf trm row.

(** Every character of [s] satisfies [p]. *)
Fixpoint allChars (p : ascii -> bool) (s : string) : bool :=
  match s with
  | EmptyString => true
  | String c t => p c && allChars p t
  end.

(** The characters of a slug: [a-z], [0-9] and the hyphen. *)
Definition slugChar (c : ascii) : bool :=
  isLowerAZ c || isDigit c || Ascii.eqb c "-".

(** White space in [s] is made of single plain spaces; [prev] tells that
    the character before [s] was white space. *)
Fixpoint singleSpaced (prev : bool) (s : string) : bool :=
  match s with
  | EmptyString => true
  | String c t =>
      if isSpace c then Ascii.eqb c " " && negb prev && singleSpaced true t
      else singleSpaced false t
  end.

(** Reading back the inside of a quoted SQL text: a doubled quote is a
    quote, a doubled backslash is a backslash. *)
Fixpoint unescape (s : string) : string :=
  match s with
  | EmptyString => EmptyString
  | String c t =>
      if (Ascii.eqb c Remote.quote || Ascii.eqb c Remote.backslash)%bool
      then match t with
           | String _ u => String c (unescape u)
           | EmptyString => String c EmptyString
           end
      else String c (unescape t)
  end.

(** The snapshot entry a line of the store listing stands for. *)
Definition listedAs (line : string) : Ssh.Existing :=
  {| Ssh.id := parseInt (render (split Ssh.TAB line !! 0%nat));
     Ssh.price := or_else (parseFloat' (split Ssh.TAB line !! 2%nat)) (ofZ 0) |}.

(** The counters the group loop of [server.js] may assign: [created] in
    full mode only, [skipped] in prices-only mode only. *)
Definition restWrites (pricesOnly : bool) (u : Update) : bool :=
  match u with
  | SetCreated _ => negb pricesOnly
  | SetUpdated _ => true
  | SetSkipped _ => pricesOnly
  | _ => false
  end.

(** The counters the group loop of the SSH server may assign in the run
    state. *)
Definition sshWrites (pricesOnly : bool) (u : Update) : bool :=
  match u with
  | SetCreated _ => negb pricesOnly
  | SetUpdated _ => true
  | _ => false
  end.

(** An assignment that leaves the log alone. *)
Definition keepsLogs (u : Update) : bool :=
  match u with
  | SetLogs _ => false
  | _ => true
  end.

(** The log of the run state, and of every run state shown so far, holds
    at most [cap] lines. *)
Definition logBounded (cap : nat) (w : World) : Prop :=
  length (logs (syncState w)) <= cap
  /\ Forall (fun e => forall st, observed e = Some st -> length (logs st) <= cap)
       (events w).

(** An assignment that leaves [running] alone. *)
Definition keepsRunning (u : Update) : bool :=
  match u with
  | SetRunning _ => false
  | _ => true
  end.

(** A suspension during which the run state says that a run is in
    progress. *)
Definition suspendedRunning (e : Event) : Prop :=
  forall st, e = EvAwait st -> running st = true.

(** A run is in progress, and was at every suspension so far. *)
Definition inFlight (w : World) : Prop :=
  running (syncState w) = true /\ Forall suspendedRunning (events w).

(** At every suspension so far a run was in progress. *)
Definition suspensionsRunning (w : World) : Prop :=
  Forall suspendedRunning (events w).

(** What the group loop of [server.js] leaves alone in the run state. *)
Definition restFrame (pricesOnly : bool) (st : RunState) :=
  (running st, phase st, total st, startTime st, endTime st, mode st,
   if pricesOnly then created st else skipped st).

(** What the group loop of the SSH server leaves alone in the run state. *)
Definition sshFrame (pricesOnly : bool) (st : RunState) :=
  (running st, phase st, total st, skipped st, errors st, startTime st, endTime st,
   mode st, method st, stopping st, if pricesOnly then created st else 0).

(** An assignment that leaves [created] alone. *)
Definition keepsCreated (u : Update) : bool :=
  match u with
  | SetCreated _ => false
  | _ => true
  end.

(** The run state counts no created product. *)
Definition noneCreated (w : World) : Prop := created (syncState w) = 0.

(** The run state keeps the mode [m] and the start [t0] of the run, and
    the clock has not gone back; [tot] and [prog], when given, are the total
    and the progress it shows. *)
Definition started (m : string) (t0 : nat) (tot prog : option nat) (w : World) : Prop :=
  mode (syncState w) = Some m /\ startTime (syncState w) = Some t0 /\ t0 <= clock w
  /\ (forall n, tot = Some n -> total (syncState w) = n)
  /\ (forall k, prog = Some k -> progress (syncState w) = k).

(** An assignment that leaves alone what [started] tells. *)
Definition keepsStart (tot prog : option nat) (u : Update) : bool :=
  match u with
  | SetMode _ | SetStartTime _ => false
  | SetTotal _ => match tot with Some _ => false | None => true end
  | SetProgress _ => match prog with Some _ => false | None => true end
  | _ => true
  end.

(** How a run that completed ends: the progress has reached the total,
    which is the number of groups, and the end is not before the start. *)
Definition completedAt (m : string) (t0 nGroups : nat) (st : RunState) : Prop :=
  mode st = Some m /\ startTime st = Some t0
  /\ total st = nGroups /\ progress st = nGroups
  /\ exists t1, endTime st = Some t1 /\ t0 <= t1.

(** The three counters of [server.js]. *)
Definition counters (w : World) : nat * nat * nat :=
  (created (syncState w), updated (syncState w), skipped (syncState w)).

(** What the counters of [server.js] add up to. *)
Definition restCount (w : World) : nat :=
  created (syncState w) + updated (syncState w) + skipped (syncState w).

(** Every batch call answers. *)
Definition allPosted (post : nat -> string + unit) : Prop :=
  forall j, post j = inr tt.

(** The number of groups, among the first [n], whose download fails. *)
Definition failedDownloads (env : Ssh.Env) (n : nat) : nat :=
  sum_list_with (fun i => match Ssh.setCsv env i with
                          | inl _ => 1
                          | inr _ => 0
                          end) (seq 0 n).

(** The text and the severity of the last line of the log. *)
Definition lastMessage (st : RunState) : option (Message * Severity) :=
  match last (logs st) with
  | Some e => Some (msg e, type e)
  | None => None
  end.

(** The run state with the stop flag lowered. *)
Definition unflagged (st : RunState) : RunState := assign1 st (SetStopping false).

Definition unflaggedEvent (e : Event) : Event :=
  match e with
  | EvLog entry => EvLog entry
  | EvProgress st => EvProgress (unflagged st)
  | EvAwait st => EvAwait (unflagged st)
  end.

(** Two worlds that agree on everything but the stop flag, now and in
    every run state shown so far. *)
Definition sameButStopping (w w' : World) : Prop :=
  unflagged (syncState w) = unflagged (syncState w')
  /\ clock w = clock w'
  /\ map unflaggedEvent (events w) = map unflaggedEvent (events w').

(** [m] does not read the stop flag: from worlds that agree on everything
    else it returns the same result and ends in worlds that again agree on
    everything else. *)
Definition blind {A} (m : M A) : Prop :=
  forall w w',
    sameButStopping w w' ->
    fst (m w) = fst (m w') /\ sameButStopping (snd (m w)) (snd (m w')).

(** The text the command wrote to its standard output, and to its
    standard error. *)
Fixpoint stdoutOf (events : list Remote.SshEvent) : string :=
  match events with
  | [] => EmptyString
  | Remote.StdoutData chunk :: rest => (chunk +:+ stdoutOf rest)%string
  | _ :: rest => stdoutOf rest
  end.

Fixpoint stderrOf (events : list Remote.SshEvent) : string :=
  match events with
  | [] => EmptyString
  | Remote.StderrData chunk :: rest => (chunk +:+ stderrOf rest)%string
  | _ :: rest => stderrOf rest
  end.

Definition isData (e : Remote.SshEvent) : bool :=
  match e with
  | Remote.StdoutData _ | Remote.StderrData _ => true
  | _ => false
  end.

(** * Properties *)

(** ** Numbers *)

Section NumberFacts.

Lemma SFcompare_antisym (x y : number) :
  SFcompare y x = option_map CompOpp (SFcompare x y).
Proof.
  destruct x as [sx | sx | | sx mx ex], y as [sy | sy | | sy my ey]; simpl;
    try reflexivity;
    try (destruct sx; reflexivity);
    try (destruct sy; reflexivity);
    try (destruct sx, sy; reflexivity).
  destruct sx, sy; simpl; try reflexivity;
    rewrite (Z.compare_antisym ex ey);
    destruct (ex ?= ey)%Z; simpl; try reflexivity;
    repeat f_equal; exact (eq_sym (Pos.compare_cont_antisym mx my Eq)).
Qed.

(** [d <= y] excludes [d > y]. *)
Lemma leb_not_gtb (d y : number) : leb d y = true -> gtb d y = false.
Proof.
  unfold leb, gtb, SFleb, SFltb. rewrite (SFcompare_antisym d y).
  destruct (SFcompare d y) as [[ | | ] | ]; simpl; congruence.
Qed.

(** [x - x] is a zero, or not a number. *)
Lemma sub_diag (x : number) :
  JS.sub x x = S754_zero false \/ JS.sub x x = S754_nan.
Proof.
  destruct x as [[ | ] | [ | ] | | s m e]; simpl; auto.
  left. unfold JS.sub, SFsub. rewrite Z.sub_diag. reflexivity.
Qed.

Lemma price_unchanged_refl (x : number) :
  gtb (Math_abs (JS.sub x x)) (ofZ 1) = false.
Proof. destruct (sub_diag x) as [-> | ->]; reflexivity. Qed.

End NumberFacts.

(** ** Strings *)

Section StringFacts.

Lemma append_cons (c : ascii) (s t : string) :
  String c s +:+ t = String c (s +:+ t).
Proof. reflexivity. Qed.

Lemma list_of_append (s t : string) :
  list_ascii_of_string (s +:+ t) =
  list_ascii_of_string s ++ list_ascii_of_string t.
Proof.
  induction s as [ | c s IH]; [reflexivity | ].
  rewrite append_cons. simpl. now rewrite IH.
Qed.

Lemma list_of_string_inj (s t : string) :
  list_ascii_of_string s = list_ascii_of_string t -> s = t.
Proof.
  intros H. rewrite <- (string_of_list_ascii_of_string s),
    <- (string_of_list_ascii_of_string t). now rewrite H.
Qed.

Lemma append_cancel_r (s1 s2 t : string) : s1 +:+ t = s2 +:+ t -> s1 = s2.
Proof.
  intros H. apply list_of_string_inj.
  apply (f_equal list_ascii_of_string) in H.
  rewrite !list_of_append in H. now apply app_inv_tail in H.
Qed.

Lemma append_cancel_l (p s1 s2 : string) : p +:+ s1 = p +:+ s2 -> s1 = s2.
Proof.
  intros H. apply list_of_string_inj.
  apply (f_equal list_ascii_of_string) in H.
  rewrite !list_of_append in H. now apply app_inv_head in H.
Qed.

End StringFacts.

(** ** The scenarios of the specification *)

Section Scenarios.

(** One group with rows A and B, rate 4000, minimum 200: only A is
    sellable, at 10000; a full run against an empty store creates one
    product and updates and skips none, in either server. *)
Example scenario_full_run_empty_store :
  singlesOf [Sample.rowA; Sample.rowB] = [Sample.rowA]
  /\ Rest.priceOf (ofZ 4000) Sample.rowA = ofZ 10000
  /\ Ssh.priceOf (ofZ 4000) Sample.rowA = ofZ 10000
  /\ (let st := syncState (snd (Rest.runSync Sample.restEnv "full" Sample.world0)) in
      phase st = complete /\ created st = 1 /\ updated st = 0 /\ skipped st = 0)
  /\ (let st := syncState (snd (Ssh.runSync Sample.sshEnv "full" "ssh" Sample.world0)) in
      phase st = complete /\ created st = 1 /\ updated st = 0 /\ skipped st = 0).
Proof. repeat split; vm_compute; reflexivity. Qed.

(** The store holds A at 10000: the SSH run skips it. *)
Example scenario_unchanged_price :
  let st := syncState (snd (Ssh.runSync Sample.sshEnvSettled "full" "ssh"
                              Sample.world0)) in
  phase st = complete /\ created st = 0 /\ updated st = 0 /\ skipped st = 1.
Proof. repeat split; vm_compute; reflexivity. Qed.

(** In prices-only mode a row that the store lacks is skipped. *)
Example scenario_prices_only :
  let st := syncState (snd (Ssh.runSync Sample.sshEnv "prices" "ssh"
                              Sample.world0)) in
  phase st = complete /\ created st = 0 /\ updated st = 0 /\ skipped st = 1.
Proof. repeat split; vm_compute; reflexivity. Qed.

End Scenarios.

(** ** The normaliser: filter and price *)

Section Normaliser.

Lemma strTruthy_Some (v : maybe string) :
  strTruthy v = true -> exists c s, v = Some (String c s).
Proof. destruct v as [[ | c s] | ]; simpl; try discriminate; eauto. Qed.

(** What the filter predicate asks of a row. *)
Lemma isSingle_iff (p : RawRow) :
  isSingle p = true <->
  trim (orEmpty (p !! "extNumber")) <> EmptyString
  /\ includes (trim (orEmpty (p !! "extNumber"))) "/" = true
  /\ exists s, p !! "marketPrice" = Some s /\ gtb (parseFloat s) (ofZ 0) = true.
Proof.
  unfold isSingle. split.
  - intros H. apply andb_prop in H as [Hs Hp].
    apply andb_prop in Hp as [Ht Hg].
    split; [ | split; [exact Hs | ] ].
    + intros E. rewrite E in Hs. discriminate Hs.
    + destruct (strTruthy_Some _ Ht) as (c & s & E).
      rewrite E in Hg. exists (String c s). split; [exact E | exact Hg].
  - intros (_ & Hs & s & E & Hg). rewrite Hs, E. simpl.
    destruct s as [ | c s]; [discriminate Hg | exact Hg].
Qed.

End Normaliser.

(** C6. For every row and both servers, the price a decision sends to the
    store is the minimum 200 whenever the converted and rounded market
    price is below 200, and is that rounded price unchanged otherwise. *)
Theorem price_clamp (pricesOnly : bool) (trm : number)
  (setName abbrev : maybe string) (row : RawRow) :
  (forall existing p,
      Rest.emittedPrice (Rest.decide pricesOnly trm setName abbrev existing row) = Some p ->
      (ltb (Rest.computedPrice trm row) (ofZ 200) = true -> p = ofZ 200)
      /\ (ltb (Rest.computedPrice trm row) (ofZ 200) = false ->
          p = Rest.computedPrice trm row))
  /\ (forall existing p,
      Ssh.emittedPrice (Ssh.decide pricesOnly trm setName abbrev existing row) = Some p ->
      (ltb (Ssh.computedPrice trm row) (ofZ 200) = true -> p = ofZ 200)
      /\ (ltb (Ssh.computedPrice trm row) (ofZ 200) = false ->
          p = Ssh.computedPrice trm row)).
Proof.
  split; intros existing p H.
  - assert (E : p = Rest.priceOf trm row).
    { unfold Rest.decide in H.
      destruct (existing !! skuOfRow abbrev row) as [e | ];
        destruct pricesOnly; simpl in H; congruence. }
    subst p. unfold Rest.priceOf, clampMin. change MIN_PRICE_COP with (ofZ 200).
    split; intros ->; reflexivity.
  - assert (E : p = Ssh.priceOf trm row).
    { unfold Ssh.decide in H.
      destruct (existing !! skuOfRow abbrev row) as [e | ].
      - destruct (Ssh.priceChanged _ _); simpl in H; congruence.
      - destruct pricesOnly; simpl in H; congruence. }
    subst p. unfold Ssh.priceOf, clampMin. change MIN_PRICE_COP with (ofZ 200).
    split; intros ->; reflexivity.
Qed.

(** A row worth 0.01 at rate 4000 converts to 40 and is created at 200; a
    row worth 2.50 is created at its converted price 10000. *)
Lemma price_clamp_witness :
  (Rest.emittedPrice
     (Rest.decide false (ofZ 4000) (Some "Base Set") (Some "BS") ∅ Sample.rowCheap)
   = Some (ofZ 200)
   /\ ltb (Rest.computedPrice (ofZ 4000) Sample.rowCheap) (ofZ 200) = true
   /\ Rest.priceOf (ofZ 4000) Sample.rowCheap = ofZ 200)
  /\ (Ssh.emittedPrice
        (Ssh.decide false (ofZ 4000) (Some "Base Set") (Some "BS") ∅ Sample.rowA)
      = Some (ofZ 10000)
      /\ ltb (Ssh.computedPrice (ofZ 4000) Sample.rowA) (ofZ 200) = false
      /\ ofZ 10000 = Ssh.computedPrice (ofZ 4000) Sample.rowA).
Proof.
  split.
  - split; [vm_compute; reflexivity | ].
    split; [vm_compute; reflexivity | ].
    refine (proj1 (proj1 (price_clamp false (ofZ 4000) (Some "Base Set")
                            (Some "BS") Sample.rowCheap)
                     ∅ (Rest.priceOf (ofZ 4000) Sample.rowCheap) _) _);
      vm_compute; reflexivity.
  - split; [vm_compute; reflexivity | ].
    split; [vm_compute; reflexivity | ].
    apply (proj2 (price_clamp false (ofZ 4000) (Some "Base Set") (Some "BS")
                    Sample.rowA) ∅ (ofZ 10000)); vm_compute; reflexivity.
Defined.

(** C7. The filter keeps a row exactly when its trimmed [extNumber] is
    not empty and contains [/] and its [marketPrice] parses to a number
    above zero; the rows it drops reach neither the differ nor a counter:
    two feeds with the same sellable rows are processed alike by either
    server, and every row that is processed passed the filter. *)
Theorem sellable_filter :
  (forall p : RawRow,
      isSingle p = true <->
      trim (orEmpty (p !! "extNumber")) <> EmptyString
      /\ includes (trim (orEmpty (p !! "extNumber"))) "/" = true
      /\ exists s, p !! "marketPrice" = Some s /\ gtb (parseFloat s) (ofZ 0) = true)
  /\ (forall (products : list RawRow) (row : RawRow),
         In row (singlesOf products) <-> In row products /\ isSingle row = true)
  /\ (forall env pricesOnly trm groupsMap abbrevMap i group existing
             (products1 products2 : list RawRow),
         singlesOf products1 = singlesOf products2 ->
         Rest.processGroup (Rest.withSetCsv env (fun _ => inr products1))
           pricesOnly trm groupsMap abbrevMap i group existing
         = Rest.processGroup (Rest.withSetCsv env (fun _ => inr products2))
             pricesOnly trm groupsMap abbrevMap i group existing)
  /\ (forall env pricesOnly trm nGroups groupsMap abbrevMap i group l
             (products1 products2 : list RawRow),
         singlesOf products1 = singlesOf products2 ->
         Ssh.processGroup (Ssh.withSetCsv env (fun _ => inr products1))
           pricesOnly trm nGroups groupsMap abbrevMap i group l
         = Ssh.processGroup (Ssh.withSetCsv env (fun _ => inr products2))
             pricesOnly trm nGroups groupsMap abbrevMap i group l).
Proof.
  split; [exact isSingle_iff | ].
  split; [intros products row; apply List.filter_In | ].
  split.
  - intros * H. unfold Rest.processGroup, Rest.withSetCsv.
    cbn [Rest.setCsv Rest.createBatch Rest.updateBatch].
    cbv beta iota delta [tryCatch bind awaitCall ret await].
    rewrite H. reflexivity.
  - intros * H. unfold Ssh.processGroup, Ssh.withSetCsv.
    cbn [Ssh.setCsv Ssh.sqlBatch Ssh.wpCreate]. rewrite H. reflexivity.
Qed.

(** Row B of the sample has no number: a feed with it and a feed without
    it are processed alike. *)
Lemma sellable_filter_witness :
  isSingle Sample.rowA = true
  /\ isSingle Sample.rowB = false
  /\ Ssh.processGroup
       (Ssh.withSetCsv Sample.sshEnv (fun _ => inr [Sample.rowA; Sample.rowB]))
       false (ofZ 4000) 1 ∅ ∅ 0 Sample.group1
       {| Ssh.totals := Ssh.noTotals; Ssh.existingProducts := ∅ |}
     = Ssh.processGroup
         (Ssh.withSetCsv Sample.sshEnv (fun _ => inr [Sample.rowA]))
         false (ofZ 4000) 1 ∅ ∅ 0 Sample.group1
         {| Ssh.totals := Ssh.noTotals; Ssh.existingProducts := ∅ |}.
Proof.
  split; [vm_compute; reflexivity | ].
  split; [vm_compute; reflexivity | ].
  destruct sellable_filter as (_ & _ & _ & H).
  apply H. vm_compute. reflexivity.
Defined.

(** ** The external key *)

Section ExternalKey.

Lemma skuOf_eq_iff (p1 p2 a1 a2 : maybe string) (v1 v2 : maybe string) :
  render p1 = render p2 -> render a1 = render a2 ->
  (skuOf p1 v1 a1 = skuOf p2 v2 a2 <-> subTypeOf v1 = subTypeOf v2).
Proof.
  intros Hp Ha. unfold skuOf. rewrite Hp, Ha. split.
  - intros H. apply append_cancel_l in H. apply append_cancel_l in H.
    now apply append_cancel_r in H.
  - now intros ->.
Qed.

Lemma skuOf_productId (p1 p2 v a : maybe string) :
  render p1 <> render p2 -> skuOf p1 v a <> skuOf p2 v a.
Proof.
  intros Hne H. apply Hne. unfold skuOf in H.
  now apply append_cancel_r in H.
Qed.

Lemma skuOf_abbrev (p v a1 a2 : maybe string) :
  render a1 <> render a2 -> skuOf p v a1 <> skuOf p v a2.
Proof.
  intros Hne H. apply Hne. unfold skuOf in H.
  now do 4 apply append_cancel_l in H.
Qed.

End ExternalKey.

(** C4, as the code has it.  The key is a function of the text of the
    product identifier, of the slug of the variant label
    ([slugify(label || 'normal') || 'base']) and of the text of the
    abbreviation (an absent value reads "undefined"): rows that agree on
    them get one key, another product identifier or another abbreviation
    gives another key, and another variant label gives another key exactly
    when its slug differs. *)
Theorem sku_determined :
  (forall (abbrev : maybe string) (row1 row2 : RawRow),
      row1 !! "productId" = row2 !! "productId" ->
      row1 !! "subTypeName" = row2 !! "subTypeName" ->
      skuOfRow abbrev row1 = skuOfRow abbrev row2)
  /\ (forall p1 p2 v a : maybe string,
         render p1 <> render p2 -> skuOf p1 v a <> skuOf p2 v a)
  /\ (forall p v a1 a2 : maybe string,
         render a1 <> render a2 -> skuOf p v a1 <> skuOf p v a2)
  /\ (forall p v1 v2 a : maybe string,
         skuOf p v1 a = skuOf p v2 a <-> subTypeOf v1 = subTypeOf v2).
Proof.
  split; [ | split; [ | split] ].
  - intros abbrev row1 row2 Hp Hv. unfold skuOfRow. now rewrite Hp, Hv.
  - exact skuOf_productId.
  - exact skuOf_abbrev.
  - intros p v1 v2 a. now apply skuOf_eq_iff.
Qed.

Lemma sku_determined_witness :
  skuOf (Some "42") (Some "Holofoil") (Some "BS")
  <> skuOf (Some "43") (Some "Holofoil") (Some "BS")
  /\ skuOf (Some "42") (Some "Holofoil") (Some "BS")
     <> skuOf (Some "42") (Some "Holofoil") (Some "JU")
  /\ skuOf (Some "42") (Some "Holofoil") (Some "BS")
     <> skuOf (Some "42") (Some "Reverse Holofoil") (Some "BS")
  /\ skuOf (Some "42") (Some "Holofoil") (Some "BS") = "42-holofoil-BS".
Proof.
  destruct sku_determined as (_ & Hp & Ha & Hv).
  split; [apply Hp; discriminate | ].
  split; [apply Ha; discriminate | ].
  split; [ | reflexivity].
  intros H. apply Hv in H. discriminate H.
Defined.

(** C4 as stated fails: two different variant labels with one slug give
    one key, and so do an absent label and the label "normal". *)
Lemma sku_label_collision :
  ~ (forall p v1 v2 a : maybe string, v1 <> v2 -> skuOf p v1 a <> skuOf p v2 a)
  /\ skuOf (Some "42") (Some "Holofoil") (Some "BS")
     = skuOf (Some "42") (Some "holofoil") (Some "BS")
  /\ skuOf (Some "42") None (Some "BS") = skuOf (Some "42") (Some "normal") (Some "BS").
Proof.
  split; [ | split; reflexivity].
  intros H.
  apply (H (Some "42") (Some "Holofoil") (Some "holofoil") (Some "BS"));
    [discriminate | reflexivity].
Qed.

(** ** The rate provider *)

Section RateFacts.

Variable LOG_CAP : nat.

(** [getTRM] never throws. *)
Lemma getTRM_returns (resp : TrmResponse) (w : World) :
  exists x, fst (getTRM LOG_CAP resp w) = Ok x.
Proof.
  unfold getTRM, tryCatch, bind, awaitCall, await, throw, ret.
  destruct resp as [r | r | data]; simpl; eauto.
  destruct (first data) as [r | x]; simpl; eauto.
  destruct (valor x) as [r | [v | ]]; simpl; eauto.
Qed.

(** When the request or the decoding of its answer fails, or when the
    document has no first element, the default is returned and a warning
    is logged. *)
Lemma getTRM_default (resp : TrmResponse) (w : World) :
  (match resp with
   | Body data =>
       match first data with
       | inl _ => True
       | inr x => exists r, valor x = inl r
       end
   | _ => True
   end) ->
  fst (getTRM LOG_CAP resp w) = Ok DEFAULT_TRM
  /\ exists e, In (EvLog e) (events (snd (getTRM LOG_CAP resp w)))
               /\ msg e = MsgTrmDefault /\ type e = warn.
Proof.
  unfold getTRM, tryCatch, bind, awaitCall, await, throw, ret.
  destruct resp as [r | r | data]; simpl.
  - intros _. split; [reflexivity | ].
    eexists. split; [apply in_or_app; right; left; reflexivity | split; reflexivity].
  - intros _. split; [reflexivity | ].
    eexists. split; [apply in_or_app; right; left; reflexivity | split; reflexivity].
  - destruct (first data) as [r | x]; simpl.
    + intros _. split; [reflexivity | ].
      eexists. split; [apply in_or_app; right; left; reflexivity | split; reflexivity].
    + intros [r ->]. simpl. split; [reflexivity | ].
      eexists. split; [apply in_or_app; right; left; reflexivity | split; reflexivity].
Qed.

End RateFacts.

(** C8 fails on the code: when the answer is a document whose first
    element lacks the field [valor] (or holds a text that is no number),
    [getTRM] returns [NaN]; it neither falls back to 4200 nor logs
    anything.  It never throws, though. *)
Theorem getTRM_missing_field (cap : nat) (w : World) :
  (forall resp, exists x, fst (getTRM cap resp w) = Ok x)
  /\ fst (getTRM cap (Body (JArr [JObj []])) w) = Ok NaN
  /\ syncState (snd (getTRM cap (Body (JArr [JObj []])) w)) = syncState w
  /\ fst (getTRM cap (Body (JArr [JObj [("valor", JStr "n/a")]])) w) = Ok NaN
  /\ gtb NaN (ofZ 0) = false
  /\ NaN <> DEFAULT_TRM.
Proof.
  split; [intros resp; apply getTRM_returns | ].
  repeat split; try reflexivity. discriminate.
Qed.

(** ** Single flight *)

Lemma sameButLogs_setLogs (st : RunState) (l : list LogEntry) :
  sameButLogs st (assign1 st (SetLogs l)).
Proof. destruct st. repeat split. Qed.

Lemma logs_setLogs (st : RunState) (l : list LogEntry) :
  logs (assign1 st (SetLogs l)) = l.
Proof. destruct st. reflexivity. Qed.

(** C3, as the code has it.  While a run is in progress, [runSync] returns
    at once and leaves every field of the run state but [logs] as it was:
    it appends one warning to the log (dropping the oldest line past the
    cap) and broadcasts it.  [POST /api/sync] answers 400 and changes
    nothing at all. *)
Theorem start_while_running (w : World) :
  running (syncState w) = true ->
  let entry := {| timestamp := clock w; msg := MsgAlreadyRunning; type := warn |} in
  (forall env mode,
      fst (Rest.runSync env mode w) = Ok tt
      /\ sameButLogs (syncState w) (syncState (snd (Rest.runSync env mode w)))
      /\ logs (syncState (snd (Rest.runSync env mode w)))
         = pushLog Rest.LOG_CAP entry (logs (syncState w))
      /\ events (snd (Rest.runSync env mode w)) = events w ++ [EvLog entry])
  /\ (forall env mode method,
         fst (Ssh.runSync env mode method w) = Ok tt
         /\ sameButLogs (syncState w) (syncState (snd (Ssh.runSync env mode method w)))
         /\ logs (syncState (snd (Ssh.runSync env mode method w)))
            = pushLog Ssh.LOG_CAP entry (logs (syncState w))
         /\ events (snd (Ssh.runSync env mode method w)) = events w ++ [EvLog entry])
  /\ (forall env bodyMode, Rest.postSync env bodyMode w = (Ok Rest.Rejected400, w))
  /\ (forall env bodyMode bodyMethod,
         Ssh.postSync env bodyMode bodyMethod w = (Ok Ssh.Rejected400, w)).
Proof.
  intros Hrun entry.
  assert (HR : forall env mode,
             Rest.runSync env mode w
             = (Ok tt, {| syncState := assign1 (syncState w)
                                         (SetLogs (pushLog Rest.LOG_CAP entry
                                                     (logs (syncState w))));
                          clock := clock w;
                          events := events w ++ [EvLog entry] |})).
  { intros env mode. unfold Rest.runSync, bind, getState. rewrite Hrun. reflexivity. }
  assert (HS : forall env mode method,
             Ssh.runSync env mode method w
             = (Ok tt, {| syncState := assign1 (syncState w)
                                         (SetLogs (pushLog Ssh.LOG_CAP entry
                                                     (logs (syncState w))));
                          clock := clock w;
                          events := events w ++ [EvLog entry] |})).
  { intros env mode method. unfold Ssh.runSync, bind, getState. rewrite Hrun.
    reflexivity. }
  split; [ | split; [ | split] ].
  - intros env mode. rewrite HR. simpl.
    split; [reflexivity | ].
    split; [apply sameButLogs_setLogs | ].
    split; [apply logs_setLogs | reflexivity].
  - intros env mode method. rewrite HS. simpl.
    split; [reflexivity | ].
    split; [apply sameButLogs_setLogs | ].
    split; [apply logs_setLogs | reflexivity].
  - intros env bodyMode. unfold Rest.postSync, bind, getState.
    rewrite Hrun. reflexivity.
  - intros env bodyMode bodyMethod. unfold Ssh.postSync, bind, getState.
    rewrite Hrun. reflexivity.
Qed.

Lemma start_while_running_witness :
  running (syncState Sample.worldRunning) = true
  /\ phase (syncState (snd (Ssh.runSync Sample.sshEnv "full" "ssh" Sample.worldRunning)))
     = syncing
  /\ length (logs (syncState (snd (Ssh.runSync Sample.sshEnv "full" "ssh"
                                     Sample.worldRunning)))) = 1
  /\ Ssh.postSync Sample.sshEnv (Some "full") None Sample.worldRunning
     = (Ok Ssh.Rejected400, Sample.worldRunning).
Proof.
  assert (Hrun : running (syncState Sample.worldRunning) = true) by reflexivity.
  destruct (start_while_running Sample.worldRunning Hrun) as (_ & HS & _ & HP).
  destruct (HS Sample.sshEnv "full" "ssh") as (_ & Hsame & Hlogs & _).
  split; [exact Hrun | ].
  split; [destruct Hsame as (_ & <- & _); reflexivity | ].
  split; [rewrite Hlogs; reflexivity | apply HP].
Defined.

(** C3 as stated fails: a call of [runSync] during a run changes the run
    state, namely its log. *)
Lemma start_while_running_changes_logs :
  ~ (forall env mode method w,
        running (syncState w) = true ->
        syncState (snd (Ssh.runSync env mode method w)) = syncState w).
Proof.
  intros H.
  specialize (H Sample.sshEnv "full" "ssh" Sample.worldRunning eq_refl).
  apply (f_equal (fun st => length (logs st))) in H.
  vm_compute in H. discriminate H.
Qed.

(** ** A small program logic *)

Section Triples.

Lemma triple_ret {A} (P : World -> Prop) (a : A) Q E :
  (forall w, P w -> Q a w) -> triple P (ret a) Q E.
Proof. intros H w HP. simpl. auto. Qed.

Lemma triple_throw {A} (P : World -> Prop) (r : string) (Q : A -> World -> Prop) E :
  (forall w, P w -> E r w) -> triple P (throw r) Q E.
Proof. intros H w HP. simpl. auto. Qed.

Lemma triple_bind {A B} (P : World -> Prop) (m : M A) (R : A -> World -> Prop)
  (k : A -> M B) (Q : B -> World -> Prop) E :
  triple P m R E -> (forall a, triple (R a) (k a) Q E) -> triple P (bind m k) Q E.
Proof.
  intros Hm Hk w HP. specialize (Hm w HP). unfold bind.
  destruct (m w) as [[a | r] w1]; [ | exact Hm].
  exact (Hk a w1 Hm).
Qed.

Lemma triple_tryCatch {A} (P : World -> Prop) (body : M A) (h : string -> M A)
  (Q : A -> World -> Prop) (E' E : string -> World -> Prop) :
  triple P body Q E' -> (forall r, triple (E' r) (h r) Q E) ->
  triple P (tryCatch body h) Q E.
Proof.
  intros Hb Hh w HP. specialize (Hb w HP). unfold tryCatch.
  destruct (body w) as [[a | r] w1]; [exact Hb | ].
  exact (Hh r w1 Hb).
Qed.

Lemma triple_conseq {A} (P P' : World -> Prop) (m : M A) (Q Q' : A -> World -> Prop)
  (E E' : string -> World -> Prop) :
  triple P m Q E -> (forall w, P' w -> P w) -> (forall a w, Q a w -> Q' a w) ->
  (forall r w, E r w -> E' r w) ->
  triple P' m Q' E'.
Proof.
  intros H HP HQ HE w HP'. specialize (H w (HP w HP')).
  destruct (m w) as [[a | r] w1]; auto.
Qed.

(** A step that returns [tt] and maps the world by [f]. *)
Lemma triple_step (P : World -> Prop) (m : M unit) (f : World -> World)
  (Q : unit -> World -> Prop) E :
  (forall w, m w = (Ok tt, f w)) -> (forall w, P w -> Q tt (f w)) -> triple P m Q E.
Proof. intros Em H w HP. rewrite Em. auto. Qed.

Lemma triple_when (P : World -> Prop) (b : bool) (m : M unit)
  (Q : unit -> World -> Prop) E :
  (b = true -> triple P m Q E) -> (b = false -> forall w, P w -> Q tt w) ->
  triple P (when b m) Q E.
Proof.
  intros Ht Hf. destruct b; simpl; [now apply Ht | ].
  apply triple_ret. now apply Hf.
Qed.

(** An awaited outside call: the world moves by one suspension, then the
    outcome decides. *)
Lemma triple_awaitCall {A} (P : World -> Prop) (r : string + A)
  (Q : A -> World -> Prop) E :
  (forall w, P w ->
             match r with
             | inl reason => E reason (snd (await w))
             | inr a => Q a (snd (await w))
             end) ->
  triple P (awaitCall r) Q E.
Proof.
  intros H w HP. specialize (H w HP). unfold awaitCall, bind.
  destruct r as [reason | a]; exact H.
Qed.

(** The loop rule: [I k s] is the invariant before the element at
    position [k]. *)
Lemma triple_forIndexed {A St} (body : nat -> A -> St -> M St)
  (I : nat -> St -> World -> Prop) E (l : list A) :
  forall i0,
    (forall k x s, l !! k = Some x ->
                   triple (I (i0 + k) s) (body (i0 + k) x s) (I (S (i0 + k))) E) ->
    forall s, triple (I i0 s) (forIndexed body i0 l s) (I (i0 + length l)) E.
Proof.
  induction l as [ | x t IH]; intros i0 Hbody s; simpl.
  - apply triple_ret. intros w H. now rewrite Nat.add_0_r.
  - eapply triple_bind.
    + specialize (Hbody 0 x s eq_refl). rewrite Nat.add_0_r in Hbody. exact Hbody.
    + intros s'. eapply triple_conseq.
      * apply (IH (S i0)). intros k y s0 Hk.
        specialize (Hbody (S k) y s0 Hk).
        now rewrite Nat.add_succ_r in Hbody.
      * auto.
      * intros a w H. now rewrite Nat.add_succ_r.
      * auto.
Qed.

Lemma preserves_forIndexed {A St} (P : World -> Prop)
  (body : nat -> A -> St -> M St) (l : list A) :
  (forall k x s, preserves P (body k x s)) ->
  forall i0 s, preserves P (forIndexed body i0 l s).
Proof.
  intros Hbody. induction l as [ | x t IH]; intros i0 s; simpl.
  - apply triple_ret. auto.
  - eapply triple_bind; [apply Hbody | intros s'; apply IH].
Qed.

Lemma preserves_foldM {A St} (P : World -> Prop)
  (body : A -> St -> M St) (l : list A) :
  (forall x s, preserves P (body x s)) ->
  forall s, preserves P (foldM body l s).
Proof.
  intros Hbody. induction l as [ | x t IH]; intros s; simpl.
  - apply triple_ret. auto.
  - eapply triple_bind; [apply Hbody | intros s'; apply IH].
Qed.

Lemma triple_any {A} (P : World -> Prop) (m : M A) :
  triple P m (fun _ _ => True) (fun _ _ => True).
Proof. intros w _. destruct (m w) as [[a | r] w']; exact I. Qed.

Lemma bind_ret {A B} (a : A) (k : A -> M B) : bind (ret a) k = k a.
Proof. reflexivity. Qed.

Lemma await_step (w : World) : await w = (Ok tt, snd (await w)).
Proof. reflexivity. Qed.

Lemma updateProgress_step (us : list Update) (w : World) :
  updateProgress us w = (Ok tt, snd (updateProgress us w)).
Proof. reflexivity. Qed.

Lemma log_step (cap : nat) (m : Message) (ty : Severity) (w : World) :
  log cap m ty w = (Ok tt, snd (log cap m ty w)).
Proof. reflexivity. Qed.

Lemma yields_returns {A} (m : M A) (Q : A -> Prop) (w : World) :
  yields m Q -> exists a w', m w = (Ok a, w') /\ Q a.
Proof.
  intros H. specialize (H w I). destruct (m w) as [[a | r] w'].
  - exists a, w'. auto.
  - destruct H.
Qed.

Lemma yields_ret {A} (a : A) (Q : A -> Prop) : Q a -> yields (ret a) Q.
Proof. intros H. apply triple_ret. auto. Qed.

Lemma yields_bind {A B} (m : M A) (R : A -> Prop) (k : A -> M B) (Q : B -> Prop) :
  yields m R -> (forall a, R a -> yields (k a) Q) -> yields (bind m k) Q.
Proof.
  intros Hm Hk w _. specialize (Hm w I). unfold bind.
  destruct (m w) as [[a | r] w1]; [ | exact Hm].
  exact (Hk a Hm w1 I).
Qed.

Lemma yields_conseq {A} (m : M A) (Q Q' : A -> Prop) :
  yields m Q -> (forall a, Q a -> Q' a) -> yields m Q'.
Proof. intros H HQ. eapply triple_conseq; [exact H | auto | auto | auto]. Qed.

Lemma yields_step (m : M unit) (f : World -> World) :
  (forall w, m w = (Ok tt, f w)) -> yields m (fun _ => True).
Proof. intros E. apply triple_step with (f := f); auto. Qed.

Lemma yields_when (b : bool) (m : M unit) :
  yields m (fun _ => True) -> yields (when b m) (fun _ => True).
Proof. intros H. destruct b; [exact H | now apply yields_ret]. Qed.

Lemma yields_forIndexed {A St} (body : nat -> A -> St -> M St)
  (J : nat -> St -> Prop) (l : list A) (i0 : nat) :
  (forall k x s, l !! k = Some x -> J (i0 + k) s ->
                 yields (body (i0 + k) x s) (J (S (i0 + k)))) ->
  forall s, J i0 s -> yields (forIndexed body i0 l s) (J (i0 + length l)).
Proof.
  intros Hbody s Hs.
  pose proof (triple_forIndexed body (fun k s _ => J k s) never l i0) as H.
  eapply triple_conseq; [apply H | auto | auto | auto].
  intros k x s0 Hk w HJ. now apply (Hbody k x s0 Hk HJ w).
Qed.

End Triples.

(** ** Batches *)

Section Chunks.

Context {A : Type}.

Lemma chunksAux_concat (size : nat) :
  0 < size ->
  forall fuel (l : list A), length l <= fuel ->
    concat (chunksAux fuel size l) = l
    /\ Forall (fun b => b <> []) (chunksAux fuel size l).
Proof.
  intros Hsize. induction fuel as [ | fuel IH]; intros l Hlen.
  - destruct l; [split; [reflexivity | constructor] | simpl in Hlen; lia].
  - destruct l as [ | x t]; [split; [reflexivity | constructor] | ].
    cbn [chunksAux].
    destruct (IH (drop size (x :: t))) as [Hc Hne].
    { rewrite length_drop. simpl in *. lia. }
    split.
    + cbn [concat]. rewrite Hc. apply take_drop.
    + constructor; [ | exact Hne].
      destruct size; [lia | discriminate].
Qed.

Lemma chunks_concat (size : nat) (l : list A) :
  0 < size -> concat (chunks size l) = l.
Proof. intros H. now apply chunksAux_concat. Qed.

Lemma chunks_nonempty (size : nat) (l : list A) :
  0 < size -> Forall (fun b => b <> []) (chunks size l).
Proof. intros H. now apply chunksAux_concat. Qed.

End Chunks.

(** ** Failure of a run *)

(** In the SSH server every run that starts ends with [running = false],
    in phase [complete] or [error], and with [endTime] recorded. *)
Lemma ssh_run_ends (env : Ssh.Env) (mode method : string) (w : World) :
  running (syncState w) = false ->
  let st' := syncState (snd (Ssh.runSync env mode method w)) in
  running st' = false
  /\ (phase st' = complete \/ phase st' = error)
  /\ endTime st' <> None.
Proof.
  intros Hrun st'.
  assert (E : st' = syncState (snd (Ssh.runSync env mode method w))) by reflexivity.
  clearbody st'. revert E.
  unfold Ssh.runSync, bind at 1, getState. rewrite Hrun.
  unfold tryCatch.
  match goal with
  | |- context [bind (if ?c then ?a else ?b) ?k] =>
      generalize (if c then a else b); intros body
  end.
  cbv beta iota delta [bind resetState modify now updateProgress getState emit fst snd
                         syncState clock events].
  match goal with
  | |- context [body ?w1] => destruct (body w1) as [[t | reason] [st2 c2 e2]]
  end.
  - destruct st2; simpl. intros ->; simpl.
    split; [reflexivity | split; [now left | discriminate] ].
  - destruct st2; simpl. intros ->; simpl.
    split; [reflexivity | split; [now right | discriminate] ].
Qed.

Section RestFailure.

(** Steps that change neither [endTime] nor anything but the run state,
    the clock and the events. *)

Lemma noEndTime_await : preserves noEndTime await.
Proof. intros w H. exact H. Qed.

Lemma noEndTime_awaitCall {A} (r : string + A) : preserves noEndTime (awaitCall r).
Proof. apply triple_awaitCall. intros w H. destruct r; exact H. Qed.

Lemma noEndTime_log (cap : nat) (m : Message) (ty : Severity) :
  preserves noEndTime (log cap m ty).
Proof. intros [st clk evs] H. unfold noEndTime in *. destruct st; exact H. Qed.

Lemma noEndTime_modify (f : RunState -> RunState) :
  (forall st, endTime st = None -> endTime (f st) = None) ->
  preserves noEndTime (modify f).
Proof. intros Hf w H. apply Hf. exact H. Qed.

Lemma noEndTime_updateProgress (us : list Update) :
  (forall st, endTime st = None -> endTime (assign st us) = None) ->
  preserves noEndTime (updateProgress us).
Proof. intros Hf w H. apply Hf. exact H. Qed.

Lemma noEndTime_getState : triple noEndTime getState (fun _ => noEndTime) (fun _ => noEndTime).
Proof. intros w H. exact H. Qed.

End RestFailure.

Ltac same_endTime :=
  let st := fresh "st" in
  intros st; destruct st; simpl; auto.

(** Walks through a computation built from the steps above. *)
Ltac keeps_noEndTime :=
  lazymatch goal with
  | |- preserves _ _ => unfold preserves; keeps_noEndTime
  | |- triple _ (bind _ _) _ _ =>
      eapply triple_bind with (R := fun _ => noEndTime);
      [ keeps_noEndTime | intros ?; keeps_noEndTime ]
  | |- triple _ (ret _) _ _ => apply triple_ret; auto
  | |- triple _ (throw _) _ _ => apply triple_throw; auto
  | |- triple _ (tryCatch _ _) _ _ =>
      apply triple_tryCatch with (E' := fun _ => noEndTime);
      [ keeps_noEndTime | intros ?; keeps_noEndTime ]
  | |- triple _ (awaitCall _) _ _ => apply noEndTime_awaitCall
  | |- triple _ await _ _ => apply noEndTime_await
  | |- triple _ (log _ _ _) _ _ => apply noEndTime_log
  | |- triple _ (Rest.log _ _) _ _ => apply noEndTime_log
  | |- triple _ (updateProgress _) _ _ =>
      apply noEndTime_updateProgress; same_endTime
  | |- triple _ (modify _) _ _ => apply noEndTime_modify; same_endTime
  | |- triple _ (Rest.addSkipped _) _ _ => apply noEndTime_modify; same_endTime
  | |- triple _ getState _ _ => apply noEndTime_getState
  | |- triple _ (when _ _) _ _ =>
      apply triple_when; [ intros _; keeps_noEndTime | auto ]
  | |- triple _ (match ?x with _ => _ end) _ _ => destruct x; keeps_noEndTime
  | |- _ => idtac
  end.

Section RestFailureRun.

Lemma getTRM_noEndTime (cap : nat) (resp : TrmResponse) :
  preserves noEndTime (getTRM cap resp).
Proof. unfold getTRM. keeps_noEndTime. Qed.

Lemma rest_planRow_noEndTime pricesOnly trm setName abbrev existing row lists :
  preserves noEndTime (Rest.planRow pricesOnly trm setName abbrev existing row lists).
Proof. unfold Rest.planRow. destruct lists. keeps_noEndTime. Qed.

Lemma rest_createStep_noEndTime post j batch existing :
  preserves noEndTime (Rest.createStep post j batch existing).
Proof. unfold Rest.createStep. keeps_noEndTime. Qed.

Lemma rest_updateStep_noEndTime post j batch u :
  preserves noEndTime (Rest.updateStep post j batch u).
Proof. unfold Rest.updateStep. keeps_noEndTime. Qed.

Lemma rest_syncSingles_noEndTime postCreate postUpdate pricesOnly trm setName abbrev
  singles existing :
  preserves noEndTime
    (Rest.syncSingles postCreate postUpdate pricesOnly trm setName abbrev singles
       existing).
Proof.
  unfold Rest.syncSingles. destruct singles as [ | row rows]; [keeps_noEndTime | ].
  eapply triple_bind with (R := fun _ => noEndTime).
  { apply preserves_foldM. intros x s. apply rest_planRow_noEndTime. }
  intros [toCreate toUpdate].
  eapply triple_bind with (R := fun _ => noEndTime).
  { destruct (negb pricesOnly); [ | keeps_noEndTime].
    apply preserves_forIndexed. intros k x s. apply rest_createStep_noEndTime. }
  intros ex.
  eapply triple_bind with (R := fun _ => noEndTime).
  { apply preserves_forIndexed. intros k x s. apply rest_updateStep_noEndTime. }
  intros []. keeps_noEndTime.
Qed.

Lemma rest_processGroup_noEndTime env pricesOnly trm groupsMap abbrevMap i group
  existing :
  preserves noEndTime
    (Rest.processGroup env pricesOnly trm groupsMap abbrevMap i group existing).
Proof.
  unfold Rest.processGroup.
  eapply triple_bind with (R := fun _ => noEndTime); [keeps_noEndTime | intros [] ].
  eapply triple_bind with (R := fun _ => noEndTime); [keeps_noEndTime | ].
  intros [products | ]; [apply rest_syncSingles_noEndTime | keeps_noEndTime].
Qed.

Lemma rest_fetchExisting_noEndTime answers :
  forall page existing,
    preserves noEndTime (Rest.fetchExisting answers page existing).
Proof.
  assert (Hstep : forall resp page existing,
             preserves noEndTime (Rest.pageStep resp page existing)).
  { intros resp page existing. unfold Rest.pageStep. keeps_noEndTime. }
  induction answers as [ | resp rest IH]; intros page existing; simpl.
  - eapply triple_bind with (R := fun _ => noEndTime); [apply Hstep | intros r].
    keeps_noEndTime.
  - eapply triple_bind with (R := fun _ => noEndTime); [apply Hstep | intros r].
    destruct (fst r); [apply IH | keeps_noEndTime].
Qed.

(** The [try] block of [server.js] either returns, with the run state
    complete and stamped, or throws before any end time was recorded. *)
Lemma rest_runBody_noEndTime (env : Rest.Env) (pricesOnly : bool) :
  triple noEndTime (Rest.runBody env pricesOnly)
    (fun _ w => phase (syncState w) = complete /\ running (syncState w) = false
                /\ endTime (syncState w) <> None)
    (fun _ => noEndTime).
Proof.
  unfold Rest.runBody.
  do 2 (eapply triple_bind with (R := fun _ => noEndTime);
        [keeps_noEndTime | intros [] ]).
  eapply triple_bind with (R := fun _ => noEndTime); [keeps_noEndTime | intros groups].
  do 2 (eapply triple_bind with (R := fun _ => noEndTime);
        [keeps_noEndTime | intros [] ]).
  eapply triple_bind with (R := fun _ => noEndTime);
    [apply getTRM_noEndTime | intros trm].
  do 3 (eapply triple_bind with (R := fun _ => noEndTime);
        [keeps_noEndTime | intros [] ]).
  destruct (Rest.connect env) as [reason | []]; [apply triple_throw; auto | ].
  do 2 (eapply triple_bind with (R := fun _ => noEndTime);
        [keeps_noEndTime | intros [] ]).
  eapply triple_bind with (R := fun _ => noEndTime);
    [apply rest_fetchExisting_noEndTime | intros existing].
  do 3 (eapply triple_bind with (R := fun _ => noEndTime);
        [keeps_noEndTime | intros [] ]).
  eapply triple_bind with (R := fun _ => noEndTime).
  { unfold Rest.syncGroups. apply preserves_forIndexed.
    intros k x s. apply rest_processGroup_noEndTime. }
  intros _ [st clk evs] _. destruct st; simpl.
  split; [reflexivity | split; [reflexivity | discriminate] ].
Qed.

End RestFailureRun.

(** C9 fails on [server.js]: a run ends either complete, with its end
    time recorded, or, when a failure escapes the run body, in phase
    [error] with [running = false] and with no [endTime] at all, which
    stays [null]; the [catch] block does not assign it.  The SSH server
    records it in both cases. *)
Theorem rest_failure_no_endTime (env : Rest.Env) (mode : string) (w : World) :
  running (syncState w) = false ->
  let st' := syncState (snd (Rest.runSync env mode w)) in
  (phase st' = complete /\ running st' = false /\ endTime st' <> None)
  \/ (phase st' = error /\ running st' = false /\ endTime st' = None).
Proof.
  intros Hrun st'.
  assert (E : st' = syncState (snd (Rest.runSync env mode w))) by reflexivity.
  clearbody st'. revert E.
  unfold Rest.runSync, bind at 1, getState. rewrite Hrun.
  pose proof (rest_runBody_noEndTime env (String.eqb mode "prices")) as Hbody.
  generalize dependent (Rest.runBody env (String.eqb mode "prices")).
  intros body Hbody.
  cbv beta iota zeta delta [bind resetState modify now updateProgress getState emit
                              tryCatch fst snd syncState clock events Rest.log log].
  match goal with
  | |- context [body ?w1] =>
      assert (Hw1 : noEndTime w1) by reflexivity;
      specialize (Hbody w1 Hw1); destruct (body w1) as [[[] | reason] [st2 c2 e2]]
  end.
  - intros ->. left. exact Hbody.
  - unfold noEndTime in Hbody. destruct st2; simpl in *. intros ->. right. simpl.
    split; [reflexivity | split; [reflexivity | exact Hbody] ].
Qed.

(** The download of the groups listing fails: the run ends in phase
    [error] with [endTime] still [null]. *)
Lemma rest_failure_no_endTime_witness :
  let env := {| Rest.groupsCsv := inl "getaddrinfo ENOTFOUND tcgcsv.com";
                Rest.trmResponse := Sample.rate4000;
                Rest.connect := inr tt; Rest.pages := [];
                Rest.setCsv := fun _ => inr [];
                Rest.createBatch := fun _ _ => inr tt;
                Rest.updateBatch := fun _ _ => inr tt |} in
  let st' := syncState (snd (Rest.runSync env "full" Sample.world0)) in
  running (syncState Sample.world0) = false
  /\ phase st' = error /\ running st' = false /\ endTime st' = None
  /\ startTime st' = Some 0.
Proof.
  intros env st'. split; [reflexivity | ].
  destruct (rest_failure_no_endTime env "full" Sample.world0 eq_refl)
    as [(H1 & _) | (H1 & H2 & H3)].
  - vm_compute in H1. discriminate H1.
  - split; [exact H1 | ]. split; [exact H2 | ]. split; [exact H3 | reflexivity].
Defined.

(** ** Counters of the SSH server *)

Section SshCounters.

Import Ssh.

Lemma planOf_count_from pricesOnly trm setName abbrev existing singles :
  forall plan0,
    let plan := fold_left (planRow pricesOnly trm setName abbrev existing)
                  singles plan0 in
    length (priceUpdates plan) + length (newProducts plan) + planSkipped plan
    = length (priceUpdates plan0) + length (newProducts plan0) + planSkipped plan0
      + length singles.
Proof.
  induction singles as [ | row rows IH]; intros plan0; simpl; [lia | ].
  rewrite IH. unfold planRow.
  destruct (decide pricesOnly trm setName abbrev existing row); simpl;
    rewrite ?length_app; simpl; lia.
Qed.

(** Every sellable row goes to exactly one of the two lists or is skipped. *)
Lemma planOf_count pricesOnly trm setName abbrev existing singles skipped0 :
  let plan := planOf pricesOnly trm setName abbrev existing singles skipped0 in
  length (priceUpdates plan) + length (newProducts plan) + planSkipped plan
  = skipped0 + length singles.
Proof. unfold planOf. rewrite planOf_count_from. simpl. lia. Qed.

Lemma sqlBatches_count (sql : nat -> string + unit) (batches : list (list PriceUpdate)) :
  Forall (fun b => b <> []) batches ->
  forall j n0,
    yields (sqlBatches sql j batches n0)
      (fun r =>
         n0 <= fst r
         /\ match snd r with
            | None => fst r = n0 + length (concat batches)
            | Some _ => S (fst r) <= n0 + length (concat batches)
            end).
Proof.
  induction 1 as [ | b bs Hb Hbs IH]; intros j n0; simpl.
  - apply yields_ret. simpl. lia.
  - eapply yields_bind; [exact (yields_step _ _ await_step) | intros _ _].
    destruct (sql j) as [reason | []].
    + apply yields_ret. simpl. rewrite length_app.
      destruct b; [congruence | simpl; lia].
    + eapply yields_bind;
        [exact (yields_step _ _ (updateProgress_step _)) | intros _ _].
      eapply yields_conseq; [apply (IH (S j) (n0 + length b)) | ].
      intros r [Hle H]. rewrite length_app.
      split; [lia | ]. destruct (snd r); lia.
Qed.

Lemma applyPriceUpdates_count (sql : nat -> string + unit)
  (updates : list PriceUpdate) (t : Totals) :
  yields (applyPriceUpdates sql updates t)
    (fun t' =>
       grows t t'
       /\ totalCreated t' = totalCreated t /\ totalSkipped t' = totalSkipped t
       /\ totalUpdated t' + totalErrors t'
          <= totalUpdated t + totalErrors t + length updates).
Proof.
  unfold applyPriceUpdates. destruct updates as [ | u us].
  - apply yields_ret. unfold grows. simpl. repeat split; lia.
  - eapply yields_bind.
    + apply sqlBatches_count. apply chunks_nonempty. unfold BATCH_SIZE. lia.
    + intros [n failed]. rewrite chunks_concat by (unfold BATCH_SIZE; lia).
      cbn [fst snd]. intros [Hle H]. destruct failed as [reason | ].
      * eapply yields_bind;
          [exact (yields_step _ _ (log_step LOG_CAP _ _)) | intros _ _].
        apply yields_ret. unfold grows. simpl in H |- *. repeat split; lia.
      * apply yields_ret. unfold grows. simpl in H |- *. repeat split; lia.
Qed.

Lemma createStep_count (wp : nat -> string + string) (k : nat) (p : NewProduct)
  (l : Loop) :
  yields (createStep wp k p l)
    (fun l' =>
       grows (totals l) (totals l')
       /\ totalUpdated (totals l') = totalUpdated (totals l)
       /\ totalSkipped (totals l') = totalSkipped (totals l)
       /\ totalCreated (totals l') + totalErrors (totals l')
          <= S (totalCreated (totals l) + totalErrors (totals l))).
Proof.
  unfold createStep.
  eapply yields_bind; [exact (yields_step _ _ await_step) | intros _ _].
  eapply yields_bind with
    (R := fun l' =>
            grows (totals l) (totals l')
            /\ totalUpdated (totals l') = totalUpdated (totals l)
            /\ totalSkipped (totals l') = totalSkipped (totals l)
            /\ totalCreated (totals l') + totalErrors (totals l')
               <= S (totalCreated (totals l) + totalErrors (totals l))).
  - destruct (wp k) as [reason | result].
    + apply yields_ret. unfold grows. simpl. repeat split; lia.
    + destruct (negb (String.eqb (trim result) "SKIP")).
      * eapply yields_bind;
          [exact (yields_step _ _ (updateProgress_step _)) | intros _ _].
        apply yields_ret. unfold grows. simpl. repeat split; lia.
      * apply yields_ret. unfold grows. repeat split; lia.
  - intros l' H.
    eapply yields_bind;
      [apply yields_when; exact (yields_step _ _ await_step) | intros _ _].
    now apply yields_ret.
Qed.

Lemma applyCreates_count (wp : nat -> string + string) (pricesOnly : bool)
  (new : list NewProduct) (l : Loop) :
  yields (applyCreates wp pricesOnly new l)
    (fun l' =>
       grows (totals l) (totals l')
       /\ totalUpdated (totals l') = totalUpdated (totals l)
       /\ totalSkipped (totals l') = totalSkipped (totals l)
       /\ totalCreated (totals l') + totalErrors (totals l')
          <= totalCreated (totals l) + totalErrors (totals l) + length new).
Proof.
  unfold applyCreates.
  destruct (negb (Nat.eqb (length new) 0) && negb pricesOnly).
  - pose proof (yields_forIndexed (createStep wp)
                  (fun k l' =>
                     grows (totals l) (totals l')
                     /\ totalUpdated (totals l') = totalUpdated (totals l)
                     /\ totalSkipped (totals l') = totalSkipped (totals l)
                     /\ totalCreated (totals l') + totalErrors (totals l')
                        <= totalCreated (totals l) + totalErrors (totals l) + k)
                  new 0) as H.
    simpl in H. apply H.
    + intros k x s _ (Hg & Hu & Hs & Hc).
      eapply yields_conseq; [apply createStep_count | ].
      intros l' (Hg' & Hu' & Hs' & Hc'). unfold grows in *.
      repeat split; lia.
    + unfold grows. repeat split; lia.
  - apply yields_ret. unfold grows. repeat split; lia.
Qed.

Lemma planSkipped_mono pricesOnly trm setName abbrev existing singles :
  forall plan0,
    planSkipped plan0
    <= planSkipped (fold_left (planRow pricesOnly trm setName abbrev existing)
                      singles plan0).
Proof.
  induction singles as [ | row rows IH]; intros plan0; simpl; [lia | ].
  etransitivity; [ | apply IH]. unfold planRow.
  destruct (decide pricesOnly trm setName abbrev existing row); simpl; lia.
Qed.

(** What the sellable rows of a group add to the counters. *)
Lemma syncSingles_count sql wp pricesOnly trm nGroups setName abbrev i
  (singles : list RawRow) (l : Loop) :
  yields (syncSingles sql wp pricesOnly trm nGroups setName abbrev i singles l)
    (fun l' =>
       grows (totals l) (totals l')
       /\ sumTotals (totals l') <= sumTotals (totals l) + length singles).
Proof.
  unfold syncSingles. destruct singles as [ | row rows].
  - apply yields_ret. unfold grows. split; [repeat split | ]; lia.
  - set (singles := row :: rows).
    set (plan := planOf pricesOnly trm setName abbrev (existingProducts l)
                   singles (totalSkipped (totals l))).
    pose proof (planOf_count pricesOnly trm setName abbrev (existingProducts l)
                  singles (totalSkipped (totals l))) as Hcount.
    pose proof (planSkipped_mono pricesOnly trm setName abbrev (existingProducts l)
                  singles
                  {| priceUpdates := []; newProducts := [];
                     planSkipped := totalSkipped (totals l) |}) as Hmono.
    fold (planOf pricesOnly trm setName abbrev (existingProducts l) singles
            (totalSkipped (totals l))) in Hmono.
    fold plan in Hcount, Hmono. cbv zeta in Hcount. simpl in Hmono.
    eapply yields_bind; [apply applyPriceUpdates_count | ].
    intros t2 (Hg2 & Hc2 & Hs2 & Hu2). simpl in Hg2, Hc2, Hs2, Hu2.
    eapply yields_bind; [apply applyCreates_count | ].
    intros l2 (Hg3 & Hu3 & Hs3 & Hc3). simpl in Hg3, Hu3, Hs3, Hc3.
    eapply yields_bind;
      [apply yields_when; exact (yields_step _ _ (log_step LOG_CAP _ _)) | intros _ _].
    apply yields_ret. unfold grows, sumTotals in *. simpl in *.
    split; [repeat split | ]; lia.
Qed.

End SshCounters.

(** C5, as the code has it.  In the SSH server the body of the group loop
    always returns and never lowers a counter.  For a group whose CSV is
    downloaded, what it adds to created + updated + skipped + errors is at
    most the number of its sellable rows.  A group whose download fails
    adds one to the errors and nothing else. *)
Theorem group_counters_bounded (env : Ssh.Env) (pricesOnly : bool) (trm : number)
  (nGroups : nat) (groupsMap abbrevMap : gmap string (maybe string))
  (i : nat) (group : RawRow) (l : Ssh.Loop) (w : World) :
  exists l' w',
    Ssh.processGroup env pricesOnly trm nGroups groupsMap abbrevMap i group l w
    = (Ok l', w')
    /\ grows (Ssh.totals l) (Ssh.totals l')
    /\ match Ssh.setCsv env i with
       | inr products =>
           sumTotals (Ssh.totals l')
           <= sumTotals (Ssh.totals l) + length (singlesOf products)
       | inl _ =>
           Ssh.totalErrors (Ssh.totals l') = S (Ssh.totalErrors (Ssh.totals l))
           /\ Ssh.totalCreated (Ssh.totals l') = Ssh.totalCreated (Ssh.totals l)
           /\ Ssh.totalUpdated (Ssh.totals l') = Ssh.totalUpdated (Ssh.totals l)
           /\ Ssh.totalSkipped (Ssh.totals l') = Ssh.totalSkipped (Ssh.totals l)
       end.
Proof.
  assert (H : yields
                (Ssh.processGroup env pricesOnly trm nGroups groupsMap abbrevMap
                   i group l)
                (fun l' =>
                   grows (Ssh.totals l) (Ssh.totals l')
                   /\ match Ssh.setCsv env i with
                      | inr products =>
                          sumTotals (Ssh.totals l')
                          <= sumTotals (Ssh.totals l) + length (singlesOf products)
                      | inl _ =>
                          Ssh.totalErrors (Ssh.totals l')
                          = S (Ssh.totalErrors (Ssh.totals l))
                          /\ Ssh.totalCreated (Ssh.totals l')
                             = Ssh.totalCreated (Ssh.totals l)
                          /\ Ssh.totalUpdated (Ssh.totals l')
                             = Ssh.totalUpdated (Ssh.totals l)
                          /\ Ssh.totalSkipped (Ssh.totals l')
                             = Ssh.totalSkipped (Ssh.totals l)
                      end)).
  { unfold Ssh.processGroup.
    eapply yields_bind;
      [exact (yields_step _ _ (updateProgress_step _)) | intros _ _].
    eapply yields_bind; [exact (yields_step _ _ await_step) | intros _ _].
    destruct (Ssh.setCsv env i) as [reason | products].
    - apply yields_ret. unfold grows. simpl. repeat split; lia.
    - apply syncSingles_count. }
  destruct (yields_returns _ _ w H) as (l' & w' & E & HQ).
  exists l', w'. split; [exact E | exact HQ].
Qed.

(** C5 as stated fails: a group whose download fails has no rows after
    the filter, and yet adds one to the error counter. *)
Lemma failed_download_counts_one :
  let env := Ssh.withSetCsv Sample.sshEnv (fun _ => inl "socket hang up") in
  let l := {| Ssh.totals := Ssh.noTotals; Ssh.existingProducts := ∅ |} in
  exists l',
    fst (Ssh.processGroup env false (ofZ 4000) 1 ∅ ∅ 0 Sample.group1 l Sample.world0)
    = Ok l'
    /\ sellableCount (Ssh.setCsv env 0) = 0
    /\ sumTotals (Ssh.totals l') - sumTotals (Ssh.totals l) = 1
    /\ ~ (sumTotals (Ssh.totals l')
          <= sumTotals (Ssh.totals l) + sellableCount (Ssh.setCsv env 0)).
Proof.
  eexists. split; [reflexivity | ].
  split; [reflexivity | ]. split; [reflexivity | ].
  vm_compute. lia.
Qed.

(** ** The differ *)

(** C1, as the code has it.  In the SSH server an entry whose key is in
    the snapshot is skipped when the stored price and the new price differ
    by at most 1 and is updated, at the new price, only when they differ by
    more than 1; with the stored price equal to the new one it is skipped.
    It is never created.  In [server.js] the snapshot keeps no price, and
    an entry whose key is in it always goes to the update batch. *)
Theorem differ_found (pricesOnly : bool) (trm : number)
  (setName abbrev : maybe string) (row : RawRow) :
  (forall (existing : gmap string Ssh.Existing) (e : Ssh.Existing),
      existing !! skuOfRow abbrev row = Some e ->
      let d := Ssh.decide pricesOnly trm setName abbrev existing row in
      let diff := Math_abs (JS.sub (Ssh.price e) (Ssh.priceOf trm row)) in
      (leb diff (ofZ 1) = true -> d = Ssh.SKIP)
      /\ (forall u, d = Ssh.UPDATE u ->
                    gtb diff (ofZ 1) = true
                    /\ u = {| Ssh.u_id := Ssh.id e;
                              Ssh.u_price := Ssh.priceOf trm row |})
      /\ (Ssh.price e = Ssh.priceOf trm row -> d = Ssh.SKIP)
      /\ (forall p, d <> Ssh.CREATE p))
  /\ (forall (existing : gmap string Rest.Existing) (e : Rest.Existing),
         existing !! skuOfRow abbrev row = Some e ->
         exists u,
           Rest.decide pricesOnly trm setName abbrev existing row = Rest.UPDATE u
           /\ Rest.emittedPrice (Rest.UPDATE u) = Some (Rest.priceOf trm row)).
Proof.
  split.
  - intros existing e He d diff. subst d diff. unfold Ssh.decide. rewrite He.
    unfold Ssh.priceChanged.
    split; [ | split; [ | split] ].
    + intros Hle. now rewrite (leb_not_gtb _ _ Hle).
    + intros u.
      destruct (gtb (Math_abs (JS.sub (Ssh.price e) (Ssh.priceOf trm row))) (ofZ 1));
        [ | discriminate].
      intros [= <-]. split; reflexivity.
    + intros ->. now rewrite price_unchanged_refl.
    + intros p.
      destruct (gtb (Math_abs (JS.sub (Ssh.price e) (Ssh.priceOf trm row))) (ofZ 1));
        discriminate.
  - intros existing e He. unfold Rest.decide. rewrite He.
    destruct pricesOnly; eexists; split; reflexivity.
Qed.

(** The snapshot holds row A at 10000, its new price, and row A is skipped;
    at 9000 it is updated to 10000. *)
Lemma differ_found_witness :
  let sku := skuOfRow (Some "BS") Sample.rowA in
  let at10000 : gmap string Ssh.Existing :=
    {[ sku := {| Ssh.id := ofZ 7; Ssh.price := ofZ 10000 |} ]} in
  let at9000 : gmap string Ssh.Existing :=
    {[ sku := {| Ssh.id := ofZ 7; Ssh.price := ofZ 9000 |} ]} in
  at10000 !! sku = Some {| Ssh.id := ofZ 7; Ssh.price := ofZ 10000 |}
  /\ Ssh.decide false (ofZ 4000) (Some "Base Set") (Some "BS") at10000 Sample.rowA
     = Ssh.SKIP
  /\ Ssh.decide false (ofZ 4000) (Some "Base Set") (Some "BS") at9000 Sample.rowA
     = Ssh.UPDATE {| Ssh.u_id := ofZ 7; Ssh.u_price := ofZ 10000 |}.
Proof.
  intros sku at10000 at9000.
  assert (H1 : at10000 !! sku = Some {| Ssh.id := ofZ 7; Ssh.price := ofZ 10000 |})
    by (vm_compute; reflexivity).
  split; [exact H1 | ].
  destruct (differ_found false (ofZ 4000) (Some "Base Set") (Some "BS") Sample.rowA)
    as [HS _].
  split.
  - apply (HS at10000 _ H1). vm_compute; reflexivity.
  - vm_compute; reflexivity.
Defined.

(** C1 as stated fails in [server.js]: the store lists row A at 10000,
    which is its new price, and the entry is sent as an update all the
    same. *)
Lemma rest_updates_unchanged_price :
  let listed := {| Rest.p_id := 7; Rest.p_sku := Some "42-normal-BS";
                   Rest.p_status := Some "publish";
                   Rest.p_regular_price := Some "10000" |} in
  exists existing,
    fst (Rest.fetchExisting [inr [Some listed]] 1 ∅ Sample.world0) = Ok existing
    /\ parseFloat' (Rest.p_regular_price listed) = Rest.priceOf (ofZ 4000) Sample.rowA
    /\ Rest.decide true (ofZ 4000) (Some "Base Set") (Some "BS") existing Sample.rowA
       = Rest.UPDATE (Rest.PriceUpdate 7 (ofZ 10000)).
Proof.
  eexists. split; [reflexivity | ].
  split; vm_compute; reflexivity.
Qed.

(** ** What the SSH server publishes during a run *)

Section SshLive.

Variable E : string -> World -> Prop.

Lemma hidesSkips_log (e : LogEntry) : hidesSkips (EvLog e).
Proof. intros st H. discriminate H. Qed.

Lemma hidesSkips_quiet (e : Event) :
  (forall st, observed e = Some st -> skipped st = 0 /\ errors st = 0) ->
  hidesSkips e.
Proof. intros H st Ho _. now apply H. Qed.

Lemma hidesSkips_stopped (e : Event) :
  (forall st, observed e = Some st -> running st = false) -> hidesSkips e.
Proof. intros H st Ho Hr. rewrite (H st Ho) in Hr. discriminate Hr. Qed.

Lemma live_await (c u : nat) : triple (live c u) await (fun _ => live c u) E.
Proof.
  apply triple_step with (f := fun w => snd (await w)); [exact await_step | ].
  intros w (Hc & Hu & Hs & He & Hev). unfold live. simpl.
  repeat split; auto. apply Forall_app. split; [exact Hev | ].
  constructor; [ | constructor].
  apply hidesSkips_quiet. intros st [= Hst]. rewrite <- Hst. auto.
Qed.

Lemma live_log (c u cap : nat) (m : Message) (ty : Severity) :
  triple (live c u) (log cap m ty) (fun _ => live c u) E.
Proof.
  apply triple_step with (f := fun w => snd (log cap m ty w)); [apply log_step | ].
  intros [st clk evs] (Hc & Hu & Hs & He & Hev). unfold live. simpl in *.
  destruct st; simpl in *.
  repeat split; auto. apply Forall_app. split; [exact Hev | ].
  constructor; [apply hidesSkips_log | constructor].
Qed.

(** [updateProgress] with properties that leave [skipped] and [errors]
    alone. *)
Lemma live_updateProgress (c u c' u' : nat) (us : list Update) :
  (forall st, skipped st = 0 -> errors st = 0 -> created st = c -> updated st = u ->
              skipped (assign st us) = 0 /\ errors (assign st us) = 0
              /\ created (assign st us) = c' /\ updated (assign st us) = u') ->
  triple (live c u) (updateProgress us) (fun _ => live c' u') E.
Proof.
  intros Hus.
  apply triple_step with (f := fun w => snd (updateProgress us w));
    [apply updateProgress_step | ].
  intros [st clk evs] (Hc & Hu & Hs & He & Hev). simpl in *.
  destruct (Hus st Hs He Hc Hu) as (Hs' & He' & Hc' & Hu').
  unfold live. simpl. repeat split; auto.
  apply Forall_app. split; [exact Hev | ].
  constructor; [ | constructor].
  apply hidesSkips_quiet. intros st' [= Hst]. rewrite <- Hst. auto.
Qed.

End SshLive.

Ltac live_fields :=
  let st := fresh "st" in
  intros st; destruct st; simpl; intros; subst; auto.

Section SshLiveRun.

Variable E : string -> World -> Prop.

Lemma sqlBatches_live (sql : nat -> string + unit) (c : nat)
  (batches : list (list Ssh.PriceUpdate)) :
  forall j n0,
    triple (live c n0) (Ssh.sqlBatches sql j batches n0)
      (fun r => live c (fst r)) E.
Proof.
  induction batches as [ | b bs IH]; intros j n0; simpl.
  - apply triple_ret. auto.
  - eapply triple_bind; [apply live_await | intros []].
    destruct (sql j) as [reason | []].
    + apply triple_ret. auto.
    + eapply triple_bind with (R := fun _ => live c (n0 + length b));
        [ | intros []; apply IH].
      apply live_updateProgress. live_fields.
Qed.

Lemma applyPriceUpdates_live (sql : nat -> string + unit)
  (updates : list Ssh.PriceUpdate) (t : Ssh.Totals) :
  triple (liveT t) (Ssh.applyPriceUpdates sql updates t) (fun t' => liveT t') E.
Proof.
  unfold Ssh.applyPriceUpdates, liveT. destruct updates as [ | x xs].
  - apply triple_ret. auto.
  - eapply triple_bind; [apply sqlBatches_live | ].
    intros [n failed]. cbn [fst snd]. destruct failed as [reason | ].
    + eapply triple_bind; [apply live_log | intros []].
      apply triple_ret. auto.
    + apply triple_ret. auto.
Qed.

Lemma createStep_live (wp : nat -> string + string) (k : nat)
  (p : Ssh.NewProduct) (l : Ssh.Loop) :
  triple (liveT (Ssh.totals l)) (Ssh.createStep wp k p l)
    (fun l' => liveT (Ssh.totals l')) E.
Proof.
  unfold Ssh.createStep, liveT.
  eapply triple_bind; [apply live_await | intros []].
  eapply triple_bind with (R := fun l' => liveT (Ssh.totals l')).
  - destruct (wp k) as [reason | result].
    + apply triple_ret. auto.
    + destruct (negb (String.eqb (trim result) "SKIP")).
      * eapply triple_bind with
          (R := fun _ => live (S (Ssh.totalCreated (Ssh.totals l)))
                              (Ssh.totalUpdated (Ssh.totals l)));
          [ | intros []; apply triple_ret; intros w H; exact H].
        apply live_updateProgress. live_fields.
      * apply triple_ret. auto.
  - intros l'. eapply triple_bind with (R := fun _ => liveT (Ssh.totals l')).
    + apply triple_when; [intros _; apply live_await | auto].
    + intros []. apply triple_ret. auto.
Qed.

Lemma applyCreates_live (wp : nat -> string + string) (pricesOnly : bool)
  (new : list Ssh.NewProduct) (l : Ssh.Loop) :
  triple (liveT (Ssh.totals l)) (Ssh.applyCreates wp pricesOnly new l)
    (fun l' => liveT (Ssh.totals l')) E.
Proof.
  unfold Ssh.applyCreates.
  destruct (negb (Nat.eqb (length new) 0) && negb pricesOnly).
  - apply (triple_forIndexed (Ssh.createStep wp)
             (fun _ l' => liveT (Ssh.totals l')) E new 0).
    intros k x s _. apply createStep_live.
  - apply triple_ret. auto.
Qed.

Lemma syncSingles_live sql wp pricesOnly trm nGroups setName abbrev i
  (singles : list RawRow) (l : Ssh.Loop) :
  triple (liveT (Ssh.totals l))
    (Ssh.syncSingles sql wp pricesOnly trm nGroups setName abbrev i singles l)
    (fun l' => liveT (Ssh.totals l')) E.
Proof.
  unfold Ssh.syncSingles. destruct singles as [ | row rows].
  - apply triple_ret. auto.
  - eapply triple_bind with (R := fun t' => liveT t').
    + eapply triple_conseq;
        [apply applyPriceUpdates_live | intros w H; exact H | auto | auto].
    + intros t2. eapply triple_bind with (R := fun l' => liveT (Ssh.totals l')).
      * eapply triple_conseq;
          [apply applyCreates_live | intros w H; exact H | auto | auto].
      * intros l2. eapply triple_bind with (R := fun _ => liveT (Ssh.totals l2)).
        -- apply triple_when; [intros _; apply live_log | auto].
        -- intros []. apply triple_ret. auto.
Qed.

Lemma processGroup_live env pricesOnly trm nGroups groupsMap abbrevMap i group
  (l : Ssh.Loop) :
  triple (liveT (Ssh.totals l))
    (Ssh.processGroup env pricesOnly trm nGroups groupsMap abbrevMap i group l)
    (fun l' => liveT (Ssh.totals l')) E.
Proof.
  unfold Ssh.processGroup.
  eapply triple_bind with (R := fun _ => liveT (Ssh.totals l)).
  - apply live_updateProgress. live_fields.
  - intros []. eapply triple_bind; [apply live_await | intros []].
    destruct (Ssh.setCsv env i) as [reason | products].
    + apply triple_ret. auto.
    + apply syncSingles_live.
Qed.

(** At the end of the group loop the run state carries the created and
    updated totals, and still no skipped row and no error. *)
Lemma syncGroups_live env pricesOnly trm groups existing :
  triple (live 0 0) (Ssh.syncGroups env pricesOnly trm groups existing)
    (fun l => liveT (Ssh.totals l)) E.
Proof.
  unfold Ssh.syncGroups.
  pose proof (triple_forIndexed
                (Ssh.processGroup env pricesOnly trm (length groups)
                   (groupsMapOf groups) (abbrevMapOf groups))
                (fun _ l' => liveT (Ssh.totals l')) E groups 0) as H.
  eapply triple_conseq; [apply H | intros w Hw; exact Hw | auto | auto].
  intros k x s _. apply processGroup_live.
Qed.

End SshLiveRun.

Section SshLiveWholeRun.

Lemma live_after_await (c u : nat) (w : World) :
  live c u w -> live c u (snd (await w)).
Proof. intros H. exact (live_await never c u w H). Qed.

Lemma getTRM_live (E : string -> World -> Prop) (c u cap : nat) (resp : TrmResponse) :
  triple (live c u) (getTRM cap resp) (fun _ => live c u) E.
Proof.
  unfold getTRM.
  apply triple_tryCatch with (E' := fun _ => live c u).
  - eapply triple_bind with (R := fun _ => live c u).
    + apply triple_awaitCall. intros w H.
      destruct (fetchOutcome resp); now apply live_after_await.
    + intros []. eapply triple_bind with (R := fun _ => live c u).
      * apply triple_awaitCall. intros w H.
        destruct (jsonOutcome resp); now apply live_after_await.
      * intros data. destruct (first data) as [r | x].
        -- apply triple_throw. auto.
        -- destruct (valor x) as [r | [v | ]];
             [apply triple_throw | apply triple_ret | apply triple_ret]; auto.
  - intros r. eapply triple_bind with (R := fun _ => live c u).
    + apply live_log.
    + intros []. apply triple_ret. auto.
Qed.

Ltac live_seq :=
  eapply triple_bind with (R := fun _ => live 0 0);
  [ first [ apply live_log | apply live_updateProgress; live_fields ]
  | intros [] ].

Lemma runSSHSync_live (env : Ssh.Env) (mode : string) :
  triple (live 0 0) (Ssh.runSSHSync env mode) publishes (fun _ => live 0 0).
Proof.
  unfold Ssh.runSSHSync.
  do 4 live_seq.
  eapply triple_bind with (R := fun _ => live 0 0).
  { apply triple_awaitCall. intros w H.
    destruct (Ssh.groupsCsv env); now apply live_after_await. }
  intros groups. do 2 live_seq.
  eapply triple_bind with (R := fun _ => live 0 0); [apply getTRM_live | ].
  intros trm. do 3 live_seq.
  eapply triple_bind with (R := fun _ => live 0 0).
  { apply triple_awaitCall. intros w H.
    destruct (Ssh.existingRaw env); now apply live_after_await. }
  intros raw. do 3 live_seq.
  eapply triple_bind; [apply syncGroups_live | ].
  intros l [st clk evs] (Hc & Hu & Hs & He & Hev).
  unfold publishes. destruct st; simpl in *. auto.
Qed.

(** Whatever happened before, when [runSSHSync] returns the four counters
    of the run state hold the totals it returns. *)
Lemma runSSHSync_state (env : Ssh.Env) (mode : string) :
  triple (fun _ => True) (Ssh.runSSHSync env mode)
    (fun t w =>
       created (syncState w) = Ssh.totalCreated t
       /\ updated (syncState w) = Ssh.totalUpdated t
       /\ skipped (syncState w) = Ssh.totalSkipped t
       /\ errors (syncState w) = Ssh.totalErrors t)
    (fun _ _ => True).
Proof.
  unfold Ssh.runSSHSync.
  do 15 (eapply triple_bind with (R := fun _ _ => True);
         [apply triple_any | intros ?]).
  eapply triple_bind with (R := fun _ _ => True); [apply triple_any | intros l].
  intros [st clk evs] _. destruct st; simpl. auto.
Qed.

End SshLiveWholeRun.

(** C10.  In the SSH server, whatever a run receives, every progress
    event it broadcasts and every run state it exposes at a suspension
    that shows the run in progress shows [skipped = 0] and [errors = 0].
    At the end of the group loop the run state carries the created and
    updated totals, and still zero for the other two; these get their
    totals when [runSSHSync] returns.  [GET /api/status] answers with the
    run state as it is. *)
Theorem skipped_errors_hidden (env : Ssh.Env) (mode method : string) :
  (forall st0 t0,
      Forall hidesSkips
        (events (snd (Ssh.runSync env mode method
                        {| syncState := st0; clock := t0; events := [] |}))))
  /\ (forall pricesOnly trm groups existing w,
         live 0 0 w ->
         exists l w',
           Ssh.syncGroups env pricesOnly trm groups existing w = (Ok l, w')
           /\ created (syncState w') = Ssh.totalCreated (Ssh.totals l)
           /\ updated (syncState w') = Ssh.totalUpdated (Ssh.totals l)
           /\ skipped (syncState w') = 0
           /\ errors (syncState w') = 0)
  /\ (forall w t w',
         Ssh.runSSHSync env mode w = (Ok t, w') ->
         created (syncState w') = Ssh.totalCreated t
         /\ updated (syncState w') = Ssh.totalUpdated t
         /\ skipped (syncState w') = Ssh.totalSkipped t
         /\ errors (syncState w') = Ssh.totalErrors t)
  /\ (forall w, Ssh.getStatus w = (Ok (Ssh.Json200 (syncState w)), w)).
Proof.
  split; [ | split; [ | split; [ | reflexivity] ] ].
  - intros st0 t0. unfold Ssh.runSync, bind at 1, getState.
    cbn [syncState]. destruct (running st0) eqn:Hrun.
    + simpl. constructor; [apply hidesSkips_log | constructor].
    + set (body := if String.eqb method "ssh" && strTruthy (Ssh.SSH_PASS env)
                   then Ssh.runSSHSync env mode else throw _).
      assert (Hbody : triple (live 0 0) body publishes (fun _ => live 0 0)).
      { unfold body. destruct (String.eqb method "ssh" && strTruthy (Ssh.SSH_PASS env)).
        - apply runSSHSync_live.
        - apply triple_throw. auto. }
      generalize dependent body. intros body Hbody.
      cbv beta iota delta [bind resetState modify now updateProgress getState emit
                             tryCatch fst snd syncState clock events].
      match goal with
      | |- context [body ?w1] =>
          assert (Hw1 : live 0 0 w1)
      end.
      { unfold live. simpl. repeat split.
        constructor; [ | constructor].
        apply hidesSkips_quiet. intros st [= <-]. auto. }
      match goal with
      | |- context [body ?w1] =>
          specialize (Hbody w1 Hw1); destruct (body w1) as [[t | reason] [st2 c2 e2]]
      end.
      * destruct Hbody as (Hev & _). simpl in Hev. destruct st2. simpl.
        apply Forall_app. split; [apply Forall_app; split; [exact Hev | ] | ].
        -- constructor; [ | constructor].
           apply hidesSkips_stopped. intros st [= <-]. reflexivity.
        -- constructor; [apply hidesSkips_log | constructor].
      * destruct Hbody as (_ & _ & _ & _ & Hev). simpl in Hev. destruct st2. simpl.
        apply Forall_app. split; [apply Forall_app; split; [exact Hev | ] | ].
        -- constructor; [apply hidesSkips_log | constructor].
        -- constructor; [ | constructor].
           apply hidesSkips_stopped. intros st [= <-]. reflexivity.
  - intros pricesOnly trm groups existing w Hw.
    pose proof (syncGroups_live never env pricesOnly trm groups existing w Hw) as H.
    destruct (Ssh.syncGroups env pricesOnly trm groups existing w)
      as [[l | reason] w']; [ | destruct H].
    exists l, w'. destruct H as (Hc & Hu & Hs & He & _). auto.
  - intros w t w' Hrun.
    pose proof (runSSHSync_state env mode w I) as H. rewrite Hrun in H.
    exact H.
Qed.

(** A run over two groups: row A is skipped, a product is created, the
    second download fails.  The run ends with one skipped row and one
    error in the run state, and a progress event of the run in progress
    showed one created product, no skipped row and no error. *)
Lemma skipped_errors_hidden_witness :
  let w' := snd (Ssh.runSync Sample.sshEnv2 "full" "ssh" Sample.world0) in
  Forall hidesSkips (events w')
  /\ created (syncState w') = 1 /\ skipped (syncState w') = 1
  /\ errors (syncState w') = 1
  /\ existsb (fun e =>
                match e with
                | EvProgress st =>
                    running st && Nat.eqb (created st) 1
                    && Nat.eqb (skipped st) 0 && Nat.eqb (errors st) 0
                | _ => false
                end) (events w') = true.
Proof.
  intros w'.
  destruct (skipped_errors_hidden Sample.sshEnv2 "full" "ssh") as (H & _).
  split; [exact (H initialState 0) | ].
  repeat split; vm_compute; reflexivity.
Defined.

(** ** A second run *)

Section SecondRun.

Lemma getTRM_value (cap : nat) (resp : TrmResponse) :
  yields (getTRM cap resp) (fun x => x = rateOf resp).
Proof.
  intros w _. unfold getTRM, rateOf, tryCatch, bind, awaitCall, await, throw, ret.
  destruct resp as [r | r | data]; simpl; try reflexivity.
  destruct (first data) as [r | x]; simpl; try reflexivity.
  destruct (valor x) as [r | [v | ]]; simpl; reflexivity.
Qed.

Lemma sellableTotal_S (env : Ssh.Env) (n : nat) :
  sellableTotal env (S n) = sellableTotal env n + sellableCount (Ssh.setCsv env n).
Proof.
  unfold sellableTotal. rewrite seq_S, sum_list_with_app. simpl. lia.
Qed.

Lemma decide_settled pricesOnly trm setName abbrev
  (existing : gmap string Ssh.Existing) (row : RawRow) (e : Ssh.Existing) :
  existing !! skuOfRow abbrev row = Some e ->
  Ssh.priceChanged (Ssh.price e) (Ssh.priceOf trm row) = false ->
  Ssh.decide pricesOnly trm setName abbrev existing row = Ssh.SKIP.
Proof. intros He Hp. unfold Ssh.decide. now rewrite He, Hp. Qed.

Lemma plan_all_skip pricesOnly trm setName abbrev existing (singles : list RawRow) :
  (forall row, In row singles ->
               Ssh.decide pricesOnly trm setName abbrev existing row = Ssh.SKIP) ->
  forall plan0,
    fold_left (Ssh.planRow pricesOnly trm setName abbrev existing) singles plan0
    = {| Ssh.priceUpdates := Ssh.priceUpdates plan0;
         Ssh.newProducts := Ssh.newProducts plan0;
         Ssh.planSkipped := Ssh.planSkipped plan0 + length singles |}.
Proof.
  induction singles as [ | row rows IH]; intros Hall plan0; simpl.
  - destruct plan0. simpl. f_equal. lia.
  - rewrite IH by (intros r Hr; apply Hall; now right).
    unfold Ssh.planRow. rewrite (Hall row) by now left. simpl. f_equal. lia.
Qed.

Lemma syncSingles_all_skip sql wp pricesOnly trm nGroups setName abbrev i
  (singles : list RawRow) (l : Ssh.Loop) :
  (forall row, In row singles ->
               Ssh.decide pricesOnly trm setName abbrev (Ssh.existingProducts l) row
               = Ssh.SKIP) ->
  yields (Ssh.syncSingles sql wp pricesOnly trm nGroups setName abbrev i singles l)
    (fun l' =>
       Ssh.existingProducts l' = Ssh.existingProducts l
       /\ Ssh.totalCreated (Ssh.totals l') = Ssh.totalCreated (Ssh.totals l)
       /\ Ssh.totalUpdated (Ssh.totals l') = Ssh.totalUpdated (Ssh.totals l)
       /\ Ssh.totalErrors (Ssh.totals l') = Ssh.totalErrors (Ssh.totals l)
       /\ Ssh.totalSkipped (Ssh.totals l')
          = Ssh.totalSkipped (Ssh.totals l) + length singles).
Proof.
  intros Hall. unfold Ssh.syncSingles. destruct singles as [ | row rows].
  - apply yields_ret. simpl. repeat split; lia.
  - unfold Ssh.planOf. rewrite (plan_all_skip _ _ _ _ _ _ Hall).
    cbn [Ssh.priceUpdates Ssh.newProducts Ssh.planSkipped].
    unfold Ssh.applyPriceUpdates, Ssh.applyCreates. cbn [length Nat.eqb negb andb].
    rewrite !bind_ret.
    eapply yields_bind;
      [apply yields_when; exact (yields_step _ _ (log_step Ssh.LOG_CAP _ _))
      | intros _ _].
    apply yields_ret. simpl. repeat split; lia.
Qed.

Lemma syncGroups_settled env pricesOnly trm groups existing :
  settled env trm groups existing ->
  yields (Ssh.syncGroups env pricesOnly trm groups existing)
    (fun l =>
       Ssh.existingProducts l = existing
       /\ Ssh.totalCreated (Ssh.totals l) = 0
       /\ Ssh.totalUpdated (Ssh.totals l) = 0
       /\ Ssh.totalSkipped (Ssh.totals l) = sellableTotal env (length groups)).
Proof.
  intros Hset. unfold Ssh.syncGroups.
  apply (yields_forIndexed _
           (fun k l =>
              Ssh.existingProducts l = existing
              /\ Ssh.totalCreated (Ssh.totals l) = 0
              /\ Ssh.totalUpdated (Ssh.totals l) = 0
              /\ Ssh.totalSkipped (Ssh.totals l) = sellableTotal env k)
           groups 0).
  - intros k group l Hk (Hex & Hc & Hu & Hs). simpl in *.
    rewrite sellableTotal_S. unfold Ssh.processGroup.
    eapply yields_bind;
      [exact (yields_step _ _ (updateProgress_step _)) | intros _ _].
    eapply yields_bind; [exact (yields_step _ _ await_step) | intros _ _].
    destruct (Ssh.setCsv env k) as [reason | products] eqn:Hfeed.
    + apply yields_ret. simpl. repeat split; auto; lia.
    + eapply yields_conseq.
      * apply syncSingles_all_skip. intros row Hrow. rewrite Hex.
        destruct (Hset k group products row Hk Hfeed Hrow) as (e & He & Hp).
        now apply decide_settled with (e := e).
      * intros l' (Hex' & Hc' & Hu' & _ & Hs'). simpl.
        repeat split; congruence.
  - simpl. repeat split; reflexivity.
Qed.

(** A listing that holds, for every sellable row, exactly the price the
    run computes (the price a first run wrote) is settled. *)
Lemma settled_of_written_prices env trm groups
  (existing : gmap string Ssh.Existing) :
  (forall i group products row,
      groups !! i = Some group ->
      Ssh.setCsv env i = inr products ->
      In row (singlesOf products) ->
      exists e,
        existing !! skuOfRow (abbrevOf (abbrevMapOf groups) (group !! "groupId")) row
        = Some e
        /\ Ssh.price e = Ssh.priceOf trm row) ->
  settled env trm groups existing.
Proof.
  intros H i group products row Hi Hfeed Hrow.
  destruct (H i group products row Hi Hfeed Hrow) as (e & He & Hp).
  exists e. split; [exact He | ].
  unfold Ssh.priceChanged. rewrite Hp. apply price_unchanged_refl.
Qed.

End SecondRun.

(** *** What a first run leaves in the snapshot *)

Section FirstRun.

Variables (env : Ssh.Env) (trm : number) (groups : list RawRow).
Variable existing0 : gmap string Ssh.Existing.

Hypothesis Hlisted :
  forall abbrev row e,
    inFeed env groups abbrev row ->
    existing0 !! skuOfRow abbrev row = Some e ->
    Ssh.priceChanged (Ssh.price e) (Ssh.priceOf trm row) = false.

Hypothesis Hkeys :
  forall abbrev row abbrev' row',
    inFeed env groups abbrev row -> inFeed env groups abbrev' row' ->
    skuOfRow abbrev row = skuOfRow abbrev' row' ->
    Ssh.priceChanged (Ssh.priceOf trm row') (Ssh.priceOf trm row) = false.

(** A row whose key is in a snapshot of registered entries is skipped. *)
Lemma decide_registered pricesOnly setName abbrev existing row e :
  registered env trm groups existing0 existing ->
  inFeed env groups abbrev row ->
  existing !! skuOfRow abbrev row = Some e ->
  Ssh.decide pricesOnly trm setName abbrev existing row = Ssh.SKIP.
Proof.
  intros Hreg Hrow He. apply decide_settled with (e := e); [exact He | ].
  destruct (Hreg _ _ He) as [H0 | (abbrev' & row' & Hrow' & Hk & Hp)].
  - now apply Hlisted with (abbrev := abbrev).
  - rewrite Hp. now apply Hkeys with (abbrev := abbrev) (abbrev' := abbrev').
Qed.

(** The plan of a group in full mode, from a snapshot of registered
    entries: no price update, and a creation for each row whose key is not
    in the snapshot. *)
Lemma plan_first_run setName abbrev existing (singles : list RawRow) :
  registered env trm groups existing0 existing ->
  (forall row, In row singles -> inFeed env groups abbrev row) ->
  forall plan0,
    let plan := fold_left (Ssh.planRow false trm setName abbrev existing) singles plan0 in
    Ssh.priceUpdates plan = Ssh.priceUpdates plan0
    /\ (forall p, In p (Ssh.newProducts plan) ->
                  In p (Ssh.newProducts plan0)
                  \/ exists row, In row singles /\ Ssh.n_sku p = skuOfRow abbrev row
                                 /\ Ssh.n_price p = Ssh.priceOf trm row)
    /\ (forall p, In p (Ssh.newProducts plan0) -> In p (Ssh.newProducts plan))
    /\ (forall row, In row singles ->
                    is_Some (existing !! skuOfRow abbrev row)
                    \/ exists p, In p (Ssh.newProducts plan)
                                 /\ Ssh.n_sku p = skuOfRow abbrev row).
Proof.
  intros Hreg. induction singles as [ | row rows IH]; intros Hfeed plan0; simpl.
  - split; [reflexivity | ]. split; [auto | ]. split; [auto | ]. intros row [].
  - assert (Hrow : inFeed env groups abbrev row) by (apply Hfeed; now left).
    assert (E : Ssh.priceUpdates (Ssh.planRow false trm setName abbrev existing plan0 row)
                = Ssh.priceUpdates plan0
                /\ ((exists e, existing !! skuOfRow abbrev row = Some e)
                     /\ Ssh.newProducts
                          (Ssh.planRow false trm setName abbrev existing plan0 row)
                        = Ssh.newProducts plan0
                    \/ exists p,
                         Ssh.n_sku p = skuOfRow abbrev row
                         /\ Ssh.n_price p = Ssh.priceOf trm row
                         /\ Ssh.newProducts
                              (Ssh.planRow false trm setName abbrev existing plan0 row)
                            = Ssh.newProducts plan0 ++ [p])).
    { unfold Ssh.planRow. destruct (existing !! skuOfRow abbrev row) as [e | ] eqn:He.
      - rewrite (decide_registered false setName abbrev existing row e Hreg Hrow He).
        simpl. split; [reflexivity | left; eauto].
      - unfold Ssh.decide. rewrite He. simpl. split; [reflexivity | ].
        right. eexists. split; [ | split; [ | reflexivity] ]; reflexivity. }
    destruct E as [E1 E2].
    destruct (IH (fun r Hr => Hfeed r (or_intror Hr))
                (Ssh.planRow false trm setName abbrev existing plan0 row))
      as (H1 & H2 & H3 & H4).
    split; [now rewrite H1 | ]. split; [ | split].
    + intros p Hp. destruct (H2 p Hp) as [H | (r & Hr & Hk)].
      * destruct E2 as [[_ E2] | (q & Hq1 & Hq2 & E2)]; rewrite E2 in H; [now left | ].
        apply in_app_or in H as [H | [<- | []]]; [now left | ].
        right. exists row. split; [now left | auto].
      * right. exists r. split; [now right | exact Hk].
    + intros p Hp. apply H3.
      destruct E2 as [[_ E2] | (q & _ & _ & E2)]; rewrite E2; [exact Hp | ].
      apply in_or_app. now left.
    + intros r [<- | Hr]; [ | now apply H4].
      destruct E2 as [[[e He] _] | (q & Hq1 & _ & E2)].
      * left. rewrite He. eauto.
      * right. exists q. split; [ | exact Hq1].
        apply H3. rewrite E2. apply in_or_app. right. now left.
Qed.

Lemma createStep_registers (wp : nat -> string + string) (k : nat)
  (p : Ssh.NewProduct) (l : Ssh.Loop) (r : string) :
  wp k = inr r -> String.eqb (trim r) "SKIP" = false ->
  yields (Ssh.createStep wp k p l)
    (fun l' =>
       Ssh.existingProducts l'
       = <[Ssh.n_sku p := {| Ssh.id := parseInt r; Ssh.price := Ssh.n_price p |}]>
           (Ssh.existingProducts l)
       /\ Ssh.totalUpdated (Ssh.totals l') = Ssh.totalUpdated (Ssh.totals l)).
Proof.
  intros Hr Hskip w _. unfold Ssh.createStep, bind, await, ret. rewrite Hr, Hskip.
  cbn. destruct (Nat.eqb _ 0); cbn; auto.
Qed.

Hypothesis Hwp :
  forall i k, exists r,
    Ssh.wpCreate env i k = inr r /\ String.eqb (trim r) "SKIP" = false.

(** The creations of a group: every new product is put in the snapshot at
    its price, and nothing is taken from the snapshot. *)
Lemma applyCreates_registers (i : nat) (new : list Ssh.NewProduct) (l : Ssh.Loop) :
  yields (Ssh.applyCreates (Ssh.wpCreate env i) false new l)
    (fun l' =>
       Ssh.totalUpdated (Ssh.totals l') = Ssh.totalUpdated (Ssh.totals l)
       /\ (forall key, is_Some (Ssh.existingProducts l !! key) ->
                       is_Some (Ssh.existingProducts l' !! key))
       /\ (forall key e,
              Ssh.existingProducts l' !! key = Some e ->
              Ssh.existingProducts l !! key = Some e
              \/ exists p, In p new /\ Ssh.n_sku p = key
                           /\ Ssh.price e = Ssh.n_price p)
       /\ (forall p, In p new -> is_Some (Ssh.existingProducts l' !! Ssh.n_sku p))).
Proof.
  unfold Ssh.applyCreates. destruct new as [ | p0 new0].
  { apply yields_ret. split; [reflexivity | ]. split; [auto | ]. split; [auto | ].
    intros p []. }
  set (new := p0 :: new0). cbn [length Nat.eqb negb andb].
  pose proof (yields_forIndexed (Ssh.createStep (Ssh.wpCreate env i))
                (fun k l' =>
                   Ssh.totalUpdated (Ssh.totals l') = Ssh.totalUpdated (Ssh.totals l)
                   /\ (forall key, is_Some (Ssh.existingProducts l !! key) ->
                                   is_Some (Ssh.existingProducts l' !! key))
                   /\ (forall key e,
                          Ssh.existingProducts l' !! key = Some e ->
                          Ssh.existingProducts l !! key = Some e
                          \/ exists p, In p new /\ Ssh.n_sku p = key
                                       /\ Ssh.price e = Ssh.n_price p)
                   /\ (forall j p, j < k -> new !! j = Some p ->
                                   is_Some (Ssh.existingProducts l' !! Ssh.n_sku p)))
                new 0) as H.
  eapply yields_conseq; [apply H | ].
  - intros k p l' Hk (Hu & Hmono & Horigin & Hdone). change (0 + k) with k in *.
    destruct (Hwp i k) as (r & Hr & Hskip).
    eapply yields_conseq; [apply (createStep_registers _ k p l' r Hr Hskip) | ].
    intros l'' [Hex Hu']. rewrite Hex. split; [congruence | ].
    split; [ | split].
    + intros key Hkey. destruct (decide (Ssh.n_sku p = key)) as [<- | Hne].
      * rewrite lookup_insert_eq. eauto.
      * rewrite lookup_insert_ne by exact Hne. now apply Hmono.
    + intros key e. destruct (decide (Ssh.n_sku p = key)) as [<- | Hne].
      * rewrite lookup_insert_eq. intros [= <-]. right. exists p.
        split; [ | split; reflexivity].
        apply list_elem_of_In. apply list_elem_of_lookup. eauto.
      * rewrite lookup_insert_ne by exact Hne. apply Horigin.
    + intros j q Hj Hq. destruct (decide (Ssh.n_sku p = Ssh.n_sku q)) as [E | Hne].
      * rewrite E, lookup_insert_eq. eauto.
      * rewrite lookup_insert_ne by exact Hne.
        destruct (decide (j = k)) as [-> | Hjk]; [congruence | ].
        apply (Hdone j q); [lia | exact Hq].
  - split; [reflexivity | ]. split; [auto | ]. split; [auto | ]. intros j p Hj. lia.
  - intros l' (Hu & Hmono & Horigin & Hdone). split; [exact Hu | ].
    split; [exact Hmono | ]. split; [exact Horigin | ].
    intros p Hp. apply list_elem_of_In, list_elem_of_lookup in Hp as [j Hj].
    apply (Hdone j p); [ | exact Hj]. simpl. apply lookup_lt_Some in Hj. exact Hj.
Qed.

(** What a group of a first run that only creates leaves: the snapshot has
    lost no key, holds registered entries, and holds the key of every
    sellable row of the group; nothing was updated. *)
Lemma syncSingles_registers (i nGroups : nat) (setName abbrev : maybe string)
  (singles : list RawRow) (l : Ssh.Loop) :
  registered env trm groups existing0 (Ssh.existingProducts l) ->
  (forall row, In row singles -> inFeed env groups abbrev row) ->
  yields (Ssh.syncSingles (Ssh.sqlBatch env i) (Ssh.wpCreate env i) false trm nGroups
            setName abbrev i singles l)
    (fun l' =>
       Ssh.totalUpdated (Ssh.totals l') = Ssh.totalUpdated (Ssh.totals l)
       /\ (forall key, is_Some (Ssh.existingProducts l !! key) ->
                       is_Some (Ssh.existingProducts l' !! key))
       /\ registered env trm groups existing0 (Ssh.existingProducts l')
       /\ (forall row, In row singles ->
                       is_Some (Ssh.existingProducts l' !! skuOfRow abbrev row))).
Proof.
  intros Hreg Hfeed. unfold Ssh.syncSingles. destruct singles as [ | row0 rows0].
  { apply yields_ret. split; [reflexivity | ]. split; [auto | ]. split; [exact Hreg | ].
    intros row []. }
  set (singles := row0 :: rows0) in *. unfold Ssh.planOf.
  destruct (plan_first_run setName abbrev (Ssh.existingProducts l) singles Hreg Hfeed
              {| Ssh.priceUpdates := []; Ssh.newProducts := [];
                 Ssh.planSkipped := Ssh.totalSkipped (Ssh.totals l) |})
    as (Hup & Hnew & _ & Hrows).
  cbv zeta in Hup, Hnew, Hrows. cbn [Ssh.priceUpdates Ssh.newProducts] in Hup, Hnew.
  cbv zeta. rewrite Hup. cbn [Ssh.applyPriceUpdates]. rewrite bind_ret.
  eapply yields_bind; [apply applyCreates_registers | ].
  intros l2 (Hu & Hmono & Horigin & Hdone). cbn [Ssh.totals Ssh.existingProducts] in *.
  eapply yields_bind;
    [apply yields_when; exact (yields_step _ _ (log_step Ssh.LOG_CAP _ _)) | intros _ _].
  apply yields_ret. split; [exact Hu | ]. split; [exact Hmono | ]. split.
  - intros key e He. destruct (Horigin key e He) as [H | (p & Hp & Hk & Hpr)].
    + now apply Hreg.
    + destruct (Hnew p Hp) as [[] | (row & Hrow & Hsku & Hprice)].
      right. exists abbrev, row. split; [now apply Hfeed | ]. split; congruence.
  - intros row Hrow. destruct (Hrows row Hrow) as [H | (p & Hp & Hk)].
    + now apply Hmono.
    + rewrite <- Hk. now apply Hdone.
Qed.

Lemma syncGroups_registers :
  registered env trm groups existing0 existing0 ->
  yields (Ssh.syncGroups env false trm groups existing0)
    (fun l =>
       Ssh.totalUpdated (Ssh.totals l) = 0
       /\ registered env trm groups existing0 (Ssh.existingProducts l)
       /\ forall abbrev row,
            inFeed env groups abbrev row ->
            is_Some (Ssh.existingProducts l !! skuOfRow abbrev row)).
Proof.
  intros Hreg0. unfold Ssh.syncGroups.
  pose proof (yields_forIndexed
                (Ssh.processGroup env false trm (length groups) (groupsMapOf groups)
                   (abbrevMapOf groups))
                (fun k l =>
                   Ssh.totalUpdated (Ssh.totals l) = 0
                   /\ registered env trm groups existing0 (Ssh.existingProducts l)
                   /\ forall i group products row,
                        i < k -> groups !! i = Some group ->
                        Ssh.setCsv env i = inr products ->
                        In row (singlesOf products) ->
                        is_Some (Ssh.existingProducts l
                                   !! skuOfRow (abbrevOf (abbrevMapOf groups)
                                                  (group !! "groupId")) row))
                groups 0) as H.
  eapply yields_conseq; [apply H | ].
  - intros k group l Hk (Hu & Hreg & Hdone). change (0 + k) with k in *.
    unfold Ssh.processGroup.
    eapply yields_bind;
      [exact (yields_step _ _ (updateProgress_step _)) | intros _ _].
    eapply yields_bind; [exact (yields_step _ _ await_step) | intros _ _].
    destruct (Ssh.setCsv env k) as [reason | products] eqn:Hfeed.
    + apply yields_ret. simpl. split; [exact Hu | ]. split; [exact Hreg | ].
      intros i g ps row Hi Hg Hps Hrow.
      destruct (decide (i = k)) as [-> | Hne]; [congruence | ].
      apply (Hdone i g ps row); auto. lia.
    + eapply yields_conseq.
      * apply syncSingles_registers; [exact Hreg | ].
        intros row Hrow. exists k, group, products. auto.
      * intros l' (Hu' & Hmono & Hreg' & Hrows). split; [congruence | ].
        split; [exact Hreg' | ].
        intros i g ps row Hi Hg Hps Hrow.
        destruct (decide (i = k)) as [-> | Hne].
        -- assert (g = group) by congruence. subst g.
           assert (ps = products) by congruence. subst ps. now apply Hrows.
        -- apply Hmono. apply (Hdone i g ps row); auto. lia.
  - simpl. split; [reflexivity | ]. split; [exact Hreg0 | ]. intros. lia.
  - intros l (Hu & Hreg & Hdone). split; [exact Hu | ]. split; [exact Hreg | ].
    intros abbrev row (i & group & products & Hi & Hfeed & Hrow & ->).
    apply (Hdone i group products row); auto.
    simpl. apply lookup_lt_Some in Hi. exact Hi.
Qed.

(** The snapshot that such a first run leaves is settled. *)
Lemma first_run_settles :
  yields (Ssh.syncGroups env false trm groups existing0)
    (fun l =>
       Ssh.totalUpdated (Ssh.totals l) = 0
       /\ settled env trm groups (Ssh.existingProducts l)).
Proof.
  eapply yields_conseq; [apply syncGroups_registers | ].
  - intros key e He. now left.
  - intros l (Hu & Hreg & Hdone). split; [exact Hu | ].
    intros i group products row Hi Hfeed Hrow.
    assert (Hin : inFeed env groups
                    (abbrevOf (abbrevMapOf groups) (group !! "groupId")) row).
    { exists i, group, products. auto. }
    destruct (Hdone _ _ Hin) as [e He]. exists e. split; [exact He | ].
    destruct (Hreg _ _ He) as [H0 | (abbrev' & row' & Hrow' & Hk & Hp)].
    + now apply Hlisted with (abbrev := abbrevOf (abbrevMapOf groups) (group !! "groupId")).
    + rewrite Hp.
      now apply Hkeys with (abbrev := abbrevOf (abbrevMapOf groups) (group !! "groupId"))
                           (abbrev' := abbrev').
Qed.

End FirstRun.

Lemma runSSHSync_settled (env : Ssh.Env) (mode : string) (groups : list RawRow)
  (raw : string) :
  Ssh.groupsCsv env = inr groups ->
  Ssh.existingRaw env = inr raw ->
  settled env (rateOf (Ssh.trmResponse env)) groups (Ssh.loadExisting raw) ->
  yields (Ssh.runSSHSync env mode)
    (fun t => Ssh.totalCreated t = 0 /\ Ssh.totalUpdated t = 0
              /\ Ssh.totalSkipped t = sellableTotal env (length groups)).
Proof.
  intros Hgroups Hraw Hset.
  unfold Ssh.runSSHSync. rewrite Hgroups, Hraw.
  eapply yields_bind; [exact (yields_step _ _ (log_step Ssh.LOG_CAP _ _)) | intros _ _].
  eapply yields_bind; [exact (yields_step _ _ (updateProgress_step _)) | intros _ _].
  eapply yields_bind; [exact (yields_step _ _ (updateProgress_step _)) | intros _ _].
  eapply yields_bind; [exact (yields_step _ _ (log_step Ssh.LOG_CAP _ _)) | intros _ _].
  eapply yields_bind with (R := fun gs => gs = groups).
  { intros w0 _. reflexivity. }
  intros gs ->.
  eapply yields_bind; [exact (yields_step _ _ (log_step Ssh.LOG_CAP _ _)) | intros _ _].
  eapply yields_bind; [exact (yields_step _ _ (updateProgress_step _)) | intros _ _].
  eapply yields_bind; [apply getTRM_value | intros trm ->].
  eapply yields_bind; [exact (yields_step _ _ (log_step Ssh.LOG_CAP _ _)) | intros _ _].
  eapply yields_bind; [exact (yields_step _ _ (updateProgress_step _)) | intros _ _].
  eapply yields_bind; [exact (yields_step _ _ (log_step Ssh.LOG_CAP _ _)) | intros _ _].
  eapply yields_bind with (R := fun r => r = raw).
  { intros w0 _. reflexivity. }
  intros r ->.
  eapply yields_bind; [exact (yields_step _ _ (log_step Ssh.LOG_CAP _ _)) | intros _ _].
  eapply yields_bind; [exact (yields_step _ _ (updateProgress_step _)) | intros _ _].
  eapply yields_bind; [exact (yields_step _ _ (log_step Ssh.LOG_CAP _ _)) | intros _ _].
  eapply yields_bind; [apply (syncGroups_settled _ _ _ _ _ Hset) | ].
  intros l (_ & Hc & Hu & Hs).
  intros w0 _. simpl. auto.
Qed.




(** * More of the servers *)

(** ** Slugs and titles *)

Section SlugFacts.

Lemma slugChar_not_space (c : ascii) : slugChar c = true -> isSpace c = false.
Proof. destruct c as [[] [] [] [] [] [] [] []]; vm_compute; congruence. Qed.

Lemma slugChar_lower (c : ascii) : slugChar c = true -> lowerChar c = c.
Proof. destruct c as [[] [] [] [] [] [] [] []]; vm_compute; congruence. Qed.

Lemma slugChar_keep (c : ascii) : slugChar c = true -> slugKeep c = true.
Proof. destruct c as [[] [] [] [] [] [] [] []]; vm_compute; congruence. Qed.

Lemma slugKeep_split (c : ascii) :
  slugKeep c = true -> isSpace c = false -> slugChar c = true.
Proof. destruct c as [[] [] [] [] [] [] [] []]; vm_compute; congruence. Qed.

Lemma allChars_filterChars (p : ascii -> bool) (s : string) :
  allChars p (filterChars p s) = true.
Proof.
  induction s as [ | c t IH]; [reflexivity | ]. simpl.
  destruct (p c) eqn:E; [simpl; now rewrite E | exact IH].
Qed.

Lemma slug_runs (s : string) :
  allChars slugKeep s = true ->
  forall inRun, allChars slugChar (replaceSpaceRuns "-" inRun s) = true.
Proof.
  induction s as [ | c t IH]; [reflexivity | ]. simpl.
  intros H inRun. apply andb_prop in H as [Hc Ht].
  destruct (isSpace c) eqn:Es.
  - destruct inRun; [now apply IH | ].
    rewrite append_cons. simpl. now apply IH.
  - simpl. rewrite (slugKeep_split c Hc Es). now apply IH.
Qed.

Lemma toLowerCase_slug (s : string) : allChars slugChar s = true -> toLowerCase s = s.
Proof.
  induction s as [ | c t IH]; [reflexivity | ]. simpl.
  intros H. apply andb_prop in H as [Hc Ht].
  now rewrite (slugChar_lower c Hc), IH.
Qed.

Lemma filterChars_slug (s : string) :
  allChars slugChar s = true -> filterChars slugKeep s = s.
Proof.
  induction s as [ | c t IH]; [reflexivity | ]. simpl.
  intros H. apply andb_prop in H as [Hc Ht].
  now rewrite (slugChar_keep c Hc), IH.
Qed.

Lemma trimEnd_no_space (s : string) :
  allChars (fun c => negb (isSpace c)) s = true -> trimEnd s = s.
Proof.
  induction s as [ | c t IH]; [reflexivity | ]. simpl.
  intros H. apply andb_prop in H as [Hc Ht]. rewrite (IH Ht).
  destruct t; [ | reflexivity].
  apply negb_true_iff in Hc. now rewrite Hc.
Qed.

Lemma trim_no_space (s : string) :
  allChars (fun c => negb (isSpace c)) s = true -> trim s = s.
Proof.
  intros H. unfold trim.
  assert (E : trimStart s = s).
  { destruct s as [ | c t]; [reflexivity | ]. simpl in *.
    apply andb_prop in H as [Hc _]. apply negb_true_iff in Hc. now rewrite Hc. }
  rewrite E. now apply trimEnd_no_space.
Qed.

Lemma runs_no_space (rep : string) (s : string) :
  allChars (fun c => negb (isSpace c)) s = true ->
  forall inRun, replaceSpaceRuns rep inRun s = s.
Proof.
  induction s as [ | c t IH]; [reflexivity | ]. simpl.
  intros H inRun. apply andb_prop in H as [Hc Ht].
  apply negb_true_iff in Hc. rewrite Hc. now rewrite IH.
Qed.

Lemma allChars_impl (p q : ascii -> bool) (s : string) :
  (forall c, p c = true -> q c = true) -> allChars p s = true -> allChars q s = true.
Proof.
  intros Hpq. induction s as [ | c t IH]; [reflexivity | ]. simpl.
  intros H. apply andb_prop in H as [Hc Ht]. now rewrite (Hpq c Hc), IH.
Qed.

Lemma slug_no_space (s : string) :
  allChars slugChar s = true -> allChars (fun c => negb (isSpace c)) s = true.
Proof.
  apply allChars_impl. intros c H. now rewrite (slugChar_not_space c H).
Qed.

Lemma slugify_alphabet (text : string) : allChars slugChar (slugify text) = true.
Proof.
  unfold slugify. destruct text as [ | c t]; [reflexivity | ].
  apply slug_runs. apply allChars_filterChars.
Qed.

Lemma slugify_fixed (s : string) : allChars slugChar s = true -> slugify s = s.
Proof.
  intros H. unfold slugify. destruct s as [ | c t]; [reflexivity | ].
  rewrite (toLowerCase_slug _ H), (trim_no_space _ (slug_no_space _ H)),
    (filterChars_slug _ H).
  apply runs_no_space. now apply slug_no_space.
Qed.

End SlugFacts.

(** X1. A slug is made of lower-case letters, digits and hyphens only, and
    the slug of a slug is the slug itself. *)
Theorem slugify_normal_form (text : string) :
  allChars slugChar (slugify text) = true
  /\ slugify (slugify text) = slugify text.
Proof.
  split; [apply slugify_alphabet | ].
  apply slugify_fixed, slugify_alphabet.
Qed.

(** X2. The printing segment of an external key is never empty and is
    made of lower-case letters, digits and hyphens; a printing label that is
    missing or empty gives [normal]; a label whose slug is empty gives
    [base]. *)
Theorem subTypeOf_segment :
  (forall v : maybe string,
     subTypeOf v <> EmptyString /\ allChars slugChar (subTypeOf v) = true)
  /\ (forall v : maybe string, strTruthy v = false -> subTypeOf v = "normal")
  /\ (forall s : string, s <> EmptyString -> slugify s = EmptyString ->
                         subTypeOf (Some s) = "base").
Proof.
  split; [ | split].
  - intros v. unfold subTypeOf.
    pose proof (slugify_alphabet (render (strOr v (Some "normal")))) as H.
    destruct (slugify (render (strOr v (Some "normal")))) as [ | c t].
    + split; [discriminate | reflexivity].
    + split; [discriminate | exact H].
  - intros [[ | c t] | ]; simpl; try discriminate; reflexivity.
  - intros s Hs E. unfold subTypeOf.
    destruct s as [ | c t]; [congruence | ]. simpl strOr. simpl render.
    now rewrite E.
Qed.

Section TitleFacts.

Lemma runs_singleSpaced (s : string) :
  forall inRun, singleSpaced inRun (replaceSpaceRuns " " inRun s) = true.
Proof.
  induction s as [ | c t IH]; [reflexivity | ]. intros inRun. simpl.
  destruct (isSpace c) eqn:Es.
  - destruct inRun; [apply IH | ].
    rewrite append_cons. simpl. apply IH.
  - simpl. rewrite Es. apply IH.
Qed.

Lemma singleSpaced_fixed (s : string) :
  forall prev, singleSpaced prev s = true -> replaceSpaceRuns " " prev s = s.
Proof.
  induction s as [ | c t IH]; [reflexivity | ]. intros prev. simpl.
  destruct (isSpace c) eqn:Es.
  - intros H. apply andb_prop in H as [H Ht]. apply andb_prop in H as [Hc Hp].
    apply negb_true_iff in Hp. subst prev.
    apply Ascii.eqb_eq in Hc. subst c.
    rewrite append_cons. simpl. now rewrite IH.
  - intros H. now rewrite IH.
Qed.

Lemma trimStart_singleSpaced (s : string) :
  forall prev, singleSpaced prev s = true -> singleSpaced true (trimStart s) = true.
Proof.
  induction s as [ | c t IH]; [reflexivity | ]. intros prev. simpl.
  destruct (isSpace c) eqn:Es.
  - intros H. apply andb_prop in H as [_ Ht]. now apply (IH true).
  - intros H. simpl. now rewrite Es.
Qed.

Lemma trimEnd_singleSpaced (s : string) :
  forall prev, singleSpaced prev s = true -> singleSpaced prev (trimEnd s) = true.
Proof.
  induction s as [ | c t IH]; [reflexivity | ]. intros prev. simpl.
  destruct (isSpace c) eqn:Es.
  - intros H. apply andb_prop in H as [Hc Ht].
    specialize (IH true Ht).
    destruct (trimEnd t) as [ | d u]; [reflexivity | ].
    cbn [singleSpaced]. rewrite Es, Hc. exact IH.
  - intros H. specialize (IH false H).
    destruct (trimEnd t) as [ | d u]; [simpl; now rewrite Es | ].
    cbn [singleSpaced]. rewrite Es. exact IH.
Qed.

Lemma trimEnd_idem (s : string) : trimEnd (trimEnd s) = trimEnd s.
Proof.
  induction s as [ | c t IH]; [reflexivity | ]. simpl.
  destruct (trimEnd t) as [ | d u] eqn:E.
  - destruct (isSpace c) eqn:Es; [reflexivity | ]. simpl. now rewrite Es.
  - change (trimEnd (String c (String d u)))
      with (match trimEnd (String d u) with
            | EmptyString => if isSpace c then EmptyString else String c EmptyString
            | String d' u' => String c (String d' u')
            end).
    now rewrite IH.
Qed.

Lemma trimStart_idem (s : string) : trimStart (trimStart s) = trimStart s.
Proof.
  induction s as [ | c t IH]; [reflexivity | ]. simpl.
  destruct (isSpace c) eqn:Es; [exact IH | ]. simpl. now rewrite Es.
Qed.

(** [trimEnd] keeps a first character that is not white space. *)
Lemma trimStart_trimEnd (s : string) :
  trimStart s = s -> trimStart (trimEnd s) = trimEnd s.
Proof.
  destruct s as [ | c t]; [reflexivity | ]. simpl.
  destruct (isSpace c) eqn:Es.
  - intros H. exfalso.
    assert (L : String.length (trimStart t) <= String.length t).
    { clear. induction t as [ | d u IH]; simpl; [lia | ].
      destruct (isSpace d); simpl; lia. }
    rewrite H in L. simpl in L. lia.
  - intros _. destruct (trimEnd t) as [ | d u]; simpl; now rewrite Es.
Qed.

Lemma trim_idem (s : string) : trim (trim s) = trim s.
Proof.
  unfold trim.
  rewrite (trimStart_trimEnd (trimStart s) (trimStart_idem s)).
  apply trimEnd_idem.
Qed.

Lemma singleSpaced_weaken (s : string) :
  singleSpaced true s = true -> singleSpaced false s = true.
Proof.
  destruct s as [ | c t]; [reflexivity | ]. simpl.
  destruct (isSpace c); [ | auto].
  intros H. apply andb_prop in H as [H _]. apply andb_prop in H as [_ H].
  discriminate H.
Qed.

End TitleFacts.

(** X3. The title of a product has no white space at either end and no
    white space but single plain spaces: trimming it, or replacing its runs
    of white space by one space, changes nothing. *)
Theorem title_is_normalised (setName : maybe string) (row : RawRow) :
  trim (titleOf setName row) = titleOf setName row
  /\ replaceSpaceRuns " " false (titleOf setName row) = titleOf setName row
  /\ singleSpaced true (titleOf setName row) = true.
Proof.
  unfold titleOf.
  match goal with
  | |- context [replaceSpaceRuns " " false ?t] => generalize t; intros t3
  end.
  assert (H : singleSpaced true (trim (replaceSpaceRuns " " false t3)) = true).
  { unfold trim. apply trimEnd_singleSpaced.
    apply (trimStart_singleSpaced _ false). apply runs_singleSpaced. }
  split; [apply trim_idem | ].
  split; [ | exact H].
  apply singleSpaced_fixed. now apply singleSpaced_weaken.
Qed.
(** ** The log and the batches *)

Section LogFacts.

Lemma pushLog_length (cap : nat) (e : LogEntry) (l : list LogEntry) :
  length l <= cap -> length (pushLog cap e l) <= cap.
Proof.
  intros H. unfold pushLog. rewrite length_app. simpl.
  destruct (Nat.ltb_spec cap (length l + 1)) as [Hlt | Hge]; [ | rewrite length_app; simpl; lia].
  destruct l as [ | x t]; simpl in *; [lia | ]. rewrite length_app. simpl. lia.
Qed.

Lemma last_pushLog (cap : nat) (e : LogEntry) (l : list LogEntry) :
  0 < cap -> last (pushLog cap e l) = Some e.
Proof.
  intros Hcap. unfold pushLog.
  destruct (Nat.ltb_spec cap (length (l ++ [e]))) as [Hlt | Hge]; [ | apply last_snoc].
  destruct l as [ | x t]; simpl in *; [lia | apply last_snoc].
Qed.

End LogFacts.

(** X5. A log within its capacity stays within it when a line is added:
    the result is the old log followed by the new line, without the oldest
    line when there would be more lines than the capacity; with a capacity
    that is not zero, the new line is the last one. *)
Theorem pushLog_keeps_newest (cap : nat) (e : LogEntry) (l : list LogEntry) :
  length l <= cap ->
  length (pushLog cap e l) <= cap
  /\ pushLog cap e l = drop (length l + 1 - cap) (l ++ [e])
  /\ (0 < cap -> last (pushLog cap e l) = Some e).
Proof.
  intros H. split; [now apply pushLog_length | ].
  unfold pushLog. rewrite length_app. simpl.
  destruct (Nat.ltb_spec cap (length l + 1)) as [Hlt | Hge].
  - replace (length l + 1 - cap) with 1 by lia.
    split; [now destruct (l ++ [e]) | ].
    intros Hcap. destruct l as [ | x t]; simpl in *; [lia | ].
    apply last_snoc.
  - replace (length l + 1 - cap) with 0 by lia.
    split; [reflexivity | intros _; apply last_snoc].
Qed.

Lemma pushLog_keeps_newest_witness :
  length [{| timestamp := 1; msg := MsgAlreadyRunning; type := warn |};
          {| timestamp := 2; msg := MsgAlreadyRunning; type := warn |}] <= 2
  /\ pushLog 2 {| timestamp := 3; msg := MsgStopRequested; type := warn |}
       [{| timestamp := 1; msg := MsgAlreadyRunning; type := warn |};
        {| timestamp := 2; msg := MsgAlreadyRunning; type := warn |}]
     = [{| timestamp := 2; msg := MsgAlreadyRunning; type := warn |};
        {| timestamp := 3; msg := MsgStopRequested; type := warn |}]
  /\ last (pushLog 2 {| timestamp := 3; msg := MsgStopRequested; type := warn |}
             [{| timestamp := 1; msg := MsgAlreadyRunning; type := warn |};
              {| timestamp := 2; msg := MsgAlreadyRunning; type := warn |}])
     = Some {| timestamp := 3; msg := MsgStopRequested; type := warn |}.
Proof.
  split; [simpl; lia | ].
  destruct (pushLog_keeps_newest 2
              {| timestamp := 3; msg := MsgStopRequested; type := warn |}
              [{| timestamp := 1; msg := MsgAlreadyRunning; type := warn |};
               {| timestamp := 2; msg := MsgAlreadyRunning; type := warn |}])
    as (_ & H2 & H3); [simpl; lia | ].
  split; [exact H2 | apply H3; lia].
Defined.

Section ChunkFacts.
Context {A : Type}.

Lemma chunksAux_lookup (size : nat) :
  0 < size ->
  forall fuel (l : list A) k b,
    length l <= fuel ->
    chunksAux fuel size l !! k = Some b ->
    b = take size (drop (k * size) l) /\ k * size < length l.
Proof.
  intros Hsize. induction fuel as [ | fuel IH]; intros l k b Hlen.
  - destruct l; discriminate.
  - destruct l as [ | x t]; [discriminate | ].
    cbn [chunksAux]. destruct k as [ | k].
    + intros [= <-]. simpl. split; [reflexivity | lia].
    + cbn [lookup list_lookup]. intros Hk.
      apply IH in Hk; [ | rewrite length_drop; simpl in *; lia].
      destruct Hk as [-> Hk]. rewrite length_drop in Hk.
      rewrite drop_drop. replace (size + k * size) with (S k * size) by lia.
      split; [reflexivity | lia].
Qed.

End ChunkFacts.

(** X4. With a size that is not zero, the batches are the consecutive
    slices of the list: end to end they give the list back, batch [k] is
    the [size] items from item [k * size] on, no batch is empty or longer
    than [size], and every batch but the last is full. *)
Theorem batches_partition {A : Type} (size : nat) (l : list A) :
  0 < size ->
  concat (chunks size l) = l
  /\ (forall k b, chunks size l !! k = Some b ->
        b = take size (drop (k * size) l)
        /\ 0 < length b <= size
        /\ (S k < length (chunks size l) -> length b = size)).
Proof.
  intros Hsize. split; [now apply chunks_concat | ].
  intros k b Hk.
  destruct (chunksAux_lookup size Hsize _ l k b (le_n _) Hk) as [-> Hlt].
  split; [reflexivity | ].
  rewrite length_take, length_drop. split; [lia | ].
  intros Hnext.
  destruct (lookup_lt_is_Some_2 (chunks size l) (S k) Hnext) as [b' Hb'].
  destruct (chunksAux_lookup size Hsize _ l (S k) b' (le_n _) Hb') as [_ Hlt'].
  lia.
Qed.

Lemma batches_partition_witness :
  0 < 2
  /\ concat (chunks 2 [1; 2; 3; 4; 5]) = [1; 2; 3; 4; 5]
  /\ chunks 2 [1; 2; 3; 4; 5] !! 2 = Some [5]
  /\ forall k b,
       chunks 2 [1; 2; 3; 4; 5] !! k = Some b ->
       b = take 2 (drop (k * 2) [1; 2; 3; 4; 5])
       /\ 0 < length b <= 2
       /\ (S k < length (chunks 2 [1; 2; 3; 4; 5]) -> length b = 2).
Proof.
  split; [lia | ].
  destruct (batches_partition 2 [1; 2; 3; 4; 5]) as [H1 H2]; [lia | ].
  split; [exact H1 | ]. split; [reflexivity | exact H2].
Defined.

(** ** Quoting for SQL *)

Section EscapeFacts.

Lemma escaped_cons (c : ascii) (t : string) :
  Remote.escaped (String c t)
  = if Ascii.eqb c Remote.quote
    then String Remote.quote (String Remote.quote (Remote.escaped t))
    else if Ascii.eqb c Remote.backslash
         then String Remote.backslash (String Remote.backslash (Remote.escaped t))
         else String c (Remote.escaped t).
Proof.
  unfold Remote.escaped. cbn [Remote.replaceChar].
  destruct (Ascii.eqb c Remote.quote) eqn:Eq.
  - reflexivity.
  - cbn [Remote.replaceChar]. destruct (Ascii.eqb c Remote.backslash); reflexivity.
Qed.

Lemma unescape_escaped (s : string) : unescape (Remote.escaped s) = s.
Proof.
  induction s as [ | c t IH]; [reflexivity | ]. rewrite escaped_cons.
  destruct (Ascii.eqb c Remote.quote) eqn:Q.
  - apply Ascii.eqb_eq in Q. subst c. simpl. now rewrite IH.
  - destruct (Ascii.eqb c Remote.backslash) eqn:B.
    + apply Ascii.eqb_eq in B. subst c. simpl. now rewrite IH.
    + cbn [unescape]. rewrite Q, B. simpl. now rewrite IH.
Qed.

End EscapeFacts.

(** X8. [escapeSQL] writes a text between two quotes, and reading the
    doubled quotes and backslashes of what is between them back gives the
    text; so two values (texts, or no value) with the same SQL literal are
    the same.  No value gives the word [NULL]. *)
Theorem escapeSQL_reads_back :
  (forall s : string,
      exists body,
        Remote.escapeSQL (Some s)
        = (String Remote.quote body +:+ String Remote.quote EmptyString)%string
        /\ unescape body = s)
  /\ (forall a b : maybe string, Remote.escapeSQL a = Remote.escapeSQL b -> a = b)
  /\ Remote.escapeSQL None = "NULL".
Proof.
  split; [ | split; [ | reflexivity] ].
  - intros s. exists (Remote.escaped s). split; [reflexivity | apply unescape_escaped].
  - intros [s1 | ] [s2 | ]; simpl; try discriminate; [ | reflexivity].
    intros H. f_equal. injection H as H. apply append_cancel_r in H.
    rewrite <- (unescape_escaped s1), <- (unescape_escaped s2). now rewrite H.
Qed.

(** ** The snapshot and the group maps *)

Section FoldInsert.

Context {A V : Type}.
Variable key : A -> string.
Variable value : A -> V.

Lemma fold_insert_other (l : list A) (k : string) :
  (forall x, In x l -> key x <> k) ->
  forall m : gmap string V,
    fold_left (fun m x => <[key x := value x]> m) l m !! k = m !! k.
Proof.
  induction l as [ | x t IH]; intros Hne m; simpl; [reflexivity | ].
  rewrite IH by (intros y Hy; apply Hne; now right).
  apply lookup_insert_ne. apply Hne. now left.
Qed.

End FoldInsert.

Section FoldConst.

Context {A V : Type}.
Variable key : A -> string.
Variable v : V.

Lemma fold_insert_const (l : list A) (k : string) :
  Exists (fun z => key z = k) l ->
  forall m : gmap string V,
    fold_left (fun m y => <[key y := v]> m) l m !! k = Some v.
Proof.
  induction l as [ | y t IH]; intros Hin m; [inversion Hin | ]. simpl.
  destruct (decide (Exists (fun z => key z = k) t)) as [Hex | Hno].
  - now apply IH.
  - inversion Hin as [? ? Hy | ? ? Ht]; subst; [ | contradiction].
    rewrite (fold_insert_other key (fun _ => v)).
    + apply lookup_insert_eq.
    + intros z Hz E. apply Hno. apply Exists_exists. exists z.
      split; [now apply list_elem_of_In | exact E].
Qed.

End FoldConst.

Section ListingFacts.

Lemma split_nonempty (sep : ascii) (s : string) : split sep s <> [].
Proof.
  destruct s as [ | c t]; simpl; [discriminate | ].
  destruct (Ascii.eqb c sep); [discriminate | ].
  destruct (split sep t); discriminate.
Qed.

Lemma loadLine_lookup (m : gmap string Ssh.Existing) (line k : string) :
  Ssh.loadLine m line !! k
  = if bool_decide (split Ssh.TAB line !! 1%nat = Some k /\ k <> EmptyString)
    then Some (listedAs line) else m !! k.
Proof.
  unfold Ssh.loadLine. destruct line as [ | c t].
  - case_bool_decide as Hd; [ | reflexivity]. destruct Hd as [H _]. discriminate H.
  - set (line := String c t). fold (listedAs line).
    cbv zeta.
    destruct (split Ssh.TAB line !! 1%nat) as [[ | d u] | ] eqn:E; cbn [strTruthy render].
    + case_bool_decide as Hd; [ | reflexivity].
      destruct Hd as [[= <-] H]. now contradiction H.
    + destruct (decide (String d u = k)) as [<- | Hne].
      * rewrite lookup_insert_eq.
        case_bool_decide as Hd; [reflexivity | ].
        contradiction Hd. split; [reflexivity | discriminate].
      * rewrite lookup_insert_ne by exact Hne.
        case_bool_decide as Hd; [ | reflexivity].
        destruct Hd as [[= H] _]. now contradiction Hne.
    + case_bool_decide as Hd; [ | reflexivity]. destruct Hd as [H _]. discriminate H.
Qed.

Lemma loadLines_sound (lines : list string) :
  forall (m : gmap string Ssh.Existing) k e,
    fold_left Ssh.loadLine lines m !! k = Some e ->
    m !! k = Some e
    \/ exists line, In line lines /\ split Ssh.TAB line !! 1%nat = Some k
                    /\ k <> EmptyString /\ e = listedAs line.
Proof.
  induction lines as [ | line rest IH]; intros m k e; simpl; [now left | ].
  intros H. apply IH in H as [H | (l & Hin & Hl)].
  - rewrite loadLine_lookup in H. case_bool_decide as Hd.
    + right. exists line. destruct Hd as [Hk Hne]. injection H as <-. auto.
    + now left.
  - right. exists l. auto.
Qed.

Lemma loadLines_complete (lines : list string) :
  forall (m : gmap string Ssh.Existing) k,
    is_Some (m !! k)
    \/ (exists line, In line lines /\ split Ssh.TAB line !! 1%nat = Some k
                     /\ k <> EmptyString) ->
    is_Some (fold_left Ssh.loadLine lines m !! k).
Proof.
  induction lines as [ | line rest IH]; intros m k; simpl.
  - intros [H | (l & [] & _)]. exact H.
  - intros H. apply IH.
    destruct H as [H | (l & [<- | Hin] & Hk & Hne)].
    + left. rewrite loadLine_lookup. case_bool_decide; [eauto | exact H].
    + left. rewrite loadLine_lookup. case_bool_decide as Hd; [eauto | ].
      contradiction Hd. auto.
    + right. exists l. auto.
Qed.

End ListingFacts.

(** X6. Every entry of the snapshot read from the listing of the store
    stands for a line of the listing whose second field is the key of the
    entry, and is not empty; every line with a second field that is not
    empty has its key in the snapshot; a blank listing gives the empty
    snapshot. *)
Theorem listing_keys (raw : string) :
  (forall k e,
      Ssh.loadExisting raw !! k = Some e ->
      exists line, In line (split Ssh.LF (trim raw))
                   /\ split Ssh.TAB line !! 1%nat = Some k
                   /\ k <> EmptyString /\ e = listedAs line)
  /\ (forall line k,
         In line (split Ssh.LF (trim raw)) ->
         split Ssh.TAB line !! 1%nat = Some k -> k <> EmptyString ->
         is_Some (Ssh.loadExisting raw !! k))
  /\ (trim raw = EmptyString -> Ssh.loadExisting raw = ∅).
Proof.
  unfold Ssh.loadExisting. split; [ | split].
  - intros k e H. apply loadLines_sound in H as [H | H]; [ | exact H].
    rewrite lookup_empty in H. discriminate H.
  - intros line k Hin Hk Hne. apply loadLines_complete. right. eauto.
  - intros ->. reflexivity.
Qed.

Lemma listing_keys_witness :
  In (Sample.listingA) (split Ssh.LF (trim Sample.listingA))
  /\ is_Some (Ssh.loadExisting Sample.listingA !! "42-normal-BS")
  /\ Ssh.loadExisting (String Ssh.LF EmptyString) = ∅.
Proof.
  assert (Hin : In (Sample.listingA) (split Ssh.LF (trim Sample.listingA)))
    by (vm_compute; auto).
  destruct (listing_keys Sample.listingA) as (_ & H & _).
  destruct (listing_keys (String Ssh.LF EmptyString)) as (_ & _ & H0).
  split; [exact Hin | ].
  split; [ | apply H0; reflexivity].
  apply (H _ _ Hin); [reflexivity | discriminate].
Defined.
Section ObjectMaps.

Variable value : RawRow -> maybe string.

Lemma assignObj_lookup (m : gmap string (maybe string)) (key v : maybe string)
  (k : string) :
  assignObj m key v !! k
  = if String.eqb (render key) "__proto__" then m !! k
    else if String.eqb (render key) k then Some v else m !! k.
Proof.
  unfold assignObj. destruct (String.eqb (render key) "__proto__"); [reflexivity | ].
  destruct (String.eqb (render key) k) eqn:E.
  - apply String.eqb_eq in E. subst k. apply lookup_insert_eq.
  - apply String.eqb_neq in E. now apply lookup_insert_ne.
Qed.

(** No assignment gives the object a member [__proto__] of its own. *)
Lemma fold_assign_proto (l : list RawRow) :
  forall m : gmap string (maybe string),
    fold_left (fun m g => assignObj m (g !! "groupId") (value g)) l m !! "__proto__"
    = m !! "__proto__".
Proof.
  induction l as [ | g t IH]; intros m; simpl; [reflexivity | ].
  rewrite IH, assignObj_lookup.
  destruct (String.eqb (render (g !! "groupId")) "__proto__"); reflexivity.
Qed.

Lemma fold_assign_other (l : list RawRow) (k : string) :
  (forall g, In g l -> render (g !! "groupId") <> k) ->
  forall m : gmap string (maybe string),
    fold_left (fun m g => assignObj m (g !! "groupId") (value g)) l m !! k = m !! k.
Proof.
  induction l as [ | g t IH]; intros Hne m; simpl; [reflexivity | ].
  rewrite IH by (intros g' Hg'; apply Hne; now right).
  rewrite assignObj_lookup.
  destruct (String.eqb (render (g !! "groupId")) "__proto__"); [reflexivity | ].
  destruct (String.eqb (render (g !! "groupId")) k) eqn:E; [ | reflexivity].
  apply String.eqb_eq in E. exfalso. apply (Hne g); [now left | exact E].
Qed.

(** The last group with an identifier decides what the identifier is bound
    to. *)
Lemma fold_assign_last (l : list RawRow) (i : nat) (g : RawRow) :
  l !! i = Some g ->
  render (g !! "groupId") <> "__proto__" ->
  (forall j g', l !! j = Some g' -> i < j ->
                render (g' !! "groupId") <> render (g !! "groupId")) ->
  fold_left (fun m g => assignObj m (g !! "groupId") (value g)) l ∅
    !! render (g !! "groupId")
  = Some (value g).
Proof.
  intros Hi Hproto Hlater.
  rewrite <- (take_drop_middle l i g Hi), fold_left_app. simpl.
  rewrite fold_assign_other.
  - rewrite assignObj_lookup. apply String.eqb_neq in Hproto. rewrite Hproto.
    now rewrite String.eqb_refl.
  - intros g' Hin. apply list_elem_of_In, list_elem_of_lookup in Hin as [j Hj].
    rewrite lookup_drop in Hj. apply (Hlater _ _ Hj). lia.
Qed.

End ObjectMaps.

(** X7. For a group whose id is not [__proto__] and is the id of no later
    group of the feed, the maps built from the feed give, under that id,
    the name of the group and its abbreviation or, when that is missing or
    empty, its id.  Under the id [__proto__] the maps hold nothing of their
    own, whatever the feed: the name and the abbreviation read as
    [Object.prototype], that is as the text [[object Object]]. *)
Theorem group_names_lookup (groups : list RawRow) :
  (forall (i : nat) (g : RawRow),
      groups !! i = Some g ->
      render (g !! "groupId") <> "__proto__" ->
      (forall j g', groups !! j = Some g' -> i < j ->
                    render (g' !! "groupId") <> render (g !! "groupId")) ->
      lookupObj (groupsMapOf groups) (g !! "groupId") = g !! "name"
      /\ abbrevOf (abbrevMapOf groups) (g !! "groupId")
         = strOr (g !! "abbreviation") (g !! "groupId"))
  /\ lookupObj (groupsMapOf groups) (Some "__proto__") = Some "[object Object]"
  /\ abbrevOf (abbrevMapOf groups) (Some "__proto__") = Some "[object Object]".
Proof.
  split; [ | split].
  - intros i g Hi Hproto Hlater.
    unfold lookupObj, abbrevOf, lookupObj, groupsMapOf, abbrevMapOf.
    rewrite (fold_assign_last (fun g => g !! "name") groups i g Hi Hproto Hlater).
    rewrite (fold_assign_last (fun g => strOr (g !! "abbreviation") (g !! "groupId"))
               groups i g Hi Hproto Hlater).
    split; [reflexivity | ].
    destruct (g !! "abbreviation") as [[ | c t] | ]; simpl; try reflexivity;
      destruct (g !! "groupId") as [[ | d u] | ]; reflexivity.
  - unfold lookupObj, groupsMapOf. cbn [render].
    now rewrite fold_assign_proto, lookup_empty.
  - unfold abbrevOf, lookupObj, abbrevMapOf. cbn [render].
    now rewrite fold_assign_proto, lookup_empty.
Qed.

Lemma group_names_lookup_witness :
  [Sample.group1; Sample.group2] !! 0 = Some Sample.group1
  /\ render (Sample.group1 !! "groupId") <> "__proto__"
  /\ lookupObj (groupsMapOf [Sample.group1; Sample.group2]) (Sample.group1 !! "groupId")
     = Sample.group1 !! "name"
  /\ abbrevOf (abbrevMapOf [Sample.group1; Sample.group2]) (Sample.group1 !! "groupId")
     = strOr (Sample.group1 !! "abbreviation") (Sample.group1 !! "groupId").
Proof.
  assert (Hproto : render (Sample.group1 !! "groupId") <> "__proto__")
    by (intros E; vm_compute in E; discriminate E).
  split; [reflexivity | ]. split; [exact Hproto | ].
  apply (proj1 (group_names_lookup [Sample.group1; Sample.group2]) 0 Sample.group1);
    [reflexivity | exact Hproto | ].
  intros j g' Hj Hlt. destruct j as [ | [ | j]]; [lia | | discriminate Hj].
  injection Hj as <-. intros E. vm_compute in E. discriminate E.
Defined.

(** X24. A batch of creations of [server.js] never fails.  When the store
    accepts it, [created] grows by the size of the batch and every key of
    the batch is added to the snapshot as published, the other keys being
    left as they were: a later row with such a key is planned as an update,
    not as a second creation.  When the store refuses it, the snapshot and
    [created] are left as they were. *)
Theorem created_keys_registered (post : nat -> string + unit) (j : nat)
  (batch : list Rest.CreateData) (existing : gmap string Rest.Existing) (w : World) :
  exists existing' w',
    Rest.createStep post j batch existing w = (Ok existing', w')
    /\ match post j with
       | inr _ =>
           (forall p, In p batch ->
                      existing' !! Rest.c_sku p
                      = Some {| Rest.id := 0; Rest.status := Some "publish" |})
           /\ (forall k, (forall p, In p batch -> Rest.c_sku p <> k) ->
                         existing' !! k = existing !! k)
           /\ created (syncState w') = created (syncState w) + length batch
           /\ (forall pricesOnly trm setName abbrev row p,
                  In p batch -> Rest.c_sku p = skuOfRow abbrev row ->
                  exists u,
                    Rest.decide pricesOnly trm setName abbrev existing' row
                    = Rest.UPDATE u)
       | inl _ =>
           existing' = existing /\ created (syncState w') = created (syncState w)
       end.
Proof.
  unfold Rest.createStep, tryCatch, bind, awaitCall, await, throw, ret.
  destruct (post j) as [reason | []]; cbn [fst snd].
  - do 2 eexists. split; [reflexivity | ].
    split; [reflexivity | ]. destruct w as [[] clk evs]. reflexivity.
  - do 2 eexists. split; [reflexivity | ].
    assert (Hreg : forall p, In p batch ->
                     fold_left
                       (fun m p =>
                          <[Rest.c_sku p := {| Rest.id := 0; Rest.status := Some "publish" |}]> m)
                       batch existing !! Rest.c_sku p
                     = Some {| Rest.id := 0; Rest.status := Some "publish" |}).
    { intros p Hp. apply (fold_insert_const Rest.c_sku).
      apply Exists_exists. exists p. split; [now apply list_elem_of_In | reflexivity]. }
    split; [exact Hreg | ].
    split; [ | split].
    + intros k Hk. now apply (fold_insert_other Rest.c_sku).
    + destruct w as [[] clk evs]. reflexivity.
    + intros pricesOnly trm setName abbrev row p Hp E.
      unfold Rest.decide. rewrite <- E, (Hreg p Hp). eauto.
Qed.
(** X25. A creation of the SSH server never fails.  A call that fails
    counts one error; the answer [SKIP] changes nothing; any other answer
    counts one created product and adds the key to the snapshot with the
    price sent, so that a later row with that key and that price is
    skipped. *)
Theorem ssh_created_then_skipped (wp : nat -> string + string) (k : nat)
  (p : Ssh.NewProduct) (l : Ssh.Loop) (w : World) :
  exists l' w',
    Ssh.createStep wp k p l w = (Ok l', w')
    /\ match wp k with
       | inl _ => l' = Ssh.bumpErrors l
       | inr result =>
           if String.eqb (trim result) "SKIP" then l' = l
           else
             Ssh.totals l' = Ssh.withCreated (Ssh.totals l)
                               (S (Ssh.totalCreated (Ssh.totals l)))
             /\ Ssh.existingProducts l' !! Ssh.n_sku p
                = Some {| Ssh.id := parseInt result; Ssh.price := Ssh.n_price p |}
             /\ forall pricesOnly trm setName abbrev row,
                  skuOfRow abbrev row = Ssh.n_sku p ->
                  Ssh.priceOf trm row = Ssh.n_price p ->
                  Ssh.decide pricesOnly trm setName abbrev (Ssh.existingProducts l') row
                  = Ssh.SKIP
       end.
Proof.
  assert (Hskip : forall (existing : gmap string Ssh.Existing) result
                         pricesOnly trm setName abbrev row,
             skuOfRow abbrev row = Ssh.n_sku p ->
             Ssh.priceOf trm row = Ssh.n_price p ->
             Ssh.decide pricesOnly trm setName abbrev
               (<[Ssh.n_sku p := {| Ssh.id := parseInt result;
                                    Ssh.price := Ssh.n_price p |}]> existing) row
             = Ssh.SKIP).
  { intros existing result pricesOnly trm setName abbrev row Hk Hp.
    unfold Ssh.decide. rewrite Hk, lookup_insert_eq. cbn [Ssh.price].
    unfold Ssh.priceChanged. now rewrite Hp, price_unchanged_refl. }
  unfold Ssh.createStep, bind, await, ret.
  destruct (wp k) as [reason | result].
  - simpl. destruct (Nat.eqb _ 0); simpl; eauto.
  - destruct (String.eqb (trim result) "SKIP"); simpl.
    + destruct (Nat.eqb _ 0); simpl; eauto.
    + destruct (Nat.eqb _ 0); simpl; do 2 eexists; (split; [reflexivity | ]);
        cbn [Ssh.totals Ssh.existingProducts];
        (split; [reflexivity | ]); (split; [apply lookup_insert_eq | apply Hskip]).
Qed.
Section Listing.

Lemma sameButLogs_refl (st : RunState) : sameButLogs st st.
Proof. repeat split. Qed.

Lemma sameButLogs_trans (a b c : RunState) :
  sameButLogs a b -> sameButLogs b c -> sameButLogs a c.
Proof.
  unfold sameButLogs. intros H1 H2.
  repeat match goal with
         | H : _ /\ _ |- _ => destruct H
         end.
  repeat split; congruence.
Qed.

Lemma registerPage_grows (products : list (option Rest.Product)) :
  forall (m : gmap string Rest.Existing) k,
    is_Some (m !! k) -> is_Some (fst (Rest.registerPage products m) !! k).
Proof.
  induction products as [ | [p | ] t IH]; intros m k Hk; simpl; try exact Hk.
  apply IH. destruct (strTruthy (Rest.p_sku p)); [ | exact Hk].
  destruct (decide (render (Rest.p_sku p) = k)) as [<- | Hne].
  - rewrite lookup_insert_eq. eauto.
  - now rewrite lookup_insert_ne.
Qed.

(** The products before the first [null] are put in the map. *)
Lemma registerPage_before (before : list Rest.Product)
  (after : list (option Rest.Product)) :
  forall (m : gmap string Rest.Existing) p,
    In p before -> strTruthy (Rest.p_sku p) = true ->
    is_Some (fst (Rest.registerPage (map Some before ++ after) m)
               !! render (Rest.p_sku p)).
Proof.
  induction before as [ | q t IH]; intros m p Hp Ht; [destruct Hp | ]. simpl.
  destruct Hp as [-> | Hp]; [ | now apply IH].
  apply registerPage_grows. rewrite Ht, lookup_insert_eq. eauto.
Qed.

(** A [null] stops the [forEach]: what comes after it is not read. *)
Lemma registerPage_null (before : list Rest.Product)
  (after : list (option Rest.Product)) :
  forall m : gmap string Rest.Existing,
    Rest.registerPage (map Some before ++ None :: after) m
    = (fst (Rest.registerPage (map Some before) m), Some Rest.nullSkuError).
Proof.
  induction before as [ | q t IH]; intros m; simpl; [reflexivity | apply IH].
Qed.

Lemma registerPage_stops (products : list (option Rest.Product)) :
  In None products ->
  forall m : gmap string Rest.Existing,
    snd (Rest.registerPage products m) = Some Rest.nullSkuError.
Proof.
  induction products as [ | [q | ] t IH]; intros Hin m; simpl.
  - destruct Hin.
  - destruct Hin as [H | H]; [discriminate H | now apply IH].
  - reflexivity.
Qed.

Lemma pageStep_returns (resp : string + list (option Rest.Product)) (page : nat)
  (existing : gmap string Rest.Existing) (w : World) :
  exists w',
    Rest.pageStep resp page existing w
    = (Ok match resp with
          | inl _ => (false, existing)
          | inr products =>
              (match snd (Rest.registerPage products existing) with
               | Some _ => false
               | None => Nat.eqb (length products) 100
               end,
               fst (Rest.registerPage products existing))
          end, w')
    /\ sameButLogs (syncState w) (syncState w').
Proof.
  unfold Rest.pageStep, bind, await, ret. cbn [fst snd].
  destruct resp as [reason | products].
  - eexists. split; [reflexivity | ].
    destruct w as [st clk evs]. simpl. apply sameButLogs_setLogs.
  - cbv zeta. destruct (snd (Rest.registerPage products existing)).
    + eexists. split; [reflexivity | ].
      destruct w as [st clk evs]. simpl. apply sameButLogs_setLogs.
    + destruct (Nat.eqb ((page + 1) mod 5) 0); simpl.
      * eexists. split; [reflexivity | ].
        destruct w as [st clk evs]. simpl. apply sameButLogs_setLogs.
      * eexists. split; [reflexivity | apply sameButLogs_refl].
Qed.

Lemma fetchExisting_cons (resp : string + list (option Rest.Product))
  (rest : list (string + list (option Rest.Product))) page existing w r w1 :
  Rest.pageStep resp page existing w = (Ok r, w1) ->
  Rest.fetchExisting (resp :: rest) page existing w
  = if fst r then Rest.fetchExisting rest (page + 1) (snd r) w1 else (Ok (snd r), w1).
Proof.
  intros E. cbn [Rest.fetchExisting]. unfold bind at 1. rewrite E.
  destruct (fst r); reflexivity.
Qed.

Lemma fetchExisting_returns (answers : list (string + list (option Rest.Product))) :
  forall page existing w,
    exists existing' w',
      Rest.fetchExisting answers page existing w = (Ok existing', w')
      /\ (forall k, is_Some (existing !! k) -> is_Some (existing' !! k))
      /\ sameButLogs (syncState w) (syncState w').
Proof.
  induction answers as [ | resp rest IH]; intros page existing w.
  - simpl. destruct (pageStep_returns (inr []) page existing w) as (w1 & E & Hs).
    unfold bind. rewrite E. simpl. eauto.
  - destruct (pageStep_returns resp page existing w) as (w1 & E & Hs).
    rewrite (fetchExisting_cons _ _ _ _ _ _ _ E).
    match type of E with
    | _ = (Ok ?x, _) => set (r := x) in *
    end.
    assert (Hk : forall k, is_Some (existing !! k) -> is_Some (snd r !! k)).
    { intros k Hk. unfold r. destruct resp as [reason | products]; [exact Hk | ].
      now apply registerPage_grows. }
    clearbody r. destruct r as [[ | ] ex1]; cbn [fst snd] in *.
    + destruct (IH (page + 1) ex1 w1) as (ex2 & w2 & E2 & Hk2 & Hs2).
      exists ex2, w2. split; [exact E2 | ].
      split; [auto | now apply sameButLogs_trans with (syncState w1)].
    + eauto.
Qed.

End Listing.

(** X21. Reading the products of the store page by page never fails and
    changes nothing but the log; keys are only added to the snapshot.  A
    request that fails ends the reading with the snapshot as it was before
    the request.  A page with a [null] element ends it too: the snapshot
    then holds the products of that page that come before the [null], and
    nothing of what comes after.  A page that does not hold 100 elements, or
    that holds a [null], is the last one read.  Every product with a key
    that comes before any [null] of a page read is in the snapshot. *)
Theorem listing_never_fails :
  (forall answers page existing w,
      exists existing' w',
        Rest.fetchExisting answers page existing w = (Ok existing', w')
        /\ (forall k, is_Some (existing !! k) -> is_Some (existing' !! k))
        /\ sameButLogs (syncState w) (syncState w'))
  /\ (forall reason rest page existing w,
         fst (Rest.fetchExisting (inl reason :: rest) page existing w) = Ok existing)
  /\ (forall before after rest page existing w,
         fst (Rest.fetchExisting (inr (map Some before ++ None :: after) :: rest)
                page existing w)
         = Ok (fst (Rest.registerPage (map Some before) existing)))
  /\ (forall products rest page existing w,
         length products <> 100 \/ In None products ->
         Rest.fetchExisting (inr products :: rest) page existing w
         = Rest.fetchExisting [inr products] page existing w)
  /\ (forall before after rest page existing w p existing',
         fst (Rest.fetchExisting (inr (map Some before ++ after) :: rest) page existing w)
         = Ok existing' ->
         In p before -> strTruthy (Rest.p_sku p) = true ->
         is_Some (existing' !! render (Rest.p_sku p))).
Proof.
  split; [intros; apply fetchExisting_returns | ].
  split; [ | split; [ | split] ].
  - intros reason rest page existing w.
    destruct (pageStep_returns (inl reason) page existing w) as (w1 & E & _).
    now rewrite (fetchExisting_cons _ _ _ _ _ _ _ E).
  - intros before after rest page existing w.
    destruct (pageStep_returns (inr (map Some before ++ None :: after)) page existing w)
      as (w1 & E & _).
    rewrite (fetchExisting_cons _ _ _ _ _ _ _ E), registerPage_null. reflexivity.
  - intros products rest page existing w Hlast.
    destruct (pageStep_returns (inr products) page existing w) as (w1 & E & _).
    rewrite !(fetchExisting_cons _ _ _ _ _ _ _ E). cbn [fst snd].
    assert (Hmore : match snd (Rest.registerPage products existing) with
                    | Some _ => false
                    | None => Nat.eqb (length products) 100
                    end = false).
    { destruct Hlast as [Hlen | Hnull].
      - apply Nat.eqb_neq in Hlen. rewrite Hlen.
        now destruct (snd (Rest.registerPage products existing)).
      - now rewrite (registerPage_stops products Hnull existing). }
    now rewrite Hmore.
  - intros before after rest page existing w p existing' Hrun Hp Ht.
    destruct (pageStep_returns (inr (map Some before ++ after)) page existing w)
      as (w1 & E & _).
    rewrite (fetchExisting_cons _ _ _ _ _ _ _ E) in Hrun. cbn [fst snd] in Hrun.
    pose proof (registerPage_before before after existing p Hp Ht) as Hin.
    destruct (match snd (Rest.registerPage (map Some before ++ after) existing) with
              | Some _ => false
              | None => Nat.eqb (length (map Some before ++ after)) 100
              end).
    + destruct (fetchExisting_returns rest (page + 1)
                  (fst (Rest.registerPage (map Some before ++ after) existing)) w1)
        as (ex2 & w2 & E2 & Hk2 & _).
      rewrite E2 in Hrun. injection Hrun as <-. now apply Hk2.
    + injection Hrun as <-. exact Hin.
Qed.

(** ** Prices *)

Section NanFacts.

Lemma mul_nan_r (x : number) : mul x NaN = NaN.
Proof. destruct x as [ [ | ] | [ | ] | | [ | ] m e]; reflexivity. Qed.

Lemma rest_price_nan (row : RawRow) : Rest.priceOf NaN row = NaN.
Proof. unfold Rest.priceOf, Rest.computedPrice. now rewrite mul_nan_r. Qed.

Lemma ssh_price_nan (row : RawRow) : Ssh.priceOf NaN row = NaN.
Proof. unfold Ssh.priceOf, Ssh.computedPrice. now rewrite mul_nan_r. Qed.

Lemma priceChanged_nan (stored : number) : Ssh.priceChanged stored NaN = false.
Proof. destruct stored as [ [ | ] | [ | ] | | [ | ] m e]; reflexivity. Qed.

End NanFacts.

(** X9. When the exchange rate is not a number, the SSH server skips
    every product that the store has, and every price that either server
    sends to the store, for a creation or an update, is not a number. *)
Theorem nan_rate_prices (pricesOnly : bool) (setName abbrev : maybe string)
  (row : RawRow) :
  (forall (existing : gmap string Ssh.Existing) e,
      existing !! skuOfRow abbrev row = Some e ->
      Ssh.decide pricesOnly NaN setName abbrev existing row = Ssh.SKIP)
  /\ (forall (existing : gmap string Ssh.Existing) p,
         Ssh.emittedPrice (Ssh.decide pricesOnly NaN setName abbrev existing row) = Some p ->
         p = NaN)
  /\ (forall (existing : gmap string Rest.Existing) p,
         Rest.emittedPrice (Rest.decide pricesOnly NaN setName abbrev existing row) = Some p ->
         p = NaN).
Proof.
  split; [ | split].
  - intros existing e He. unfold Ssh.decide. rewrite He, ssh_price_nan.
    now rewrite priceChanged_nan.
  - intros existing p. unfold Ssh.decide. rewrite ssh_price_nan.
    destruct (existing !! skuOfRow abbrev row) as [e | ].
    + rewrite priceChanged_nan. discriminate.
    + destruct pricesOnly; simpl; congruence.
  - intros existing p. unfold Rest.decide. rewrite rest_price_nan.
    destruct (existing !! skuOfRow abbrev row) as [e | ];
      destruct pricesOnly; simpl; congruence.
Qed.

Section PriceOrder.

(** A number that is neither below 200 nor [NaN] is at least 200. *)
Lemma not_below_min (p : number) :
  ltb p (ofZ 200) = false -> p <> NaN -> leb (ofZ 200) p = true.
Proof.
  unfold ltb, leb, SFltb, SFleb. rewrite (SFcompare_antisym p (ofZ 200)).
  destruct (SFcompare p (ofZ 200)) as [[ | | ] | ] eqn:E; simpl; try congruence.
  intros _ Hn. destruct p as [ [ | ] | [ | ] | | [ | ] m e]; try discriminate E.
  now contradiction Hn.
Qed.

Lemma clampMin_min (p : number) : p <> NaN -> leb (ofZ 200) (clampMin p) = true.
Proof.
  intros Hn. unfold clampMin. change MIN_PRICE_COP with (ofZ 200).
  destruct (ltb p (ofZ 200)) eqn:E; [reflexivity | now apply not_below_min].
Qed.

Lemma clampMin_nan (p : number) : clampMin p = NaN -> p = NaN.
Proof.
  unfold clampMin. destruct (ltb p MIN_PRICE_COP); [discriminate | auto].
Qed.

(** From a stored price of zero, every price of at least 200 is a change. *)
Lemma changed_from_zero (p : number) :
  leb (ofZ 200) p = true -> Ssh.priceChanged (ofZ 0) p = true.
Proof.
  destruct p as [ [ | ] | [ | ] | | [ | ] m e]; try discriminate; try reflexivity.
  unfold leb, SFleb, Ssh.priceChanged, gtb, SFltb.
  change (Math_abs (JS.sub (ofZ 0) (S754_finite false m e)))
    with (S754_finite false m e).
  change (ofZ 200) with (S754_finite false 7036874417766400 (-45)).
  change (ofZ 1) with (S754_finite false 4503599627370496 (-52)).
  cbn [SFcompare].
  destruct (Z.compare_spec (-45) e) as [<- | Hlt | Hgt]; try discriminate.
  - intros _. reflexivity.
  - intros _. destruct (Z.compare_spec (-52) e) as [ | | ]; [lia | reflexivity | lia].
Qed.

End PriceOrder.

(** X10. A product that the store lists with the price zero, which is
    also what a price that cannot be read counts as, is updated by the SSH
    server to the price computed from the feed, whenever that price is a
    number. *)
Theorem unpriced_product_updated (pricesOnly : bool) (trm : number)
  (setName abbrev : maybe string) (existing : gmap string Ssh.Existing)
  (row : RawRow) (e : Ssh.Existing) :
  existing !! skuOfRow abbrev row = Some e ->
  Ssh.price e = ofZ 0 ->
  Ssh.priceOf trm row <> NaN ->
  Ssh.decide pricesOnly trm setName abbrev existing row
  = Ssh.UPDATE {| Ssh.u_id := Ssh.id e; Ssh.u_price := Ssh.priceOf trm row |}.
Proof.
  intros He Hp Hn. unfold Ssh.decide. rewrite He, Hp.
  rewrite changed_from_zero; [reflexivity | ].
  unfold Ssh.priceOf in *. apply clampMin_min.
  intros E. apply Hn. unfold clampMin. rewrite E. reflexivity.
Qed.

Lemma unpriced_product_updated_witness :
  Ssh.loadExisting
    ("101" +:+ String Ssh.TAB "42-normal-BS" +:+ String Ssh.TAB "n/a")%string
    !! skuOfRow (Some "BS") Sample.rowA
  = Some {| Ssh.id := ofZ 101; Ssh.price := ofZ 0 |}
  /\ Ssh.priceOf (ofZ 4000) Sample.rowA <> NaN
  /\ Ssh.decide true (ofZ 4000) (Some "Base Set") (Some "BS")
       (Ssh.loadExisting
          ("101" +:+ String Ssh.TAB "42-normal-BS" +:+ String Ssh.TAB "n/a")%string)
       Sample.rowA
     = Ssh.UPDATE {| Ssh.u_id := ofZ 101; Ssh.u_price := Ssh.priceOf (ofZ 4000) Sample.rowA |}.
Proof.
  assert (H1 : Ssh.loadExisting
                 ("101" +:+ String Ssh.TAB "42-normal-BS"
                  +:+ String Ssh.TAB "n/a")%string
                 !! skuOfRow (Some "BS") Sample.rowA
               = Some {| Ssh.id := ofZ 101; Ssh.price := ofZ 0 |})
    by (vm_compute; reflexivity).
  assert (H2 : Ssh.priceOf (ofZ 4000) Sample.rowA <> NaN)
    by (vm_compute; discriminate).
  split; [exact H1 | ]. split; [exact H2 | ].
  exact (unpriced_product_updated true (ofZ 4000) (Some "Base Set") (Some "BS") _
           Sample.rowA _ H1 eq_refl H2).
Defined.

Section Rounding.

Lemma iter_pos_keeps {A} (f : A -> A) (Inv : A -> Prop) :
  (forall x, Inv x -> Inv (f x)) ->
  forall p x, Inv x -> Inv (SpecFloat.iter_pos f p x).
Proof.
  intros Hf. induction p as [p IH | p IH | ]; intros x Hx; simpl; auto.
Qed.

Lemma shr_1_nonneg (mrs : shr_record) : (0 <= shr_m mrs)%Z -> (0 <= shr_m (shr_1 mrs))%Z.
Proof.
  destruct mrs as [m r s]. simpl.
  destruct m as [ | [p | p | ] | p]; simpl; lia.
Qed.

Lemma shr_nonneg (mrs : shr_record) (e n : Z) :
  (0 <= shr_m mrs)%Z -> (0 <= shr_m (fst (shr mrs e n)))%Z.
Proof.
  intros H. unfold shr. destruct n as [ | p | p]; simpl; auto.
  now apply (iter_pos_keeps shr_1 (fun x => (0 <= shr_m x)%Z) shr_1_nonneg).
Qed.

Lemma shr_fexp_nonneg (m e : Z) (l : location) :
  (0 <= m)%Z -> (0 <= shr_m (fst (shr_fexp prec emax m e l)))%Z.
Proof.
  intros H. unfold shr_fexp. apply shr_nonneg.
  destruct l as [ | [ | | ]]; exact H.
Qed.

Lemma round_nearest_even_nonneg (m : Z) (l : location) :
  (0 <= m)%Z -> (0 <= round_nearest_even m l)%Z.
Proof.
  intros H. unfold round_nearest_even.
  destruct l as [ | [ | | ]]; try lia. destruct (Z.even m); lia.
Qed.

(** Rounding a mantissa that is not negative never gives [NaN]. *)
Lemma binary_round_aux_number (s : bool) (m e : Z) (l : location) :
  (0 <= m)%Z -> binary_round_aux prec emax s m e l <> S754_nan.
Proof.
  intros H. unfold binary_round_aux.
  pose proof (shr_fexp_nonneg m e l H) as H1.
  destruct (shr_fexp prec emax m e l) as [mrs' e']. simpl in H1.
  pose proof (shr_fexp_nonneg _ e' loc_Exact
                (round_nearest_even_nonneg _ (loc_of_shr_record mrs') H1)) as H2.
  destruct (shr_fexp prec emax
              (round_nearest_even (shr_m mrs') (loc_of_shr_record mrs')) e' loc_Exact)
    as [mrs'' e'']. simpl in H2.
  destruct (shr_m mrs'') as [ | p | p]; [discriminate | | lia].
  destruct (e'' <=? emax - prec)%Z; discriminate.
Qed.

Lemma binary_normalize_number (z e : Z) (szero : bool) :
  binary_normalize prec emax z e szero <> S754_nan.
Proof.
  unfold binary_normalize, binary_round.
  destruct z as [ | p | p]; [discriminate | | ];
    destruct (shl_align _ _ _) as [mz ez]; apply binary_round_aux_number; lia.
Qed.

Lemma ofZ_signed_number (s : bool) (z : Z) : ofZ_signed s z <> NaN.
Proof.
  unfold ofZ_signed, ofZ. destruct z; [discriminate | | ]; apply binary_normalize_number.
Qed.

Lemma mul_number (x y : number) :
  truthy x = true -> truthy y = true -> mul x y <> NaN.
Proof.
  destruct x as [sx | sx | | sx mx ex], y as [sy | sy | | sy my ey];
    simpl; try discriminate; intros _ _.
  apply binary_round_aux_number. lia.
Qed.

(** Times or over a number that is finite and not zero. *)
Lemma mul_finite_number (x : number) (s : bool) (m : positive) (e : Z) :
  x <> NaN -> mul x (S754_finite s m e) <> NaN.
Proof.
  destruct x as [sx | sx | | sx mx ex]; simpl; try discriminate; try congruence.
  intros _. apply binary_round_aux_number. lia.
Qed.

Lemma div_core_nonneg (m1 m2 : positive) (e1 e2 : Z) :
  (0 <= fst (fst (SFdiv_core_binary prec emax (Z.pos m1) e1 (Z.pos m2) e2)))%Z.
Proof.
  unfold SFdiv_core_binary.
  set (s := (e1 - e2 - Z.min _ _)%Z).
  set (m' := match s with
             | Zpos _ => Z.shiftl (Z.pos m1) s
             | Z0 => Z.pos m1
             | Zneg _ => 0%Z
             end).
  assert (Hm : (0 <= m')%Z).
  { unfold m'. destruct s; try lia. apply Z.shiftl_nonneg. lia. }
  pose proof (Z.div_pos m' (Z.pos m2) Hm eq_refl) as Hq.
  unfold Z.div in Hq. destruct (Z.div_eucl m' (Z.pos m2)) as [q r]. exact Hq.
Qed.

Lemma div_finite_number (x : number) (s : bool) (m : positive) (e : Z) :
  x <> NaN -> div x (S754_finite s m e) <> NaN.
Proof.
  destruct x as [sx | sx | | sx mx ex]; simpl; try discriminate; try congruence.
  intros _. unfold div, SFdiv.
  pose proof (div_core_nonneg mx m ex e) as H.
  destruct (SFdiv_core_binary prec emax (Z.pos mx) ex (Z.pos m) e) as [[mz ez] lz].
  now apply binary_round_aux_number.
Qed.

Lemma Math_round_number (x : number) : x <> NaN -> Math_round x <> NaN.
Proof.
  destruct x as [sx | sx | | sx mx ex]; simpl; auto.
  intros _. destruct (0 <=? ex)%Z; [discriminate | apply ofZ_signed_number].
Qed.

Lemma Math_ceil_number (x : number) : x <> NaN -> Math_ceil x <> NaN.
Proof.
  destruct x as [sx | sx | | sx mx ex]; simpl; auto.
  intros _. destruct (0 <=? ex)%Z; [discriminate | apply ofZ_signed_number].
Qed.

Lemma positive_truthy (x : number) : gtb x (ofZ 0) = true -> truthy x = true.
Proof. destruct x as [sx | sx | | sx mx ex]; try discriminate; reflexivity. Qed.

Lemma isSingle_truthy (row : RawRow) :
  isSingle row = true -> truthy (parseFloat' (row !! "marketPrice")) = true.
Proof.
  unfold isSingle. intros H. apply andb_prop in H as [_ H].
  apply andb_prop in H as [_ H]. now apply positive_truthy.
Qed.

End Rounding.

(** X11. For a row that passes the filter and a rate that is a number
    other than zero, the price that either server computes is a number of at
    least 200. *)
Theorem sellable_price_at_least_min (trm : number) (row : RawRow) :
  isSingle row = true -> truthy trm = true ->
  leb (ofZ 200) (Rest.priceOf trm row) = true
  /\ leb (ofZ 200) (Ssh.priceOf trm row) = true.
Proof.
  intros Hrow Htrm. pose proof (isSingle_truthy row Hrow) as Hp.
  pose proof (mul_number _ _ Hp Htrm) as Hm.
  split; apply clampMin_min.
  - unfold Rest.computedPrice. now apply Math_round_number.
  - unfold Ssh.computedPrice.
    change (ofZ 100) with (S754_finite false 7036874417766400 (-46)).
    apply mul_finite_number, Math_ceil_number, div_finite_number. exact Hm.
Qed.

Lemma sellable_price_at_least_min_witness :
  isSingle Sample.rowCheap = true
  /\ truthy (ofZ 4000) = true
  /\ leb (ofZ 200) (Rest.priceOf (ofZ 4000) Sample.rowCheap) = true
  /\ leb (ofZ 200) (Ssh.priceOf (ofZ 4000) Sample.rowCheap) = true.
Proof.
  assert (H1 : isSingle Sample.rowCheap = true) by (vm_compute; reflexivity).
  split; [exact H1 | ]. split; [reflexivity | ].
  exact (sellable_price_at_least_min (ofZ 4000) Sample.rowCheap H1 eq_refl).
Defined.

(** ** Invariants of a run *)

Section StableSteps.

Variable P : World -> Prop.

(** A step that returns nothing and keeps [P]. *)
Lemma stable_step (m : M unit) :
  (forall w, m w = (Ok tt, snd (m w))) -> (forall w, P w -> P (snd (m w))) ->
  preserves P m.
Proof. intros Em H. apply triple_step with (f := fun w => snd (m w)); auto. Qed.

Lemma stable_awaitCall {A} (r : string + A) :
  (forall w, P w -> P (snd (await w))) -> preserves P (awaitCall r).
Proof. intros H. apply triple_awaitCall. intros w Hw. destruct r; now apply H. Qed.

Lemma stable_read {A} (m : M A) :
  (forall w, exists a, m w = (Ok a, w)) -> triple P m (fun _ => P) (fun _ => P).
Proof. intros H w Hw. destruct (H w) as [a ->]. exact Hw. Qed.

End StableSteps.

(** Closes a side condition on the assigned properties. *)
Ltac writes_ok :=
  intros; subst; try reflexivity;
  repeat match goal with
         | H : _ = true |- _ => rewrite H
         | H : _ = false |- _ => rewrite H
         end;
  reflexivity.

(** Finds, among the hypotheses, the one that tells that a step keeps the
    invariant. *)
Ltac stable_hyp :=
  match goal with
  | H : _ |- _ => apply H; solve [assumption | writes_ok]
  end.

(** Walks through a computation built from steps that keep [P]; [other]
    deals with the parts that are no single step. *)
Ltac stable_with P other :=
  lazymatch goal with
  | |- preserves _ _ => unfold preserves; stable_with P other
  | |- triple _ (bind _ _) _ _ =>
      eapply triple_bind with (R := fun _ => P);
      [ stable_with P other | intros ?; stable_with P other ]
  | |- triple _ (ret _) _ _ => apply triple_ret; auto
  | |- triple _ (throw _) _ _ => apply triple_throw; auto
  | |- triple _ (tryCatch _ _) _ _ =>
      apply triple_tryCatch with (E' := fun _ => P);
      [ stable_with P other | intros ?; stable_with P other ]
  | |- triple _ (awaitCall _) _ _ => apply stable_awaitCall; intros; stable_hyp
  | |- triple _ getState _ _ => apply stable_read; intros; eexists; reflexivity
  | |- triple _ now _ _ => apply stable_read; intros; eexists; reflexivity
  | |- triple _ (when _ _) _ _ =>
      apply triple_when; [ intros _; stable_with P other | auto ]
  | |- triple _ (Rest.log _ _) _ _ => unfold Rest.log; stable_with P other
  | |- triple _ (Ssh.log _ _) _ _ => unfold Ssh.log; stable_with P other
  | |- triple _ (Rest.addSkipped _) _ _ => unfold Rest.addSkipped; stable_with P other
  | |- triple _ (match ?x with _ => _ end) _ _ => destruct x; stable_with P other
  | |- triple _ (if ?x then _ else _) _ _ => destruct x; stable_with P other
  | |- triple _ ?m _ _ =>
      first [ other
            | apply stable_step; [ intros; reflexivity | intros; stable_hyp ] ]
  end.

Ltac stable_steps P := stable_with P ltac:(fail).

Section Stable.

Variable P : World -> Prop.
Hypothesis P_await : forall w, P w -> P (snd (await w)).

Lemma getTRM_stable (cap : nat) (resp : TrmResponse) :
  (forall m ty w, P w -> P (snd (log cap m ty w))) ->
  preserves P (getTRM cap resp).
Proof. intros P_log. unfold getTRM. stable_steps P. Qed.

Section RestLoop.

Variable pricesOnly : bool.
Hypothesis P_log : forall m ty w, P w -> P (snd (log Rest.LOG_CAP m ty w)).
Hypothesis P_count :
  forall u w, restWrites pricesOnly u = true -> P w -> P (snd (updateProgress [u] w)).
Hypothesis P_modify :
  forall (g : RunState -> Update) w,
    (forall st, restWrites pricesOnly (g st) = true) -> P w ->
    P (snd (modify (fun st => assign1 st (g st)) w)).
Hypothesis P_progress :
  forall i s w, P w -> P (snd (updateProgress [SetProgress i; SetCurrentSet s] w)).

Lemma rest_skip_pricesOnly trm setName abbrev existing row :
  Rest.decide pricesOnly trm setName abbrev existing row = Rest.SKIP ->
  pricesOnly = true.
Proof.
  unfold Rest.decide. destruct (existing !! skuOfRow abbrev row); [discriminate | ].
  destruct pricesOnly; [reflexivity | discriminate].
Qed.

Lemma rest_planRow_stable trm setName abbrev existing row lists :
  preserves P (Rest.planRow pricesOnly trm setName abbrev existing row lists).
Proof.
  unfold Rest.planRow. destruct lists as [toCreate toUpdate].
  destruct (Rest.decide pricesOnly trm setName abbrev existing row) eqn:E;
    [stable_steps P | stable_steps P | ].
  apply rest_skip_pricesOnly in E. stable_steps P.
Qed.

Lemma rest_createStep_stable post j batch existing :
  pricesOnly = false -> preserves P (Rest.createStep post j batch existing).
Proof. intros Hfull. unfold Rest.createStep. stable_steps P. Qed.

Lemma rest_updateStep_stable post j batch u :
  preserves P (Rest.updateStep post j batch u).
Proof. unfold Rest.updateStep. stable_steps P. Qed.

Lemma rest_syncSingles_stable postCreate postUpdate trm setName abbrev singles existing :
  preserves P
    (Rest.syncSingles postCreate postUpdate pricesOnly trm setName abbrev singles
       existing).
Proof.
  unfold Rest.syncSingles. destruct singles as [ | row rows]; [stable_steps P | ].
  eapply triple_bind with (R := fun _ => P).
  { apply preserves_foldM. intros x s. apply rest_planRow_stable. }
  intros [toCreate toUpdate].
  eapply triple_bind with (R := fun _ => P).
  { destruct (negb pricesOnly) eqn:Hmode; [ | stable_steps P].
    apply negb_true_iff in Hmode.
    apply preserves_forIndexed. intros k x s. now apply rest_createStep_stable. }
  intros ex.
  eapply triple_bind with (R := fun _ => P).
  { apply preserves_forIndexed. intros k x s. apply rest_updateStep_stable. }
  intros []. stable_steps P.
Qed.

Lemma rest_processGroup_stable env trm groupsMap abbrevMap i group existing :
  preserves P
    (Rest.processGroup env pricesOnly trm groupsMap abbrevMap i group existing).
Proof.
  unfold Rest.processGroup.
  eapply triple_bind with (R := fun _ => P); [stable_steps P | intros [] ].
  eapply triple_bind with (R := fun _ => P); [stable_steps P | ].
  intros [products | ]; [apply rest_syncSingles_stable | stable_steps P].
Qed.

Lemma rest_syncGroups_stable env trm groups existing :
  preserves P (Rest.syncGroups env pricesOnly trm groups existing).
Proof.
  unfold Rest.syncGroups. apply preserves_forIndexed.
  intros k x s. apply rest_processGroup_stable.
Qed.

End RestLoop.

Section RestListing.

Hypothesis P_log : forall m ty w, P w -> P (snd (log Rest.LOG_CAP m ty w)).

Lemma rest_fetchExisting_stable answers :
  forall page existing, preserves P (Rest.fetchExisting answers page existing).
Proof.
  assert (Hstep : forall resp page existing,
             preserves P (Rest.pageStep resp page existing)).
  { intros resp page existing. unfold Rest.pageStep. stable_steps P. }
  induction answers as [ | resp rest IH]; intros page existing; simpl.
  - eapply triple_bind with (R := fun _ => P); [apply Hstep | intros r].
    stable_steps P.
  - eapply triple_bind with (R := fun _ => P); [apply Hstep | intros r].
    destruct (fst r); [apply IH | stable_steps P].
Qed.

End RestListing.

Section SshLoop.

Variable pricesOnly : bool.
Hypothesis P_log : forall m ty w, P w -> P (snd (log Ssh.LOG_CAP m ty w)).
Hypothesis P_count :
  forall u w, sshWrites pricesOnly u = true -> P w -> P (snd (updateProgress [u] w)).
Hypothesis P_progress :
  forall i s w, P w -> P (snd (updateProgress [SetProgress i; SetCurrentSet s] w)).

Lemma ssh_sqlBatches_stable sql batches :
  forall j n0, preserves P (Ssh.sqlBatches sql j batches n0).
Proof.
  induction batches as [ | b bs IH]; intros j n0; simpl; [stable_steps P | ].
  eapply triple_bind with (R := fun _ => P); [stable_steps P | intros [] ].
  destruct (sql j) as [reason | []]; [stable_steps P | ].
  eapply triple_bind with (R := fun _ => P); [stable_steps P | intros [] ].
  apply IH.
Qed.

Lemma ssh_applyPriceUpdates_stable sql updates t :
  preserves P (Ssh.applyPriceUpdates sql updates t).
Proof.
  unfold Ssh.applyPriceUpdates. destruct updates as [ | u us]; [stable_steps P | ].
  eapply triple_bind with (R := fun _ => P); [apply ssh_sqlBatches_stable | ].
  intros r. stable_steps P.
Qed.

Lemma ssh_createStep_stable wp k p l :
  pricesOnly = false -> preserves P (Ssh.createStep wp k p l).
Proof. intros Hfull. unfold Ssh.createStep. stable_steps P. Qed.

Lemma ssh_applyCreates_stable wp new l :
  preserves P (Ssh.applyCreates wp pricesOnly new l).
Proof.
  unfold Ssh.applyCreates.
  destruct (negb pricesOnly) eqn:Hmode; rewrite ?andb_false_r; [ | stable_steps P].
  apply negb_true_iff in Hmode.
  destruct (negb (Nat.eqb (length new) 0)); simpl; [ | stable_steps P].
  apply preserves_forIndexed. intros k x s. now apply ssh_createStep_stable.
Qed.

Lemma ssh_syncSingles_stable sql wp trm nGroups setName abbrev i singles l :
  preserves P
    (Ssh.syncSingles sql wp pricesOnly trm nGroups setName abbrev i singles l).
Proof.
  unfold Ssh.syncSingles. destruct singles as [ | row rows]; [stable_steps P | ].
  eapply triple_bind with (R := fun _ => P);
    [apply ssh_applyPriceUpdates_stable | intros t2].
  eapply triple_bind with (R := fun _ => P);
    [apply ssh_applyCreates_stable | intros l2].
  stable_steps P.
Qed.

Lemma ssh_processGroup_stable env trm nGroups groupsMap abbrevMap i group l :
  preserves P
    (Ssh.processGroup env pricesOnly trm nGroups groupsMap abbrevMap i group l).
Proof.
  unfold Ssh.processGroup.
  eapply triple_bind with (R := fun _ => P); [stable_steps P | intros [] ].
  eapply triple_bind with (R := fun _ => P); [stable_steps P | intros [] ].
  destruct (Ssh.setCsv env i) as [reason | products];
    [stable_steps P | apply ssh_syncSingles_stable].
Qed.

Lemma ssh_syncGroups_stable env trm groups existing :
  preserves P (Ssh.syncGroups env pricesOnly trm groups existing).
Proof.
  unfold Ssh.syncGroups. apply preserves_forIndexed.
  intros k x s. apply ssh_processGroup_stable.
Qed.

End SshLoop.

End Stable.

(** *** The log stays within its capacity *)

Section LogBound.

Variable cap : nat.

Lemma logs_assign1 (st : RunState) (u : Update) :
  keepsLogs u = true -> logs (assign1 st u) = logs st.
Proof. destruct st, u; simpl; congruence. Qed.

Lemma logs_assign (us : list Update) :
  forall st, forallb keepsLogs us = true -> logs (assign st us) = logs st.
Proof.
  unfold assign. induction us as [ | u us IH]; intros st H; simpl; [reflexivity | ].
  simpl in H. apply andb_prop in H as [Hu Hus].
  rewrite IH by exact Hus. now apply logs_assign1.
Qed.

Lemma logBounded_await (w : World) : logBounded cap w -> logBounded cap (snd (await w)).
Proof.
  intros [Hst Hev]. split; [exact Hst | ]. simpl.
  apply Forall_app. split; [exact Hev | ].
  constructor; [ | constructor]. intros st [= <-]. exact Hst.
Qed.

Lemma logBounded_log (m : Message) (ty : Severity) (w : World) :
  logBounded cap w -> logBounded cap (snd (log cap m ty w)).
Proof.
  destruct w as [st clk evs]. intros [Hst Hev]. simpl in *.
  split; simpl.
  - rewrite logs_setLogs. now apply pushLog_length.
  - apply Forall_app. split; [exact Hev | ].
    constructor; [ | constructor]. intros st' H. discriminate H.
Qed.

Lemma logBounded_assign (us : list Update) (w : World) :
  forallb keepsLogs us = true ->
  logBounded cap w -> logBounded cap (snd (updateProgress us w)).
Proof.
  destruct w as [st clk evs]. intros Hus [Hst Hev]. simpl in *.
  split; simpl.
  - now rewrite logs_assign.
  - apply Forall_app. split; [exact Hev | ].
    constructor; [ | constructor]. intros st' [= <-]. now rewrite logs_assign.
Qed.

Lemma logBounded_modify (g : RunState -> Update) (w : World) :
  (forall st, keepsLogs (g st) = true) ->
  logBounded cap w -> logBounded cap (snd (modify (fun st => assign1 st (g st)) w)).
Proof.
  destruct w as [st clk evs]. intros Hg [Hst Hev]. simpl in *.
  split; simpl; [ | exact Hev]. now rewrite logs_assign1.
Qed.

Lemma logBounded_reset (w : World) :
  logBounded cap w -> logBounded cap (snd (resetState w)).
Proof. intros [Hst Hev]. split; [simpl; lia | exact Hev]. Qed.

Lemma restWrites_keepsLogs (pricesOnly : bool) (u : Update) :
  restWrites pricesOnly u = true -> keepsLogs u = true.
Proof. destruct u; simpl; congruence. Qed.

Lemma sshWrites_keepsLogs (pricesOnly : bool) (u : Update) :
  sshWrites pricesOnly u = true -> keepsLogs u = true.
Proof. destruct u; simpl; congruence. Qed.

End LogBound.

Section LogBoundRuns.

Lemma rest_runSync_logBounded (env : Rest.Env) (mode : string) :
  preserves (logBounded Rest.LOG_CAP) (Rest.runSync env mode).
Proof.
  pose proof (logBounded_await Rest.LOG_CAP) as P_await.
  pose proof (logBounded_log Rest.LOG_CAP) as P_log.
  pose proof (fun us w H => logBounded_assign Rest.LOG_CAP us w H) as P_assign.
  pose proof (fun g w H => logBounded_modify Rest.LOG_CAP g w H) as P_modify.
  pose proof (logBounded_reset Rest.LOG_CAP) as P_reset.
  assert (Hloop : forall pricesOnly trm groups existing,
             preserves (logBounded Rest.LOG_CAP)
               (Rest.syncGroups env pricesOnly trm groups existing)).
  { intros. apply rest_syncGroups_stable; auto.
    - intros u w Hu. apply P_assign. simpl.
      now rewrite (restWrites_keepsLogs _ _ Hu).
    - intros g w Hg. apply P_modify. intros st.
      exact (restWrites_keepsLogs _ _ (Hg st)). }
  unfold Rest.runSync, Rest.runBody.
  stable_with (logBounded Rest.LOG_CAP)
    ltac:(first [ apply getTRM_stable; assumption
                | apply rest_fetchExisting_stable; assumption
                | apply Hloop ]).
Qed.

Lemma ssh_runSync_logBounded (env : Ssh.Env) (mode method : string) :
  preserves (logBounded Ssh.LOG_CAP) (Ssh.runSync env mode method).
Proof.
  pose proof (logBounded_await Ssh.LOG_CAP) as P_await.
  pose proof (logBounded_log Ssh.LOG_CAP) as P_log.
  pose proof (fun us w H => logBounded_assign Ssh.LOG_CAP us w H) as P_assign.
  pose proof (fun g w H => logBounded_modify Ssh.LOG_CAP g w H) as P_modify.
  pose proof (logBounded_reset Ssh.LOG_CAP) as P_reset.
  assert (Hloop : forall pricesOnly trm groups existing,
             preserves (logBounded Ssh.LOG_CAP)
               (Ssh.syncGroups env pricesOnly trm groups existing)).
  { intros. apply ssh_syncGroups_stable; auto.
    intros u w Hu. apply P_assign. simpl.
    now rewrite (sshWrites_keepsLogs _ _ Hu). }
  unfold Ssh.runSync, Ssh.runSSHSync.
  stable_with (logBounded Ssh.LOG_CAP)
    ltac:(first [ apply getTRM_stable; assumption | apply Hloop ]).
Qed.

End LogBoundRuns.

(** X12. A run, and a stop request, keep the log within its capacity:
    if the log of the run state, and of every run state shown so far, holds
    at most [LOG_CAP] lines, so it does afterwards. *)
Theorem log_stays_bounded :
  (forall env mode w,
      logBounded Rest.LOG_CAP w ->
      logBounded Rest.LOG_CAP (snd (Rest.runSync env mode w)))
  /\ (forall env mode method w,
         logBounded Ssh.LOG_CAP w ->
         logBounded Ssh.LOG_CAP (snd (Ssh.runSync env mode method w)))
  /\ (forall w, logBounded Ssh.LOG_CAP w -> logBounded Ssh.LOG_CAP (snd (Ssh.postStop w))).
Proof.
  split; [ | split].
  - intros env mode w Hw.
    pose proof (rest_runSync_logBounded env mode w Hw) as H.
    destruct (Rest.runSync env mode w) as [[[] | r] w']; exact H.
  - intros env mode method w Hw.
    pose proof (ssh_runSync_logBounded env mode method w Hw) as H.
    destruct (Ssh.runSync env mode method w) as [[[] | r] w']; exact H.
  - intros w Hw.
    assert (H : preserves (logBounded Ssh.LOG_CAP) Ssh.postStop).
    { pose proof (logBounded_log Ssh.LOG_CAP) as P_log.
      pose proof (fun g w H => logBounded_modify Ssh.LOG_CAP g w H) as P_modify.
      unfold Ssh.postStop. stable_steps (logBounded Ssh.LOG_CAP). }
    specialize (H w Hw). destruct (Ssh.postStop w) as [[a | r] w']; exact H.
Qed.

Lemma log_stays_bounded_witness :
  logBounded Rest.LOG_CAP Sample.world0
  /\ logBounded Rest.LOG_CAP (snd (Rest.runSync Sample.restEnv "full" Sample.world0))
  /\ logBounded Ssh.LOG_CAP Sample.world0
  /\ logBounded Ssh.LOG_CAP (snd (Ssh.runSync Sample.sshEnv "full" "ssh" Sample.world0)).
Proof.
  assert (H0 : forall cap, logBounded cap Sample.world0).
  { intros cap. split; [simpl; lia | constructor]. }
  destruct log_stays_bounded as (Hr & Hs & _).
  split; [apply H0 | ]. split; [apply Hr, H0 | ].
  split; [apply H0 | apply Hs, H0].
Defined.

(** *** A suspended run is marked as running *)

Section InFlight.

Lemma running_assign1 (st : RunState) (u : Update) :
  keepsRunning u = true -> running (assign1 st u) = running st.
Proof. destruct st, u; simpl; congruence. Qed.

Lemma running_assign (us : list Update) :
  forall st, forallb keepsRunning us = true -> running (assign st us) = running st.
Proof.
  unfold assign. induction us as [ | u us IH]; intros st H; simpl; [reflexivity | ].
  simpl in H. apply andb_prop in H as [Hu Hus].
  rewrite IH by exact Hus. now apply running_assign1.
Qed.

Lemma suspendedRunning_other (e : Event) :
  (forall st, e <> EvAwait st) -> suspendedRunning e.
Proof. intros H st E. now contradiction (H st). Qed.

Lemma inFlight_await (w : World) : inFlight w -> inFlight (snd (await w)).
Proof.
  intros [Hst Hev]. split; [exact Hst | ]. simpl.
  apply Forall_app. split; [exact Hev | ].
  constructor; [ | constructor]. intros st [= <-]. exact Hst.
Qed.

Lemma inFlight_log (cap : nat) (m : Message) (ty : Severity) (w : World) :
  inFlight w -> inFlight (snd (log cap m ty w)).
Proof.
  destruct w as [st clk evs]. intros [Hst Hev]. simpl in *.
  split; simpl.
  - now rewrite running_assign1.
  - apply Forall_app. split; [exact Hev | ].
    constructor; [ | constructor]. apply suspendedRunning_other. discriminate.
Qed.

Lemma inFlight_assign (us : list Update) (w : World) :
  forallb keepsRunning us = true ->
  inFlight w -> inFlight (snd (updateProgress us w)).
Proof.
  destruct w as [st clk evs]. intros Hus [Hst Hev]. simpl in *.
  split; simpl.
  - now rewrite running_assign.
  - apply Forall_app. split; [exact Hev | ].
    constructor; [ | constructor]. apply suspendedRunning_other. discriminate.
Qed.

Lemma inFlight_modify (g : RunState -> Update) (w : World) :
  (forall st, keepsRunning (g st) = true) ->
  inFlight w -> inFlight (snd (modify (fun st => assign1 st (g st)) w)).
Proof.
  destruct w as [st clk evs]. intros Hg [Hst Hev]. simpl in *.
  split; simpl; [ | exact Hev]. now rewrite running_assign1.
Qed.

(** Steps that do not suspend add no suspension. *)
Lemma suspensions_log (cap : nat) (m : Message) (ty : Severity) (w : World) :
  suspensionsRunning w -> suspensionsRunning (snd (log cap m ty w)).
Proof.
  intros H. unfold suspensionsRunning. simpl.
  apply Forall_app. split; [exact H | ].
  constructor; [ | constructor]. apply suspendedRunning_other. discriminate.
Qed.

Lemma suspensions_assign (us : list Update) (w : World) :
  suspensionsRunning w -> suspensionsRunning (snd (updateProgress us w)).
Proof.
  intros H. unfold suspensionsRunning. simpl.
  apply Forall_app. split; [exact H | ].
  constructor; [ | constructor]. apply suspendedRunning_other. discriminate.
Qed.

Lemma suspensions_modify (f : RunState -> RunState) (w : World) :
  suspensionsRunning w -> suspensionsRunning (snd (modify f w)).
Proof. intros H. exact H. Qed.

Lemma restWrites_keepsRunning (pricesOnly : bool) (u : Update) :
  restWrites pricesOnly u = true -> keepsRunning u = true.
Proof. destruct u; simpl; congruence. Qed.

Lemma sshWrites_keepsRunning (pricesOnly : bool) (u : Update) :
  sshWrites pricesOnly u = true -> keepsRunning u = true.
Proof. destruct u; simpl; congruence. Qed.

Lemma inFlight_suspensions (w : World) : inFlight w -> suspensionsRunning w.
Proof. intros [_ H]. exact H. Qed.

(** A part of the run that keeps the run in flight. *)
Lemma inFlight_part {A} (m : M A) :
  preserves inFlight m ->
  triple inFlight m (fun _ => inFlight) (fun _ => suspensionsRunning).
Proof.
  intros H. eapply triple_conseq; [exact H | auto | auto | ].
  intros r w. apply inFlight_suspensions.
Qed.

Ltac in_flight tac :=
  eapply triple_bind with (R := fun _ => inFlight);
  [ apply inFlight_part; tac | ].

Lemma rest_runBody_inFlight (env : Rest.Env) (pricesOnly : bool) :
  triple inFlight (Rest.runBody env pricesOnly) (fun _ => suspensionsRunning)
    (fun _ => suspensionsRunning).
Proof.
  pose proof inFlight_await as P_await.
  pose proof (inFlight_log Rest.LOG_CAP) as P_log.
  pose proof (fun us w H => inFlight_assign us w H) as P_assign.
  pose proof (fun g w H => inFlight_modify g w H) as P_modify.
  assert (Hloop : forall trm groups existing,
             preserves inFlight (Rest.syncGroups env pricesOnly trm groups existing)).
  { intros. apply rest_syncGroups_stable; auto.
    - intros u w Hu. apply P_assign. simpl.
      now rewrite (restWrites_keepsRunning _ _ Hu).
    - intros g w Hg. apply P_modify. intros st.
      exact (restWrites_keepsRunning _ _ (Hg st)). }
  unfold Rest.runBody.
  do 2 (in_flight ltac:(idtac; stable_steps inFlight); intros []).
  in_flight ltac:(idtac; stable_steps inFlight); intros groups.
  do 2 (in_flight ltac:(idtac; stable_steps inFlight); intros []).
  in_flight ltac:(idtac; apply getTRM_stable; assumption); intros trm.
  do 3 (in_flight ltac:(idtac; stable_steps inFlight); intros []).
  destruct (Rest.connect env) as [reason | []].
  { apply triple_throw. intros w. apply inFlight_suspensions. }
  do 2 (in_flight ltac:(idtac; stable_steps inFlight); intros []).
  in_flight ltac:(idtac; apply rest_fetchExisting_stable; assumption); intros existing.
  do 3 (in_flight ltac:(idtac; stable_steps inFlight); intros []).
  in_flight ltac:(idtac; apply Hloop); intros _.
  clear P_await P_log P_assign P_modify Hloop.
  pose proof (suspensions_log Rest.LOG_CAP) as Q_log.
  pose proof suspensions_assign as Q_assign.
  pose proof suspensions_modify as Q_modify.
  eapply triple_conseq with (P := suspensionsRunning);
    [ | exact inFlight_suspensions | intros a w H; exact H | intros r w H; exact H].
  stable_steps suspensionsRunning.
Qed.

Lemma ssh_runSSHSync_inFlight (env : Ssh.Env) (mode : string) :
  preserves inFlight (Ssh.runSSHSync env mode).
Proof.
  pose proof inFlight_await as P_await.
  pose proof (inFlight_log Ssh.LOG_CAP) as P_log.
  pose proof (fun us w H => inFlight_assign us w H) as P_assign.
  pose proof (fun g w H => inFlight_modify g w H) as P_modify.
  assert (Hloop : forall pricesOnly trm groups existing,
             preserves inFlight (Ssh.syncGroups env pricesOnly trm groups existing)).
  { intros. apply ssh_syncGroups_stable; auto.
    intros u w Hu. apply P_assign. simpl.
    now rewrite (sshWrites_keepsRunning _ _ Hu). }
  unfold Ssh.runSSHSync.
  stable_with inFlight
    ltac:(first [ apply getTRM_stable; assumption | apply Hloop ]).
Qed.

End InFlight.

(** X13. Whenever a run is suspended, waiting for a download or for the
    store, the run state says that a run is in progress: a request that
    arrives meanwhile sees [running] set. *)
Theorem suspended_run_is_marked_running :
  (forall env mode st0 t0,
      Forall suspendedRunning
        (events (snd (Rest.runSync env mode
                        {| syncState := st0; clock := t0; events := [] |}))))
  /\ (forall env mode method st0 t0,
         Forall suspendedRunning
           (events (snd (Ssh.runSync env mode method
                           {| syncState := st0; clock := t0; events := [] |})))).
Proof.
  split.
  - intros env mode st0 t0. unfold Rest.runSync, bind at 1, getState.
    cbn [syncState]. destruct (running st0) eqn:Hrun.
    + simpl. constructor; [ | constructor].
      apply suspendedRunning_other. discriminate.
    + pose proof (rest_runBody_inFlight env (String.eqb mode "prices")) as Hbody.
      generalize dependent (Rest.runBody env (String.eqb mode "prices")).
      intros body Hbody.
      cbv beta iota zeta delta [bind resetState modify now updateProgress getState emit
                                  tryCatch fst snd syncState clock events Rest.log log].
      match goal with
      | |- context [body ?w1] => assert (Hw1 : inFlight w1)
      end.
      { split; [reflexivity | ]. simpl.
        repeat (constructor; [apply suspendedRunning_other; discriminate | ]).
        constructor. }
      match goal with
      | |- context [body ?w1] =>
          specialize (Hbody w1 Hw1); destruct (body w1) as [[[] | reason] [st2 c2 e2]]
      end.
      * exact Hbody.
      * unfold suspensionsRunning in Hbody. simpl in Hbody |- *.
        apply Forall_app. split; [apply Forall_app; split; [exact Hbody | ] | ];
          (constructor; [apply suspendedRunning_other; discriminate | constructor]).
  - intros env mode method st0 t0. unfold Ssh.runSync, bind at 1, getState.
    cbn [syncState]. destruct (running st0) eqn:Hrun.
    + simpl. constructor; [ | constructor].
      apply suspendedRunning_other. discriminate.
    + set (body := if String.eqb method "ssh" && strTruthy (Ssh.SSH_PASS env)
                   then Ssh.runSSHSync env mode else throw _).
      assert (Hbody : preserves inFlight body).
      { unfold body. destruct (String.eqb method "ssh" && strTruthy (Ssh.SSH_PASS env)).
        - apply ssh_runSSHSync_inFlight.
        - apply triple_throw. auto. }
      generalize dependent body. intros body Hbody.
      cbv beta iota zeta delta [bind resetState modify now updateProgress getState emit
                                  tryCatch fst snd syncState clock events Ssh.log log].
      match goal with
      | |- context [body ?w1] => assert (Hw1 : inFlight w1)
      end.
      { split; [reflexivity | ]. simpl.
        repeat (constructor; [apply suspendedRunning_other; discriminate | ]).
        constructor. }
      match goal with
      | |- context [body ?w1] =>
          specialize (Hbody w1 Hw1); destruct (body w1) as [[t | reason] [st2 c2 e2]]
      end.
      * destruct Hbody as [_ Hev]. simpl in Hev |- *.
        apply Forall_app. split; [apply Forall_app; split; [exact Hev | ] | ];
          (constructor; [apply suspendedRunning_other; discriminate | constructor]).
      * destruct Hbody as [_ Hev]. simpl in Hev |- *.
        apply Forall_app. split; [apply Forall_app; split; [exact Hev | ] | ];
          (constructor; [apply suspendedRunning_other; discriminate | constructor]).
Qed.

(** *** What the group loop leaves alone *)

Section Frames.

Variable pricesOnly : bool.

Lemma restFrame_assign1 (st : RunState) (u : Update) :
  restWrites pricesOnly u = true \/ u = SetLogs (logs (assign1 st u))
  \/ (exists i, u = SetProgress i) \/ (exists s, u = SetCurrentSet s) ->
  restFrame pricesOnly (assign1 st u) = restFrame pricesOnly st.
Proof.
  intros [H | [H | [[i ->] | [s ->]]]]; destruct st; try reflexivity.
  - destruct u, pricesOnly; try discriminate H; reflexivity.
  - destruct u; try discriminate H. reflexivity.
Qed.

Lemma sshFrame_assign1 (st : RunState) (u : Update) :
  sshWrites pricesOnly u = true \/ u = SetLogs (logs (assign1 st u))
  \/ (exists i, u = SetProgress i) \/ (exists s, u = SetCurrentSet s) ->
  sshFrame pricesOnly (assign1 st u) = sshFrame pricesOnly st.
Proof.
  intros [H | [H | [[i ->] | [s ->]]]]; destruct st; try reflexivity.
  - destruct u, pricesOnly; try discriminate H; reflexivity.
  - destruct u; try discriminate H. reflexivity.
Qed.

Lemma rest_loop_frame env trm groups existing v :
  preserves (fun w => restFrame pricesOnly (syncState w) = v)
    (Rest.syncGroups env pricesOnly trm groups existing).
Proof.
  apply rest_syncGroups_stable.
  - intros w H. exact H.
  - intros m ty [st clk evs] H. simpl in *. rewrite <- H.
    apply restFrame_assign1. right. left. now rewrite logs_setLogs.
  - intros u [st clk evs] Hu H. simpl in *. rewrite <- H.
    apply restFrame_assign1. now left.
  - intros g [st clk evs] Hg H. simpl in *. rewrite <- H.
    apply restFrame_assign1. left. apply Hg.
  - intros i s [st clk evs] H. simpl in *. rewrite <- H.
    rewrite restFrame_assign1 by (right; right; right; eauto).
    apply restFrame_assign1. right. right. left. eauto.
Qed.

Lemma ssh_loop_frame env trm groups existing v :
  preserves (fun w => sshFrame pricesOnly (syncState w) = v)
    (Ssh.syncGroups env pricesOnly trm groups existing).
Proof.
  apply ssh_syncGroups_stable.
  - intros w H. exact H.
  - intros m ty [st clk evs] H. simpl in *. rewrite <- H.
    apply sshFrame_assign1. right. left. now rewrite logs_setLogs.
  - intros u [st clk evs] Hu H. simpl in *. rewrite <- H.
    apply sshFrame_assign1. now left.
  - intros i s [st clk evs] H. simpl in *. rewrite <- H.
    rewrite sshFrame_assign1 by (right; right; right; eauto).
    apply sshFrame_assign1. right. right. left. eauto.
Qed.

End Frames.

(** X14. The loop over the groups leaves alone [running], the phase, the
    total, the times and the mode of the run state (in the SSH server also
    [skipped], [errors], the method and the stop flag); in prices-only mode
    it leaves [created] alone, and in full mode the REST server leaves
    [skipped] alone. *)
Theorem group_loop_frame :
  (forall env pricesOnly trm groups existing w,
      let st := syncState w in
      let st' := syncState (snd (Rest.syncGroups env pricesOnly trm groups existing w)) in
      running st' = running st /\ phase st' = phase st /\ total st' = total st
      /\ startTime st' = startTime st /\ endTime st' = endTime st
      /\ mode st' = mode st
      /\ (pricesOnly = true -> created st' = created st)
      /\ (pricesOnly = false -> skipped st' = skipped st))
  /\ (forall env pricesOnly trm groups existing w,
         let st := syncState w in
         let st' := syncState (snd (Ssh.syncGroups env pricesOnly trm groups existing w)) in
         running st' = running st /\ phase st' = phase st /\ total st' = total st
         /\ skipped st' = skipped st /\ errors st' = errors st
         /\ startTime st' = startTime st /\ endTime st' = endTime st
         /\ mode st' = mode st /\ method st' = method st
         /\ stopping st' = stopping st
         /\ (pricesOnly = true -> created st' = created st)).
Proof.
  split.
  - intros env pricesOnly trm groups existing w st st'.
    assert (H : restFrame pricesOnly st' = restFrame pricesOnly st).
    { pose proof (rest_loop_frame pricesOnly env trm groups existing _ w eq_refl) as H.
      subst st st'.
      destruct (Rest.syncGroups env pricesOnly trm groups existing w) as [[a | r] w'];
        exact H. }
    unfold restFrame in H. injection H as H1 H2 H3 H4 H5 H6 H7.
    repeat (split; [assumption | ]).
    split; intros ->; exact H7.
  - intros env pricesOnly trm groups existing w st st'.
    assert (H : sshFrame pricesOnly st' = sshFrame pricesOnly st).
    { pose proof (ssh_loop_frame pricesOnly env trm groups existing _ w eq_refl) as H.
      subst st st'.
      destruct (Ssh.syncGroups env pricesOnly trm groups existing w) as [[a | r] w'];
        exact H. }
    unfold sshFrame in H. injection H as H1 H2 H3 H4 H5 H6 H7 H8 H9 H10 H11.
    repeat (split; [assumption | ]).
    intros ->; exact H11.
Qed.

(** *** Prices-only mode creates nothing *)

Section PricesOnly.

Lemma triple_both {A} (P : World -> Prop) (m : M A) (Q : A -> Prop) :
  yields m Q -> preserves P m ->
  triple P m (fun a w => Q a /\ P w) (fun _ => P).
Proof.
  intros Hy Hp w Hw. specialize (Hy w I). specialize (Hp w Hw).
  destruct (m w) as [[a | r] w']; [split; assumption | exact Hp].
Qed.

Lemma created_assign1 (st : RunState) (u : Update) :
  keepsCreated u = true -> created (assign1 st u) = created st.
Proof. destruct st, u; simpl; congruence. Qed.

Lemma created_assign (us : list Update) :
  forall st, forallb keepsCreated us = true -> created (assign st us) = created st.
Proof.
  unfold assign. induction us as [ | u us IH]; intros st H; simpl; [reflexivity | ].
  simpl in H. apply andb_prop in H as [Hu Hus].
  rewrite IH by exact Hus. now apply created_assign1.
Qed.

Lemma noneCreated_await (w : World) : noneCreated w -> noneCreated (snd (await w)).
Proof. intros H. exact H. Qed.

Lemma noneCreated_log (cap : nat) (m : Message) (ty : Severity) (w : World) :
  noneCreated w -> noneCreated (snd (log cap m ty w)).
Proof.
  destruct w as [st clk evs]. unfold noneCreated. simpl. intros H.
  now rewrite created_assign1.
Qed.

Lemma noneCreated_assign (us : list Update) (w : World) :
  forallb keepsCreated us = true ->
  noneCreated w -> noneCreated (snd (updateProgress us w)).
Proof.
  destruct w as [st clk evs]. unfold noneCreated. simpl. intros Hus H.
  now rewrite created_assign.
Qed.

Lemma noneCreated_modify (g : RunState -> Update) (w : World) :
  (forall st, keepsCreated (g st) = true) ->
  noneCreated w -> noneCreated (snd (modify (fun st => assign1 st (g st)) w)).
Proof.
  destruct w as [st clk evs]. unfold noneCreated. simpl. intros Hg H.
  now rewrite created_assign1.
Qed.

Lemma restWrites_keepsCreated (u : Update) :
  restWrites true u = true -> keepsCreated u = true.
Proof. destruct u; simpl; congruence. Qed.

Lemma sshWrites_keepsCreated (u : Update) :
  sshWrites true u = true -> keepsCreated u = true.
Proof. destruct u; simpl; congruence. Qed.

Lemma rest_decide_prices trm setName abbrev existing row c :
  Rest.decide true trm setName abbrev existing row <> Rest.CREATE c.
Proof.
  unfold Rest.decide. destruct (existing !! skuOfRow abbrev row); discriminate.
Qed.

Lemma ssh_decide_prices trm setName abbrev existing row p :
  Ssh.decide true trm setName abbrev existing row <> Ssh.CREATE p.
Proof.
  unfold Ssh.decide. destruct (existing !! skuOfRow abbrev row) as [e | ];
    [destruct (Ssh.priceChanged _ _) | ]; discriminate.
Qed.

Lemma triple_idle {A} (m m' : M A) (Q : A -> World -> Prop) E :
  triple (fun _ => True) m' Q E ->
  triple (fun w => running (syncState w) = false)
    (st <- getState ;; if running st then m else m') Q E.
Proof.
  intros H w Hw. unfold bind, getState. rewrite Hw. now apply H.
Qed.

Lemma rest_prices_run (env : Rest.Env) :
  triple (fun w => running (syncState w) = false) (Rest.runSync env "prices")
    (fun _ => noneCreated) (fun _ => noneCreated).
Proof.
  pose proof noneCreated_await as P_await.
  pose proof (noneCreated_log Rest.LOG_CAP) as P_log.
  pose proof (fun us w H => noneCreated_assign us w H) as P_assign.
  pose proof (fun g w H => noneCreated_modify g w H) as P_modify.
  assert (Hloop : forall trm groups existing,
             preserves noneCreated (Rest.syncGroups env true trm groups existing)).
  { intros. apply rest_syncGroups_stable; auto.
    - intros u w Hu. apply P_assign. simpl.
      now rewrite (restWrites_keepsCreated _ Hu).
    - intros g w Hg. apply P_modify. intros st.
      exact (restWrites_keepsCreated _ (Hg st)). }
  unfold Rest.runSync. apply triple_idle.
  change (String.eqb "prices" "prices") with true. cbv zeta.
  eapply triple_bind with (R := fun _ => noneCreated).
  { apply triple_step with (f := fun w => snd (resetState w)); reflexivity. }
  intros []. unfold Rest.runBody.
  stable_with noneCreated
    ltac:(first [ apply getTRM_stable; assumption
                | apply rest_fetchExisting_stable; assumption
                | apply Hloop ]).
Qed.

Lemma planOf_prices trm setName abbrev existing (singles : list RawRow) :
  forall plan0,
    Ssh.newProducts
      (fold_left (Ssh.planRow true trm setName abbrev existing) singles plan0)
    = Ssh.newProducts plan0.
Proof.
  induction singles as [ | row rows IH]; intros plan0; simpl; [reflexivity | ].
  rewrite IH. unfold Ssh.planRow.
  pose proof (ssh_decide_prices trm setName abbrev existing row) as Hd.
  destruct (Ssh.decide true trm setName abbrev existing row) as [p | u | ];
    [now contradiction (Hd p) | reflexivity | reflexivity].
Qed.

Lemma ssh_syncSingles_prices sql wp trm nGroups setName abbrev i singles l :
  yields (Ssh.syncSingles sql wp true trm nGroups setName abbrev i singles l)
    (fun l' => Ssh.totalCreated (Ssh.totals l') = Ssh.totalCreated (Ssh.totals l)).
Proof.
  unfold Ssh.syncSingles. destruct singles as [ | row rows]; [now apply yields_ret | ].
  eapply yields_bind; [apply applyPriceUpdates_count | ].
  intros t2 (_ & Hc & _). simpl in Hc.
  unfold Ssh.applyCreates. rewrite andb_false_r, bind_ret.
  eapply yields_bind;
    [apply yields_when; exact (yields_step _ _ (log_step Ssh.LOG_CAP _ _)) | intros _ _].
  apply yields_ret. exact Hc.
Qed.

Lemma ssh_syncGroups_prices env trm groups existing :
  yields (Ssh.syncGroups env true trm groups existing)
    (fun l => Ssh.totalCreated (Ssh.totals l) = 0).
Proof.
  unfold Ssh.syncGroups.
  pose proof (yields_forIndexed
                (Ssh.processGroup env true trm (length groups) (groupsMapOf groups)
                   (abbrevMapOf groups))
                (fun _ l => Ssh.totalCreated (Ssh.totals l) = 0) groups 0) as H.
  apply H; [ | reflexivity].
  intros k group l _ Hl. unfold Ssh.processGroup.
  eapply yields_bind;
    [exact (yields_step _ _ (updateProgress_step _)) | intros _ _].
  eapply yields_bind; [exact (yields_step _ _ await_step) | intros _ _].
  destruct (Ssh.setCsv env (0 + k)) as [reason | products].
  - now apply yields_ret.
  - eapply yields_conseq; [apply ssh_syncSingles_prices | ].
    intros l' Hl'. congruence.
Qed.

Lemma ssh_loop_prices (env : Ssh.Env) trm groups existing :
  triple noneCreated (Ssh.syncGroups env true trm groups existing)
    (fun l w => Ssh.totalCreated (Ssh.totals l) = 0 /\ noneCreated w)
    (fun _ => noneCreated).
Proof.
  apply triple_both; [apply ssh_syncGroups_prices | ].
  apply ssh_syncGroups_stable.
  - apply noneCreated_await.
  - apply noneCreated_log.
  - intros u w Hu. apply noneCreated_assign. simpl.
    now rewrite (sshWrites_keepsCreated _ Hu).
  - intros i s w. now apply noneCreated_assign.
Qed.

Lemma ssh_runSSHSync_prices (env : Ssh.Env) :
  preserves noneCreated (Ssh.runSSHSync env "prices").
Proof.
  pose proof noneCreated_await as P_await.
  pose proof (noneCreated_log Ssh.LOG_CAP) as P_log.
  pose proof (fun us w H => noneCreated_assign us w H) as P_assign.
  pose proof (fun g w H => noneCreated_modify g w H) as P_modify.
  unfold Ssh.runSSHSync. change (String.eqb "prices" "prices") with true.
  do 4 (eapply triple_bind with (R := fun _ => noneCreated);
        [stable_steps noneCreated | intros [] ]).
  eapply triple_bind with (R := fun _ => noneCreated);
    [stable_steps noneCreated | intros groups].
  do 2 (eapply triple_bind with (R := fun _ => noneCreated);
        [stable_steps noneCreated | intros [] ]).
  eapply triple_bind with (R := fun _ => noneCreated);
    [apply getTRM_stable; assumption | intros trm].
  do 3 (eapply triple_bind with (R := fun _ => noneCreated);
        [stable_steps noneCreated | intros [] ]).
  eapply triple_bind with (R := fun _ => noneCreated);
    [stable_steps noneCreated | intros raw].
  do 3 (eapply triple_bind with (R := fun _ => noneCreated);
        [stable_steps noneCreated | intros [] ]).
  eapply triple_bind; [apply ssh_loop_prices | ].
  intros l [st clk evs] [Hl Hw]. unfold noneCreated. destruct st. simpl. exact Hl.
Qed.

Lemma ssh_prices_run (env : Ssh.Env) (method : string) :
  triple (fun w => running (syncState w) = false) (Ssh.runSync env "prices" method)
    (fun _ => noneCreated) (fun _ => noneCreated).
Proof.
  pose proof noneCreated_await as P_await.
  pose proof (noneCreated_log Ssh.LOG_CAP) as P_log.
  pose proof (fun us w H => noneCreated_assign us w H) as P_assign.
  pose proof (fun g w H => noneCreated_modify g w H) as P_modify.
  unfold Ssh.runSync. apply triple_idle.
  eapply triple_bind with (R := fun _ => noneCreated).
  { apply triple_step with (f := fun w => snd (resetState w)); reflexivity. }
  intros [].
  stable_with noneCreated
    ltac:(idtac;
          lazymatch goal with
          | |- triple _ (Ssh.runSSHSync _ _) _ _ => apply ssh_runSSHSync_prices
          end).
Qed.

End PricesOnly.

(** X16. A run in prices-only mode that starts from an idle state ends
    with [created] at zero, in both servers, whatever the feed and the store
    answer; in that mode no row is planned for creation. *)
Theorem prices_mode_creates_nothing :
  (forall env w,
      running (syncState w) = false ->
      created (syncState (snd (Rest.runSync env "prices" w))) = 0)
  /\ (forall env method w,
         running (syncState w) = false ->
         created (syncState (snd (Ssh.runSync env "prices" method w))) = 0)
  /\ (forall trm setName abbrev existing row c,
         Rest.decide true trm setName abbrev existing row <> Rest.CREATE c)
  /\ (forall trm setName abbrev existing row p,
         Ssh.decide true trm setName abbrev existing row <> Ssh.CREATE p).
Proof.
  split; [ | split; [ | split] ].
  - intros env w Hrun.
    pose proof (rest_prices_run env w Hrun) as H.
    destruct (Rest.runSync env "prices" w) as [[[] | r] w']; exact H.
  - intros env method w Hrun.
    pose proof (ssh_prices_run env method w Hrun) as H.
    destruct (Ssh.runSync env "prices" method w) as [[[] | r] w']; exact H.
  - intros. apply rest_decide_prices.
  - intros. apply ssh_decide_prices.
Qed.

Lemma prices_mode_creates_nothing_witness :
  running (syncState Sample.world0) = false
  /\ created (syncState (snd (Rest.runSync Sample.restEnv "prices" Sample.world0))) = 0
  /\ created (syncState (snd (Ssh.runSync Sample.sshEnv "prices" "ssh" Sample.world0))) = 0.
Proof.
  destruct prices_mode_creates_nothing as (Hr & Hs & _).
  split; [reflexivity | ].
  split; [apply Hr; reflexivity | apply Hs; reflexivity].
Defined.

(** ** Counters of the REST server *)

Section RestCounters.

Lemma triple_foldM {A St} (body : A -> St -> M St)
  (I : nat -> St -> World -> Prop) E (l : list A) :
  forall i0,
    (forall k x s, l !! k = Some x ->
                   triple (I (i0 + k) s) (body x s) (I (S (i0 + k))) E) ->
    forall s, triple (I i0 s) (foldM body l s) (I (i0 + length l)) E.
Proof.
  induction l as [ | x t IH]; intros i0 Hbody s; simpl.
  - apply triple_ret. intros w H. now rewrite Nat.add_0_r.
  - eapply triple_bind.
    + specialize (Hbody 0 x s eq_refl). rewrite Nat.add_0_r in Hbody. exact Hbody.
    + intros s'. eapply triple_conseq.
      * apply (IH (S i0)). intros k y s0 Hk.
        specialize (Hbody (S k) y s0 Hk).
        now rewrite Nat.add_succ_r in Hbody.
      * auto.
      * intros a w H. now rewrite Nat.add_succ_r.
      * auto.
Qed.

(** A fact that the precondition carries. *)
Lemma triple_fact {A} (P : World -> Prop) (fact : Prop) (m : M A) Q E :
  (fact -> triple P m Q E) -> triple (fun w => P w /\ fact) m Q E.
Proof. intros H w [Hw Hf]. now apply H. Qed.

(** A value and a fact about it that the precondition carries. *)
Lemma triple_some {A X} (P : X -> World -> Prop) (fact : X -> Prop) (m : M A) Q E :
  (forall x, fact x -> triple (P x) m Q E) ->
  triple (fun w => exists x, P x w /\ fact x) m Q E.
Proof. intros H w (x & Hw & Hf). now apply (H x). Qed.

(** A step that leaves the three counters alone. *)
Lemma counters_step (m : M unit) (c : nat * nat * nat) E :
  (forall w, m w = (Ok tt, snd (m w))) ->
  (forall w, counters (snd (m w)) = counters w) ->
  triple (fun w => counters w = c) m (fun _ w => counters w = c) E.
Proof.
  intros Em Hc. apply triple_step with (f := fun w => snd (m w)); [exact Em | ].
  intros w H. now rewrite Hc.
Qed.

Lemma counters_await (w : World) : counters (snd (await w)) = counters w.
Proof. reflexivity. Qed.

Lemma counters_log (cap : nat) (m : Message) (ty : Severity) (w : World) :
  counters (snd (log cap m ty w)) = counters w.
Proof. destruct w as [[] clk evs]. reflexivity. Qed.

Lemma rest_planRows_count pricesOnly trm setName abbrev existing singles c u s :
  triple (fun w => counters w = (c, u, s))
    (foldM (Rest.planRow pricesOnly trm setName abbrev existing) singles ([], []))
    (fun lists w =>
       exists k, counters w = (c, u, s + k)
                 /\ (length (fst lists) + length (snd lists) + k = length singles
                     /\ (pricesOnly = true -> fst lists = [])))
    never.
Proof.
  pose proof (triple_foldM (Rest.planRow pricesOnly trm setName abbrev existing)
                (fun i lists w =>
                   exists k, counters w = (c, u, s + k)
                             /\ length (fst lists) + length (snd lists) + k = i
                             /\ (pricesOnly = true -> fst lists = []))
                never singles 0) as H.
  eapply triple_conseq; [apply H | | auto | auto].
  - intros k row [toCreate toUpdate] _. unfold Rest.planRow. simpl.
    destruct (Rest.decide pricesOnly trm setName abbrev existing row) as [d | d | ] eqn:Ed.
    + apply triple_ret. intros w (n & Hc & Hn & Hp). exists n. simpl.
      rewrite length_app. simpl. split; [exact Hc | ]. split; [lia | ].
      intros ->. unfold Rest.decide in Ed.
      destruct (existing !! skuOfRow abbrev row); discriminate Ed.
    + apply triple_ret. intros w (n & Hc & Hn & Hp). exists n. simpl.
      rewrite length_app. simpl. split; [exact Hc | ]. split; [lia | exact Hp].
    + intros [st clk evs] (n & Hc & Hn & Hp). destruct st.
      unfold counters in *. simpl in *. injection Hc as -> -> ->.
      exists (S n). split; [f_equal; lia | ]. split; [lia | exact Hp].
  - intros w Hw. exists 0. simpl. rewrite Nat.add_0_r. auto.
Qed.

Lemma rest_createStep_count post j batch existing c u s :
  triple (fun w => counters w = (c, u, s))
    (Rest.createStep post j batch existing)
    (fun _ w =>
       exists n, counters w = (c + n, u, s) /\ n <= length batch
                 /\ (post j = inr tt -> n = length batch))
    never.
Proof.
  intros [st clk evs] Hc. destruct st. unfold counters in Hc. simpl in Hc.
  injection Hc as -> -> ->.
  unfold Rest.createStep, tryCatch, bind, awaitCall, await, throw, ret.
  destruct (post j) as [reason | []]; cbn.
  - exists 0. rewrite Nat.add_0_r. split; [reflexivity | ]. split; [lia | discriminate].
  - exists (length batch). split; [reflexivity | ]. split; [lia | reflexivity].
Qed.

Lemma rest_updateStep_count post j batch c u s :
  triple (fun w => counters w = (c, u, s))
    (Rest.updateStep post j batch tt)
    (fun _ w =>
       exists n, counters w = (c, u + n, s) /\ n <= length batch
                 /\ (post j = inr tt -> n = length batch))
    never.
Proof.
  intros [st clk evs] Hc. destruct st. unfold counters in Hc. simpl in Hc.
  injection Hc as -> -> ->.
  unfold Rest.updateStep, tryCatch, bind, awaitCall, await, throw, ret.
  destruct (post j) as [reason | []]; cbn.
  - exists 0. rewrite Nat.add_0_r. split; [reflexivity | ]. split; [lia | discriminate].
  - exists (length batch). split; [reflexivity | ]. split; [lia | reflexivity].
Qed.

Lemma concat_take_S {A} (l : list (list A)) (k : nat) (x : list A) :
  l !! k = Some x ->
  length (concat (take (S k) l)) = length (concat (take k l)) + length x.
Proof.
  intros H. rewrite (take_S_r l k x H), concat_app, length_app. simpl.
  rewrite length_app. simpl. lia.
Qed.

Lemma rest_createLoop_count post batches existing c u s :
  triple (fun w => counters w = (c, u, s))
    (forIndexed (Rest.createStep post) 0 batches existing)
    (fun _ w =>
       exists n, counters w = (c + n, u, s) /\ n <= length (concat batches)
                 /\ (allPosted post -> n = length (concat batches)))
    never.
Proof.
  pose proof (triple_forIndexed (Rest.createStep post)
                (fun k _ w =>
                   exists n, counters w = (c + n, u, s)
                             /\ n <= length (concat (take k batches))
                             /\ (allPosted post -> n = length (concat (take k batches))))
                never batches 0) as H.
  eapply triple_conseq; [apply H | | | auto].
  - intros k batch ex Hk w (n & Hc & Hle & Hall). simpl in Hle, Hall |- *.
    pose proof (rest_createStep_count post k batch ex (c + n) u s w Hc) as Hs.
    destruct (Rest.createStep post k batch ex w) as [[ex' | r] w']; [ | exact Hs].
    destruct Hs as (n' & Hc' & Hle' & Hall'). exists (n + n').
    rewrite (concat_take_S _ _ _ Hk).
    split; [rewrite Hc'; f_equal; f_equal; lia | ].
    split; [lia | ]. intros Hp. rewrite (Hall Hp), (Hall' (Hp k)). reflexivity.
  - intros w Hw. exists 0. simpl. rewrite Nat.add_0_r.
    split; [exact Hw | ]. split; [lia | reflexivity].
  - intros ex w. simpl. now rewrite firstn_all.
Qed.

Lemma rest_updateLoop_count post batches c u s :
  triple (fun w => counters w = (c, u, s))
    (forIndexed (Rest.updateStep post) 0 batches tt)
    (fun _ w =>
       exists n, counters w = (c, u + n, s) /\ n <= length (concat batches)
                 /\ (allPosted post -> n = length (concat batches)))
    never.
Proof.
  pose proof (triple_forIndexed (Rest.updateStep post)
                (fun k _ w =>
                   exists n, counters w = (c, u + n, s)
                             /\ n <= length (concat (take k batches))
                             /\ (allPosted post -> n = length (concat (take k batches))))
                never batches 0) as H.
  eapply triple_conseq; [apply H | | | auto].
  - intros k batch [] Hk w (n & Hc & Hle & Hall). simpl in Hle, Hall |- *.
    pose proof (rest_updateStep_count post k batch c (u + n) s w Hc) as Hs.
    destruct (Rest.updateStep post k batch tt w) as [[[] | r] w']; [ | exact Hs].
    destruct Hs as (n' & Hc' & Hle' & Hall'). exists (n + n').
    rewrite (concat_take_S _ _ _ Hk).
    split; [rewrite Hc'; f_equal; f_equal; lia | ].
    split; [lia | ]. intros Hp. rewrite (Hall Hp), (Hall' (Hp k)). reflexivity.
  - intros w Hw. exists 0. simpl. rewrite Nat.add_0_r.
    split; [exact Hw | ]. split; [lia | reflexivity].
  - intros ex w. simpl. now rewrite firstn_all.
Qed.

Lemma rest_syncSingles_count postCreate postUpdate pricesOnly trm setName abbrev
  singles existing c u s :
  triple (fun w => counters w = (c, u, s))
    (Rest.syncSingles postCreate postUpdate pricesOnly trm setName abbrev singles
       existing)
    (fun _ w =>
       exists nc nu ns,
         counters w = (c + nc, u + nu, s + ns)
         /\ nc + nu + ns <= length singles
         /\ (allPosted postCreate -> allPosted postUpdate ->
             nc + nu + ns = length singles))
    never.
Proof.
  unfold Rest.syncSingles. destruct singles as [ | row rows].
  { apply triple_ret. intros w Hw. exists 0, 0, 0. rewrite !Nat.add_0_r.
    split; [exact Hw | ]. split; [simpl; lia | reflexivity]. }
  set (singles := row :: rows).
  eapply triple_bind; [apply rest_planRows_count | ].
  intros [toCreate toUpdate]. cbn [fst snd].
  apply triple_some. intros ns [Hlen Hp].
  eapply triple_bind with
    (R := fun _ w =>
            exists nc, counters w = (c + nc, u, s + ns)
                       /\ (nc <= length toCreate
                           /\ (allPosted postCreate -> nc = length toCreate))).
  { destruct (negb pricesOnly) eqn:Hmode.
    - eapply triple_conseq;
        [apply (rest_createLoop_count postCreate _ existing c u (s + ns))
        | intros w0 H0; exact H0 | | auto].
      intros ex w. cbv beta. rewrite chunks_concat by (unfold Rest.BATCH_SIZE; lia). auto.
    - apply negb_false_iff in Hmode. rewrite (Hp Hmode).
      apply triple_ret. intros w Hw. exists 0. rewrite Nat.add_0_r. auto. }
  intros ex. apply triple_some. intros nc [Hle Hall].
  eapply triple_bind;
    [apply (rest_updateLoop_count postUpdate _ (c + nc) u (s + ns)) | ].
  intros []. rewrite chunks_concat by (unfold Rest.BATCH_SIZE; lia).
  apply triple_some. intros nu [Hle' Hall'].
  eapply triple_bind with (R := fun _ w => counters w = (c + nc, u + nu, s + ns)).
  { apply triple_when; [intros _ | auto].
    apply counters_step; [intros; reflexivity | intros; apply counters_log]. }
  intros []. apply triple_ret. intros w Hw. exists nc, nu, ns.
  split; [exact Hw | ]. split; [lia | ].
  intros H1 H2. rewrite (Hall H1), (Hall' H2). lia.
Qed.

End RestCounters.

(** X22. One round of the group loop of [server.js] never fails and never
    lowers a counter; created, updated and skipped together grow by at most
    the number of rows of the group that pass the filter, and by exactly
    that number when every batch call succeeds. *)
Theorem rest_group_counters (env : Rest.Env) (pricesOnly : bool) (trm : number)
  (groupsMap abbrevMap : gmap string (maybe string)) (i : nat) (group : RawRow)
  (existing : gmap string Rest.Existing) (w : World) :
  exists existing' w',
    Rest.processGroup env pricesOnly trm groupsMap abbrevMap i group existing w
    = (Ok existing', w')
    /\ created (syncState w) <= created (syncState w')
    /\ updated (syncState w) <= updated (syncState w')
    /\ skipped (syncState w) <= skipped (syncState w')
    /\ restCount w' <= restCount w + sellableCount (Rest.setCsv env i)
    /\ (allPosted (Rest.createBatch env i) -> allPosted (Rest.updateBatch env i) ->
        restCount w' = restCount w + sellableCount (Rest.setCsv env i)).
Proof.
  assert (H : triple (fun w0 => counters w0 = counters w)
                (Rest.processGroup env pricesOnly trm groupsMap abbrevMap i group existing)
                (fun _ w' =>
                   exists nc nu ns,
                     counters w'
                     = (created (syncState w) + nc, updated (syncState w) + nu,
                        skipped (syncState w) + ns)
                     /\ nc + nu + ns <= sellableCount (Rest.setCsv env i)
                     /\ (allPosted (Rest.createBatch env i) ->
                         allPosted (Rest.updateBatch env i) ->
                         nc + nu + ns = sellableCount (Rest.setCsv env i)))
                never).
  { unfold Rest.processGroup.
    eapply triple_bind with (R := fun _ w0 => counters w0 = counters w).
    { apply counters_step; [intros; reflexivity | ].
      intros [st clk evs]. destruct st. reflexivity. }
    intros [].
    eapply triple_bind with
      (R := fun fetched w0 =>
              counters w0 = counters w
              /\ fetched = match Rest.setCsv env i with
                           | inr products => Some products
                           | inl _ => None
                           end).
    { intros w0 Hw0. unfold tryCatch, bind, awaitCall, await, throw, ret.
      destruct (Rest.setCsv env i) as [reason | products]; simpl; auto. }
    intros fetched. apply triple_fact. intros ->.
    destruct (Rest.setCsv env i) as [reason | products]; simpl.
    - apply triple_ret. intros w0 Hw0. exists 0, 0, 0. rewrite !Nat.add_0_r.
      split; [exact Hw0 | ]. split; [lia | reflexivity].
    - apply rest_syncSingles_count. }
  specialize (H w eq_refl).
  destruct (Rest.processGroup env pricesOnly trm groupsMap abbrevMap i group existing w)
    as [[ex' | r] w']; [ | destruct H].
  destruct H as (nc & nu & ns & Hc & Hle & Hall).
  exists ex', w'. split; [reflexivity | ].
  unfold counters in Hc. injection Hc as Hcr Hup Hsk.
  unfold restCount. rewrite Hcr, Hup, Hsk.
  repeat split; try lia. intros H1 H2. specialize (Hall H1 H2). lia.
Qed.

Lemma rest_group_counters_witness :
  allPosted (Rest.createBatch Sample.restEnv 0)
  /\ allPosted (Rest.updateBatch Sample.restEnv 0)
  /\ restCount (snd (Rest.processGroup Sample.restEnv false (ofZ 4000)
                       (groupsMapOf [Sample.group1]) (abbrevMapOf [Sample.group1])
                       0 Sample.group1 ∅ Sample.world0))
     = restCount Sample.world0 + sellableCount (Rest.setCsv Sample.restEnv 0).
Proof.
  assert (H1 : allPosted (Rest.createBatch Sample.restEnv 0)) by (intros j; reflexivity).
  assert (H2 : allPosted (Rest.updateBatch Sample.restEnv 0)) by (intros j; reflexivity).
  split; [exact H1 | ]. split; [exact H2 | ].
  destruct (rest_group_counters Sample.restEnv false (ofZ 4000)
              (groupsMapOf [Sample.group1]) (abbrevMapOf [Sample.group1])
              0 Sample.group1 ∅ Sample.world0)
    as (ex & w' & E & _ & _ & _ & _ & H).
  rewrite E. exact (H H1 H2).
Defined.

(** ** Start, completion and summary of a run *)

Section Started.

Variables (m : string) (t0 : nat).

Lemma started_assign1 tot prog (st : RunState) (u : Update) :
  keepsStart tot prog u = true ->
  mode (assign1 st u) = mode st /\ startTime (assign1 st u) = startTime st
  /\ (forall n, tot = Some n -> total (assign1 st u) = total st)
  /\ (forall k, prog = Some k -> progress (assign1 st u) = progress st).
Proof.
  destruct st, u, tot, prog; simpl; intros H; try discriminate H;
    repeat split; intros; try reflexivity; discriminate.
Qed.

Lemma started_state tot prog (st st' : RunState) (c c' : nat) (evs evs' : list Event) :
  mode st' = mode st -> startTime st' = startTime st ->
  (forall n, tot = Some n -> total st' = total st) ->
  (forall k, prog = Some k -> progress st' = progress st) ->
  c <= c' ->
  started m t0 tot prog {| syncState := st; clock := c; events := evs |} ->
  started m t0 tot prog {| syncState := st'; clock := c'; events := evs' |}.
Proof.
  intros Hm Hs Ht Hp Hc (H1 & H2 & H3 & H4 & H5). unfold started. simpl in *.
  rewrite Hm, Hs. repeat split; auto; try lia.
  - intros n Hn. rewrite (Ht n Hn). auto.
  - intros k Hk. rewrite (Hp k Hk). auto.
Qed.

Lemma started_await tot prog (w : World) :
  started m t0 tot prog w -> started m t0 tot prog (snd (await w)).
Proof. destruct w as [st c evs]. apply started_state; auto. Qed.

Lemma started_log tot prog (cap : nat) (msg : Message) (ty : Severity) (w : World) :
  started m t0 tot prog w -> started m t0 tot prog (snd (log cap msg ty w)).
Proof.
  destruct w as [st c evs]. simpl.
  destruct (started_assign1 tot prog st
              (SetLogs (pushLog cap {| timestamp := c; msg := msg; type := ty |} (logs st)))
              eq_refl) as (H1 & H2 & H3 & H4).
  apply started_state; auto.
Qed.

Lemma started_assign_fields tot prog (us : list Update) :
  forall st, forallb (keepsStart tot prog) us = true ->
    mode (assign st us) = mode st /\ startTime (assign st us) = startTime st
    /\ (forall n, tot = Some n -> total (assign st us) = total st)
    /\ (forall k, prog = Some k -> progress (assign st us) = progress st).
Proof.
  unfold assign. induction us as [ | u us IH]; intros st H; simpl.
  - repeat split; reflexivity.
  - simpl in H. apply andb_prop in H as [Hu Hus].
    destruct (IH (assign1 st u) Hus) as (H1 & H2 & H3 & H4).
    destruct (started_assign1 tot prog st u Hu) as (G1 & G2 & G3 & G4).
    split; [congruence | ]. split; [congruence | ]. split.
    + intros n Hn. rewrite (H3 n Hn). exact (G3 n Hn).
    + intros k Hk. rewrite (H4 k Hk). exact (G4 k Hk).
Qed.

Lemma started_assign tot prog (us : list Update) (w : World) :
  forallb (keepsStart tot prog) us = true ->
  started m t0 tot prog w -> started m t0 tot prog (snd (updateProgress us w)).
Proof.
  destruct w as [st c evs]. intros Hus. simpl.
  destruct (started_assign_fields tot prog us st Hus) as (H1 & H2 & H3 & H4).
  apply started_state; auto.
Qed.

Lemma started_modify tot prog (g : RunState -> Update) (w : World) :
  (forall st, keepsStart tot prog (g st) = true) ->
  started m t0 tot prog w ->
  started m t0 tot prog (snd (modify (fun st => assign1 st (g st)) w)).
Proof.
  destruct w as [st c evs]. intros Hg. simpl.
  destruct (started_assign1 tot prog st (g st) (Hg st)) as (H1 & H2 & H3 & H4).
  apply started_state; auto.
Qed.

Lemma started_weaken tot prog (w : World) :
  started m t0 tot prog w -> started m t0 None None w.
Proof.
  intros (H1 & H2 & H3 & _). unfold started.
  repeat split; auto; discriminate.
Qed.

(** A part of the run that keeps what [started] tells. *)
Lemma started_part {A} tot prog (mm : M A) :
  preserves (started m t0 tot prog) mm ->
  triple (started m t0 tot prog) mm (fun _ => started m t0 tot prog)
    (fun _ => started m t0 None None).
Proof.
  intros H. eapply triple_conseq; [exact H | auto | auto | ].
  intros r w. apply started_weaken.
Qed.

(** The total is set. *)
Lemma started_total (n : nat) :
  triple (started m t0 None None) (updateProgress [SetTotal n])
    (fun _ => started m t0 (Some n) None) (fun _ => started m t0 None None).
Proof.
  apply triple_step with (f := fun w => snd (updateProgress [SetTotal n] w));
    [reflexivity | ].
  intros [st c evs] (H1 & H2 & H3 & _). destruct st. unfold started. simpl in *.
  repeat split; auto; congruence.
Qed.

(** The progress is set. *)
Lemma started_progress (n : nat) prog (k : nat) (us : list Update) :
  forallb (keepsStart (Some n) None) us = true ->
  (forall st, progress (assign st us) = k) ->
  triple (started m t0 (Some n) prog) (updateProgress us)
    (fun _ => started m t0 (Some n) (Some k)) (fun _ => started m t0 None None).
Proof.
  intros Hus Hk.
  apply triple_step with (f := fun w => snd (updateProgress us w)); [reflexivity | ].
  intros [st c evs] (H1 & H2 & H3 & H4 & _). unfold started. simpl in *.
  destruct (started_assign_fields (Some n) None us st Hus) as (G1 & G2 & G3 & _).
  rewrite G1, G2, (G3 n eq_refl), Hk.
  split; [exact H1 | ]. split; [exact H2 | ]. split; [exact H3 | ]. split.
  - intros n0 [= <-]. now apply H4.
  - intros k0 [= <-]. reflexivity.
Qed.

Lemma restWrites_keepsStart pricesOnly tot prog (u : Update) :
  restWrites pricesOnly u = true -> keepsStart tot prog u = true.
Proof. destruct u; simpl; congruence. Qed.

Lemma sshWrites_keepsStart pricesOnly tot prog (u : Update) :
  sshWrites pricesOnly u = true -> keepsStart tot prog u = true.
Proof. destruct u; simpl; congruence. Qed.

End Started.

Ltac started_now tac :=
  eapply triple_bind;
  [ apply started_part; tac | ].

Section StartedRuns.

Variables (m : string) (t0 : nat).

Lemma rest_processGroup_started env pricesOnly trm groupsMap abbrevMap n k group existing :
  triple (started m t0 (Some n) (Some k))
    (Rest.processGroup env pricesOnly trm groupsMap abbrevMap k group existing)
    (fun _ => started m t0 (Some n) (Some (S k))) (fun _ => started m t0 None None).
Proof.
  pose proof (started_await m t0 (Some n) (Some (S k))) as P_await.
  pose proof (started_log m t0 (Some n) (Some (S k)) Rest.LOG_CAP) as P_log.
  unfold Rest.processGroup.
  eapply triple_bind.
  { apply (started_progress m t0 n (Some k) (S k)); [reflexivity | ].
    intros st. destruct st. simpl. lia. }
  intros []. apply started_part.
  stable_with (started m t0 (Some n) (Some (S k)))
    ltac:(apply rest_syncSingles_stable; auto).
  - intros u w Hu. apply started_assign. simpl.
    now rewrite (restWrites_keepsStart _ _ _ _ Hu).
  - intros g w Hg. apply started_modify. intros st.
    exact (restWrites_keepsStart _ _ _ _ (Hg st)).
Qed.

Lemma rest_syncGroups_started env pricesOnly trm groups existing n :
  triple (started m t0 (Some n) (Some 0))
    (Rest.syncGroups env pricesOnly trm groups existing)
    (fun _ => started m t0 (Some n) (Some (length groups)))
    (fun _ => started m t0 None None).
Proof.
  unfold Rest.syncGroups.
  apply (triple_forIndexed
           (Rest.processGroup env pricesOnly trm (groupsMapOf groups) (abbrevMapOf groups))
           (fun k _ => started m t0 (Some n) (Some k)) (fun _ => started m t0 None None)
           groups 0).
  intros k group existing' _. apply rest_processGroup_started.
Qed.

Lemma rest_runBody_started (env : Rest.Env) (pricesOnly : bool) :
  triple (started m t0 None None) (Rest.runBody env pricesOnly)
    (fun _ w =>
       phase (syncState w) = complete
       /\ exists groups, Rest.groupsCsv env = inr groups
                         /\ completedAt m t0 (length groups) (syncState w))
    (fun _ => started m t0 None None).
Proof.
  pose proof (fun tot prog => started_await m t0 tot prog) as P_await.
  pose proof (fun tot prog => started_log m t0 tot prog Rest.LOG_CAP) as P_log.
  pose proof (fun tot prog us w H => started_assign m t0 tot prog us w H) as P_assign.
  pose proof (fun tot prog g w H => started_modify m t0 tot prog g w H) as P_modify.
  unfold Rest.runBody.
  do 2 (started_now ltac:(idtac; stable_steps (started m t0 None None)); intros []).
  destruct (Rest.groupsCsv env) as [reason | groups].
  { eapply triple_bind with (R := fun _ _ => False); [ | intros ? ? []].
    apply triple_awaitCall. intros w H. now apply P_await. }
  eapply triple_bind with (R := fun gs w => started m t0 None None w /\ gs = groups).
  { apply triple_awaitCall. intros w H. split; [now apply P_await | reflexivity]. }
  intros gs. apply triple_fact. intros ->.
  started_now ltac:(idtac; stable_steps (started m t0 None None)); intros [].
  eapply triple_bind; [apply started_total | intros [] ].
  set (n := length groups).
  started_now ltac:(idtac; apply getTRM_stable; auto); intros trm.
  do 3 (started_now ltac:(idtac; stable_steps (started m t0 (Some n) None)); intros []).
  destruct (Rest.connect env) as [reason | []].
  { apply triple_throw. intros w. apply started_weaken. }
  do 2 (started_now ltac:(idtac; stable_steps (started m t0 (Some n) None)); intros []).
  started_now ltac:(idtac; apply rest_fetchExisting_stable; auto); intros existing.
  started_now ltac:(idtac; stable_steps (started m t0 (Some n) None)); intros [].
  eapply triple_bind.
  { apply (started_progress m t0 n None 0); [reflexivity | ].
    intros st. destruct st. reflexivity. }
  intros [].
  started_now ltac:(idtac; stable_steps (started m t0 (Some n) (Some 0))); intros [].
  eapply triple_bind; [apply rest_syncGroups_started | intros ex].
  intros [st c evs] (H1 & H2 & H3 & H4 & H5). destruct st. simpl in *.
  split; [reflexivity | ]. exists groups. split; [reflexivity | ].
  unfold completedAt. simpl.
  rewrite (H4 n eq_refl), (H5 n eq_refl).
  repeat split; auto. exists c. auto.
Qed.

Lemma ssh_processGroup_started env pricesOnly trm nGroups groupsMap abbrevMap n k group l :
  triple (started m t0 (Some n) (Some k))
    (Ssh.processGroup env pricesOnly trm nGroups groupsMap abbrevMap k group l)
    (fun _ => started m t0 (Some n) (Some (S k))) (fun _ => started m t0 None None).
Proof.
  pose proof (started_await m t0 (Some n) (Some (S k))) as P_await.
  pose proof (started_log m t0 (Some n) (Some (S k)) Ssh.LOG_CAP) as P_log.
  unfold Ssh.processGroup.
  eapply triple_bind.
  { apply (started_progress m t0 n (Some k) (S k)); [reflexivity | ].
    intros st. destruct st. simpl. lia. }
  intros []. apply started_part.
  stable_with (started m t0 (Some n) (Some (S k)))
    ltac:(apply ssh_syncSingles_stable; auto).
  intros u w Hu. apply started_assign. simpl.
  now rewrite (sshWrites_keepsStart _ _ _ _ Hu).
Qed.

Lemma ssh_syncGroups_started env pricesOnly trm groups existing n :
  triple (started m t0 (Some n) (Some 0))
    (Ssh.syncGroups env pricesOnly trm groups existing)
    (fun _ => started m t0 (Some n) (Some (length groups)))
    (fun _ => started m t0 None None).
Proof.
  unfold Ssh.syncGroups.
  apply (triple_forIndexed
           (Ssh.processGroup env pricesOnly trm (length groups) (groupsMapOf groups)
              (abbrevMapOf groups))
           (fun k _ => started m t0 (Some n) (Some k)) (fun _ => started m t0 None None)
           groups 0).
  intros k group l _. apply ssh_processGroup_started.
Qed.

Lemma ssh_runSSHSync_started (env : Ssh.Env) (mode : string) :
  triple (started m t0 None None) (Ssh.runSSHSync env mode)
    (fun _ w =>
       exists groups,
         Ssh.groupsCsv env = inr groups
         /\ started m t0 (Some (length groups)) (Some (length groups)) w)
    (fun _ => started m t0 None None).
Proof.
  pose proof (fun tot prog => started_await m t0 tot prog) as P_await.
  pose proof (fun tot prog => started_log m t0 tot prog Ssh.LOG_CAP) as P_log.
  pose proof (fun tot prog us w H => started_assign m t0 tot prog us w H) as P_assign.
  pose proof (fun tot prog g w H => started_modify m t0 tot prog g w H) as P_modify.
  unfold Ssh.runSSHSync.
  do 4 (started_now ltac:(idtac; stable_steps (started m t0 None None)); intros []).
  destruct (Ssh.groupsCsv env) as [reason | groups].
  { eapply triple_bind with (R := fun _ _ => False); [ | intros ? ? []].
    apply triple_awaitCall. intros w H. now apply P_await. }
  eapply triple_bind with (R := fun gs w => started m t0 None None w /\ gs = groups).
  { apply triple_awaitCall. intros w H. split; [now apply P_await | reflexivity]. }
  intros gs. apply triple_fact. intros ->.
  started_now ltac:(idtac; stable_steps (started m t0 None None)); intros [].
  eapply triple_bind; [apply started_total | intros [] ].
  set (n := length groups).
  started_now ltac:(idtac; apply getTRM_stable; auto); intros trm.
  do 3 (started_now ltac:(idtac; stable_steps (started m t0 (Some n) None)); intros []).
  started_now ltac:(idtac; stable_steps (started m t0 (Some n) None)); intros raw.
  started_now ltac:(idtac; stable_steps (started m t0 (Some n) None)); intros [].
  eapply triple_bind.
  { apply (started_progress m t0 n None 0); [reflexivity | ].
    intros st. destruct st. reflexivity. }
  intros [].
  started_now ltac:(idtac; stable_steps (started m t0 (Some n) (Some 0))); intros [].
  eapply triple_bind; [apply ssh_syncGroups_started | intros l].
  eapply triple_conseq with (P := started m t0 (Some n) (Some n))
    (Q := fun _ => started m t0 (Some n) (Some n))
    (E := fun _ => started m t0 (Some n) (Some n));
    [ | auto | | intros r w; apply started_weaken].
  - stable_steps (started m t0 (Some n) (Some n)).
  - intros t w H. exists groups. auto.
Qed.

End StartedRuns.

(** X23. From an idle state, a run records its mode and the time it
    started at.  The SSH server always records an end that is not before the
    start.  When the run ends with the phase [complete], the feed of the
    groups was read, the total and the progress are both the number of
    groups, and the end recorded is not before the start. *)
Theorem completed_run_summary :
  (forall (env : Rest.Env) (m : string) (st0 : RunState) (t0 : nat) (evs : list Event),
      running st0 = false ->
      let st' := syncState (snd (Rest.runSync env m
                                   {| syncState := st0; clock := t0; events := evs |})) in
      mode st' = Some m /\ startTime st' = Some t0
      /\ (phase st' = complete ->
          exists groups,
            Rest.groupsCsv env = inr groups
            /\ completedAt m t0 (length groups) st'))
  /\ (forall (env : Ssh.Env) (m method : string) (st0 : RunState) (t0 : nat)
             (evs : list Event),
         running st0 = false ->
         let st' := syncState (snd (Ssh.runSync env m method
                                      {| syncState := st0; clock := t0; events := evs |})) in
         mode st' = Some m /\ startTime st' = Some t0
         /\ (exists t1, endTime st' = Some t1 /\ t0 <= t1)
         /\ (phase st' = complete ->
             exists groups,
               Ssh.groupsCsv env = inr groups
               /\ completedAt m t0 (length groups) st')).
Proof.
  split.
  - intros env m st0 t0 evs Hrun st'.
    assert (E : st' = syncState (snd (Rest.runSync env m
                                        {| syncState := st0; clock := t0; events := evs |})))
      by reflexivity.
    clearbody st'. revert E.
    unfold Rest.runSync, bind at 1, getState. cbn [syncState]. rewrite Hrun.
    pose proof (rest_runBody_started m t0 env (String.eqb m "prices")) as Hbody.
    generalize dependent (Rest.runBody env (String.eqb m "prices")).
    intros body Hbody.
    cbv beta iota zeta delta [bind resetState modify now updateProgress getState emit
                                tryCatch fst snd syncState clock events Rest.log log].
    match goal with
    | |- context [body ?w1] =>
        assert (Hw1 : started m t0 None None w1)
          by (unfold started; simpl; repeat split; auto; discriminate);
        specialize (Hbody w1 Hw1); destruct (body w1) as [[[] | reason] [st2 c2 e2]]
    end.
    + destruct Hbody as (Hph & groups & Hg & Hc). simpl in *.
      intros ->. destruct st2. unfold completedAt in *. simpl in *.
      destruct Hc as (C1 & C2 & C3 & C4 & C5).
      split; [exact C1 | ]. split; [exact C2 | ].
      intros _. exists groups. repeat (split; [assumption | ]). exact C5.
    + destruct Hbody as (H1 & H2 & _). simpl in *.
      intros ->. destruct st2. simpl in *.
      split; [exact H1 | ]. split; [exact H2 | ]. discriminate.
  - intros env m method st0 t0 evs Hrun st'.
    assert (E : st' = syncState (snd (Ssh.runSync env m method
                                        {| syncState := st0; clock := t0; events := evs |})))
      by reflexivity.
    clearbody st'. revert E.
    unfold Ssh.runSync, bind at 1, getState. cbn [syncState]. rewrite Hrun.
    set (body := if String.eqb method "ssh" && strTruthy (Ssh.SSH_PASS env)
                 then Ssh.runSSHSync env m else throw _).
    assert (Hbody : triple (started m t0 None None) body
                      (fun _ w =>
                         exists groups,
                           Ssh.groupsCsv env = inr groups
                           /\ started m t0 (Some (length groups)) (Some (length groups)) w)
                      (fun _ => started m t0 None None)).
    { unfold body. destruct (String.eqb method "ssh" && strTruthy (Ssh.SSH_PASS env)).
      - apply ssh_runSSHSync_started.
      - apply triple_throw. auto. }
    generalize dependent body. intros body Hbody.
    cbv beta iota zeta delta [bind resetState modify now updateProgress getState emit
                                tryCatch fst snd syncState clock events Ssh.log log].
    match goal with
    | |- context [body ?w1] =>
        assert (Hw1 : started m t0 None None w1)
          by (unfold started; simpl; repeat split; auto; discriminate);
        specialize (Hbody w1 Hw1); destruct (body w1) as [[t | reason] [st2 c2 e2]]
    end.
    + destruct Hbody as (groups & Hg & H1 & H2 & H3 & H4 & H5). simpl in *.
      intros ->. destruct st2. unfold completedAt. simpl in *.
      split; [exact H1 | ]. split; [exact H2 | ].
      split; [exists c2; auto | ].
      intros _. exists groups. split; [exact Hg | ].
      rewrite (H4 _ eq_refl), (H5 _ eq_refl).
      repeat (split; [auto | ]). exists c2. auto.
    + destruct Hbody as (H1 & H2 & H3 & _). simpl in *.
      intros ->. destruct st2. simpl in *.
      split; [exact H1 | ]. split; [exact H2 | ].
      split; [exists c2; auto | discriminate].
Qed.

Lemma completed_run_summary_witness :
  running initialState = false
  /\ phase (syncState (snd (Ssh.runSync Sample.sshEnv2 "full" "ssh" Sample.world0)))
     = complete
  /\ completedAt "full" 0 2
       (syncState (snd (Ssh.runSync Sample.sshEnv2 "full" "ssh" Sample.world0))).
Proof.
  assert (Hph : phase (syncState (snd (Ssh.runSync Sample.sshEnv2 "full" "ssh"
                                         Sample.world0))) = complete)
    by (vm_compute; reflexivity).
  split; [reflexivity | ]. split; [exact Hph | ].
  destruct completed_run_summary as [_ Hs].
  destruct (Hs Sample.sshEnv2 "full" "ssh" initialState 0 [] eq_refl)
    as (_ & _ & _ & Hc).
  destruct (Hc Hph) as (groups & Hg & Hdone).
  injection Hg as <-. exact Hdone.
Defined.

Section RunTotals.

Lemma failedDownloads_S (env : Ssh.Env) (n : nat) :
  failedDownloads env (S n)
  = failedDownloads env n + match Ssh.setCsv env n with
                            | inl _ => 1
                            | inr _ => 0
                            end.
Proof.
  unfold failedDownloads. rewrite seq_S, sum_list_with_app. simpl. lia.
Qed.

Lemma ssh_syncGroups_totals env pricesOnly trm groups existing :
  yields (Ssh.syncGroups env pricesOnly trm groups existing)
    (fun l =>
       sumTotals (Ssh.totals l)
       <= sellableTotal env (length groups) + failedDownloads env (length groups)).
Proof.
  unfold Ssh.syncGroups.
  apply (yields_forIndexed _
           (fun k l =>
              sumTotals (Ssh.totals l) <= sellableTotal env k + failedDownloads env k)
           groups 0).
  - intros k group l _ Hl. simpl in *.
    rewrite sellableTotal_S, failedDownloads_S. unfold Ssh.processGroup.
    eapply yields_bind;
      [exact (yields_step _ _ (updateProgress_step _)) | intros _ _].
    eapply yields_bind; [exact (yields_step _ _ await_step) | intros _ _].
    destruct (Ssh.setCsv env k) as [reason | products].
    + apply yields_ret. unfold sumTotals in *. simpl. lia.
    + eapply yields_conseq; [apply syncSingles_count | ].
      intros l' [_ H]. simpl. lia.
  - simpl. unfold sumTotals. simpl. lia.
Qed.

Lemma ssh_runSSHSync_totals (env : Ssh.Env) (mode : string) :
  triple (fun _ => True) (Ssh.runSSHSync env mode)
    (fun t w =>
       exists groups,
         Ssh.groupsCsv env = inr groups
         /\ sumTotals t
            <= sellableTotal env (length groups) + failedDownloads env (length groups))
    (fun _ _ => True).
Proof.
  unfold Ssh.runSSHSync.
  do 4 (eapply triple_bind with (R := fun _ _ => True); [apply triple_any | intros ?]).
  destruct (Ssh.groupsCsv env) as [reason | groups].
  { eapply triple_bind with (R := fun _ _ => False); [ | intros ? ? []].
    apply triple_awaitCall. auto. }
  eapply triple_bind with (R := fun gs _ => True /\ gs = groups).
  { apply triple_awaitCall. auto. }
  intros gs. apply triple_fact. intros ->.
  do 10 (eapply triple_bind with (R := fun _ _ => True); [apply triple_any | intros ?]).
  eapply triple_bind.
  { eapply triple_conseq;
      [apply (ssh_syncGroups_totals env (String.eqb mode "prices") _ groups) | auto | | ].
    - intros l w H. exact H.
    - intros r w []. }
  intros l w H. simpl. exists groups. auto.
Qed.

End RunTotals.

(** X26. The group loop of the SSH server always returns, and what it
    counts (created, updated, skipped, errors) is at most the number of rows
    that pass the filter plus the number of groups whose download fails.  A
    run that returns has read the feed of the groups, and the counters of
    its run state add up to the same total. *)
Theorem run_totals_bounded (env : Ssh.Env) (mode : string) (w : World) :
  (forall pricesOnly trm groups existing,
      exists l w',
        Ssh.syncGroups env pricesOnly trm groups existing w = (Ok l, w')
        /\ sumTotals (Ssh.totals l)
           <= sellableTotal env (length groups) + failedDownloads env (length groups))
  /\ (forall t w',
         Ssh.runSSHSync env mode w = (Ok t, w') ->
         exists groups,
           Ssh.groupsCsv env = inr groups
           /\ sumTotals t
              <= sellableTotal env (length groups) + failedDownloads env (length groups)
           /\ created (syncState w') + updated (syncState w') + skipped (syncState w')
              + errors (syncState w') = sumTotals t).
Proof.
  split.
  - intros pricesOnly trm groups existing.
    destruct (yields_returns _ _ w (ssh_syncGroups_totals env pricesOnly trm groups existing))
      as (l & w' & E & H).
    eauto.
  - intros t w' E.
    pose proof (ssh_runSSHSync_totals env mode w I) as H. rewrite E in H.
    destruct H as (groups & Hg & Hb). exists groups.
    split; [exact Hg | ]. split; [exact Hb | ].
    pose proof (runSSHSync_state env mode w I) as Hst. rewrite E in Hst.
    destruct Hst as (-> & -> & -> & ->). reflexivity.
Qed.

Lemma run_totals_bounded_witness :
  exists t w',
    Ssh.runSSHSync Sample.sshEnv2 "full" Sample.world0 = (Ok t, w')
    /\ sumTotals t <= sellableTotal Sample.sshEnv2 2 + failedDownloads Sample.sshEnv2 2
    /\ created (syncState w') + updated (syncState w') + skipped (syncState w')
       + errors (syncState w') = sumTotals t.
Proof.
  destruct (Ssh.runSSHSync Sample.sshEnv2 "full" Sample.world0) as [[t | r] w'] eqn:E;
    [ | vm_compute in E; discriminate E].
  exists t, w'. split; [reflexivity | ].
  destruct (run_totals_bounded Sample.sshEnv2 "full" Sample.world0) as [_ H].
  destruct (H t w' E) as (groups & Hg & Hb & Hs).
  injection Hg as <-. split; [exact Hb | exact Hs].
Defined.

Section Summary.

Lemma rest_runBody_summary (env : Rest.Env) (pricesOnly : bool) :
  triple (fun _ => True) (Rest.runBody env pricesOnly)
    (fun _ w =>
       phase (syncState w) = complete
       /\ lastMessage (syncState w)
          = Some (if pricesOnly
                  then MsgPriceSummary (updated (syncState w)) (skipped (syncState w))
                  else MsgFullSummary (created (syncState w)) (updated (syncState w)),
                  success))
    (fun _ _ => True).
Proof.
  unfold Rest.runBody.
  do 9 (eapply triple_bind with (R := fun _ _ => True); [apply triple_any | intros ?]).
  destruct (Rest.connect env) as [reason | []]; [apply triple_throw; auto | ].
  do 7 (eapply triple_bind with (R := fun _ _ => True); [apply triple_any | intros ?]).
  intros [st clk evs] _. destruct st. cbn. unfold lastMessage. cbn.
  split; [reflexivity | ].
  rewrite last_pushLog by (unfold Rest.LOG_CAP; lia). now destruct pricesOnly.
Qed.

End Summary.

(** X27. From an idle state, a run that ends with the phase [complete]
    has for last line of its log the summary of the run, with the counters
    of the final run state, as a success; one that ends with the phase
    [error] has for last line the failure with its reason. *)
Theorem run_ends_with_summary :
  (forall (env : Rest.Env) (mode : string) (w : World),
      running (syncState w) = false ->
      let st' := syncState (snd (Rest.runSync env mode w)) in
      (phase st' = complete ->
       lastMessage st'
       = Some (if String.eqb mode "prices"
               then MsgPriceSummary (updated st') (skipped st')
               else MsgFullSummary (created st') (updated st'), success))
      /\ (phase st' = error ->
          exists reason, lastMessage st' = Some (MsgSyncFailed reason, failure)))
  /\ (forall (env : Ssh.Env) (mode method : string) (w : World),
         running (syncState w) = false ->
         let st' := syncState (snd (Ssh.runSync env mode method w)) in
         (phase st' = complete ->
          lastMessage st'
          = Some (MsgSshSummary (startTime st') (endTime st') (created st')
                    (updated st') (skipped st'), success))
         /\ (phase st' = error ->
             exists reason, lastMessage st' = Some (MsgSyncFailed reason, failure))).
Proof.
  split.
  - intros env mode w Hrun st'.
    assert (E : st' = syncState (snd (Rest.runSync env mode w))) by reflexivity.
    clearbody st'. revert E.
    unfold Rest.runSync, bind at 1, getState. rewrite Hrun.
    pose proof (rest_runBody_summary env (String.eqb mode "prices")) as Hbody.
    generalize dependent (Rest.runBody env (String.eqb mode "prices")).
    intros body Hbody.
    cbv beta iota zeta delta [bind resetState modify now updateProgress getState emit
                                tryCatch fst snd syncState clock events Rest.log log].
    match goal with
    | |- context [body ?w1] =>
        specialize (Hbody w1 I); destruct (body w1) as [[[] | reason] [st2 c2 e2]]
    end.
    + intros ->. destruct Hbody as [Hph Hlast]. simpl in *.
      split; [intros _; exact Hlast | ]. rewrite Hph. discriminate.
    + intros ->. destruct st2. cbn. unfold lastMessage. cbn.
      split; [discriminate | ]. intros _. exists reason.
      now rewrite last_pushLog by (unfold Rest.LOG_CAP; lia).
  - intros env mode method w Hrun st'.
    assert (E : st' = syncState (snd (Ssh.runSync env mode method w))) by reflexivity.
    clearbody st'. revert E.
    unfold Ssh.runSync, bind at 1, getState. rewrite Hrun.
    set (body := if String.eqb method "ssh" && strTruthy (Ssh.SSH_PASS env)
                 then Ssh.runSSHSync env mode else throw _).
    assert (Hbody : triple (fun _ => True) body
                      (fun t w =>
                         created (syncState w) = Ssh.totalCreated t
                         /\ updated (syncState w) = Ssh.totalUpdated t
                         /\ skipped (syncState w) = Ssh.totalSkipped t
                         /\ errors (syncState w) = Ssh.totalErrors t)
                      (fun _ _ => True)).
    { unfold body. destruct (String.eqb method "ssh" && strTruthy (Ssh.SSH_PASS env)).
      - apply runSSHSync_state.
      - apply triple_throw. auto. }
    generalize dependent body. intros body Hbody.
    cbv beta iota zeta delta [bind resetState modify now updateProgress getState emit
                                tryCatch fst snd syncState clock events Ssh.log log].
    match goal with
    | |- context [body ?w1] =>
        specialize (Hbody w1 I); destruct (body w1) as [[t | reason] [st2 c2 e2]]
    end.
    + intros ->. destruct Hbody as (Hc & Hu & Hs & _). destruct st2.
      cbn in *. unfold lastMessage. cbn.
      split; [intros _ | discriminate].
      rewrite last_pushLog by (unfold Ssh.LOG_CAP; lia). cbn. now subst.
    + intros ->. destruct st2. cbn. unfold lastMessage. cbn.
      split; [discriminate | ]. intros _. exists reason.
      now rewrite last_pushLog by (unfold Ssh.LOG_CAP; lia).
Qed.

Lemma run_ends_with_summary_witness :
  running (syncState Sample.world0) = false
  /\ phase (syncState (snd (Rest.runSync Sample.restEnv "full" Sample.world0))) = complete
  /\ lastMessage (syncState (snd (Rest.runSync Sample.restEnv "full" Sample.world0)))
     = Some (MsgFullSummary
               (created (syncState (snd (Rest.runSync Sample.restEnv "full"
                                           Sample.world0))))
               (updated (syncState (snd (Rest.runSync Sample.restEnv "full"
                                           Sample.world0)))),
             success).
Proof.
  assert (Hph : phase (syncState (snd (Rest.runSync Sample.restEnv "full"
                                         Sample.world0))) = complete)
    by (vm_compute; reflexivity).
  split; [reflexivity | ]. split; [exact Hph | ].
  destruct run_ends_with_summary as [Hr _].
  destruct (Hr Sample.restEnv "full" Sample.world0 eq_refl) as [H _].
  exact (H Hph).
Defined.

(** ** Credentials and the stop request *)

(** X15. Without a password, or with a method other than [ssh], a run of
    the SSH server from an idle state fails at once: it never suspends, it
    ends with the phase [error], not running, all counters at zero, the
    start at the time of the request and an end that is not before it, and
    its log is the one line that tells that the credentials are not
    configured. *)
Theorem ssh_run_needs_credentials (env : Ssh.Env) (mode method : string)
  (st0 : RunState) (t0 : nat) :
  running st0 = false ->
  (String.eqb method "ssh" && strTruthy (Ssh.SSH_PASS env))%bool = false ->
  let w' := snd (Ssh.runSync env mode method
                   {| syncState := st0; clock := t0; events := [] |}) in
  let st' := syncState w' in
  phase st' = error /\ running st' = false
  /\ startTime st' = Some t0
  /\ (exists t1, endTime st' = Some t1 /\ t0 <= t1)
  /\ created st' = 0 /\ updated st' = 0 /\ skipped st' = 0 /\ errors st' = 0
  /\ map msg (logs st')
     = [MsgSyncFailed "SSH credentials not configured. Set SSH_PASS environment variable."]
  /\ forall st, ~ In (EvAwait st) (events w').
Proof.
  intros Hrun Hcred w' st'. subst st' w'.
  unfold Ssh.runSync, bind, getState. cbn [syncState]. rewrite Hrun, Hcred.
  cbn. do 3 (split; [reflexivity | ]).
  split; [exists t0; split; [reflexivity | lia] | ].
  repeat (split; [reflexivity | ]).
  intros st [H | [H | [H | []]]]; discriminate H.
Qed.

Lemma ssh_run_needs_credentials_witness :
  running initialState = false
  /\ (String.eqb "ssh" "ssh"
      && strTruthy (Ssh.SSH_PASS
                      {| Ssh.SSH_PASS := None;
                         Ssh.groupsCsv := inr [Sample.group1];
                         Ssh.trmResponse := Sample.rate4000;
                         Ssh.existingRaw := inr Sample.listingA;
                         Ssh.setCsv := fun _ => inr [Sample.rowA];
                         Ssh.sqlBatch := fun _ _ => inr tt;
                         Ssh.wpCreate := fun _ _ => inr "101" |}))%bool = false
  /\ phase (syncState
              (snd (Ssh.runSync
                      {| Ssh.SSH_PASS := None;
                         Ssh.groupsCsv := inr [Sample.group1];
                         Ssh.trmResponse := Sample.rate4000;
                         Ssh.existingRaw := inr Sample.listingA;
                         Ssh.setCsv := fun _ => inr [Sample.rowA];
                         Ssh.sqlBatch := fun _ _ => inr tt;
                         Ssh.wpCreate := fun _ _ => inr "101" |}
                      "full" "ssh"
                      {| syncState := initialState; clock := 7; events := [] |})))
     = error.
Proof.
  split; [reflexivity | ]. split; [reflexivity | ].
  exact (proj1 (ssh_run_needs_credentials
                  {| Ssh.SSH_PASS := None;
                     Ssh.groupsCsv := inr [Sample.group1];
                     Ssh.trmResponse := Sample.rate4000;
                     Ssh.existingRaw := inr Sample.listingA;
                     Ssh.setCsv := fun _ => inr [Sample.rowA];
                     Ssh.sqlBatch := fun _ _ => inr tt;
                     Ssh.wpCreate := fun _ _ => inr "101" |}
                  "full" "ssh" initialState 7 eq_refl eq_refl)).
Defined.

Section Blind.

Lemma unflagged_assign1 (st st' : RunState) (u : Update) :
  unflagged st = unflagged st' ->
  unflagged (assign1 st u) = unflagged (assign1 st' u).
Proof.
  destruct st, st', u; unfold unflagged; simpl; intros [= -> -> -> -> -> -> -> -> -> -> -> -> -> ->];
    reflexivity.
Qed.

Lemma unflagged_assign (us : list Update) :
  forall st st', unflagged st = unflagged st' ->
                 unflagged (assign st us) = unflagged (assign st' us).
Proof.
  unfold assign. induction us as [ | u us IH]; intros st st' H; simpl; [exact H | ].
  apply IH. now apply unflagged_assign1.
Qed.

Lemma unflagged_logs (st st' : RunState) :
  unflagged st = unflagged st' -> logs st = logs st'.
Proof. intros H. apply (f_equal logs) in H. destruct st, st'. exact H. Qed.

Lemma blind_ret {A} (a : A) : blind (ret a).
Proof. intros w w' H. split; [reflexivity | exact H]. Qed.

Lemma blind_throw {A} (r : string) : blind (@throw A r).
Proof. intros w w' H. split; [reflexivity | exact H]. Qed.

Lemma blind_bind {A B} (m : M A) (k : A -> M B) :
  blind m -> (forall a, blind (k a)) -> blind (bind m k).
Proof.
  intros Hm Hk w w' H. destruct (Hm w w' H) as [Hr Hw]. unfold bind.
  destruct (m w) as [[a | r] w1], (m w') as [[a' | r'] w1']; simpl in *;
    try discriminate Hr.
  - injection Hr as <-. now apply Hk.
  - injection Hr as <-. split; [reflexivity | exact Hw].
Qed.

Lemma blind_tryCatch {A} (body : M A) (h : string -> M A) :
  blind body -> (forall r, blind (h r)) -> blind (tryCatch body h).
Proof.
  intros Hm Hk w w' H. destruct (Hm w w' H) as [Hr Hw]. unfold tryCatch.
  destruct (body w) as [[a | r] w1], (body w') as [[a' | r'] w1']; simpl in *;
    try discriminate Hr.
  - split; [exact Hr | exact Hw].
  - injection Hr as <-. now apply Hk.
Qed.

Lemma blind_await : blind await.
Proof.
  intros w w' (Hst & Hclk & Hev). split; [reflexivity | ].
  split; [exact Hst | ]. split; [simpl; congruence | ]. simpl.
  rewrite !map_app. simpl. now rewrite Hev, Hst.
Qed.

Lemma blind_awaitCall {A} (r : string + A) : blind (awaitCall r).
Proof.
  unfold awaitCall. apply blind_bind; [apply blind_await | intros _].
  destruct r; [apply blind_throw | apply blind_ret].
Qed.

Lemma blind_log (cap : nat) (m : Message) (ty : Severity) : blind (log cap m ty).
Proof.
  intros [st clk evs] [st' clk' evs'] (Hst & Hclk & Hev). simpl in *. subst clk'.
  split; [reflexivity | ].
  split; [ | split; [reflexivity | ] ]; simpl.
  - rewrite (unflagged_logs _ _ Hst). now apply unflagged_assign1.
  - rewrite !map_app. simpl. now rewrite Hev.
Qed.

Lemma blind_updateProgress (us : list Update) : blind (updateProgress us).
Proof.
  intros [st clk evs] [st' clk' evs'] (Hst & Hclk & Hev). simpl in *. subst clk'.
  split; [reflexivity | ].
  split; [ | split; [reflexivity | ] ]; simpl.
  - now apply unflagged_assign.
  - rewrite !map_app. simpl. now rewrite Hev, (unflagged_assign us _ _ Hst).
Qed.

(** An assignment of a value that does not come from the run state. *)
Lemma blind_set (u : Update) : blind (modify (fun st => assign1 st u)).
Proof.
  intros [st clk evs] [st' clk' evs'] (Hst & Hclk & Hev). simpl in *.
  split; [reflexivity | ].
  split; [ | split; assumption ]; simpl. now apply unflagged_assign1.
Qed.

Lemma blind_when (b : bool) (m : M unit) : blind m -> blind (when b m).
Proof. intros H. destruct b; [exact H | apply blind_ret]. Qed.

Lemma blind_forIndexed {A St} (body : nat -> A -> St -> M St) (l : list A) :
  (forall k x s, blind (body k x s)) ->
  forall i s, blind (forIndexed body i l s).
Proof.
  intros Hbody. induction l as [ | x t IH]; intros i s; simpl.
  - apply blind_ret.
  - apply blind_bind; [apply Hbody | intros s'; apply IH].
Qed.

End Blind.

(** Walks through a computation built from steps that do not read the
    stop flag. *)
Ltac blind_steps other :=
  lazymatch goal with
  | |- blind (bind _ _) =>
      apply blind_bind; [ blind_steps other | intros ?; blind_steps other ]
  | |- blind (ret _) => apply blind_ret
  | |- blind (throw _) => apply blind_throw
  | |- blind (tryCatch _ _) =>
      apply blind_tryCatch; [ blind_steps other | intros ?; blind_steps other ]
  | |- blind (awaitCall _) => apply blind_awaitCall
  | |- blind await => apply blind_await
  | |- blind (Ssh.log _ _) => apply blind_log
  | |- blind (log _ _ _) => apply blind_log
  | |- blind (updateProgress _) => apply blind_updateProgress
  | |- blind (modify _) => apply blind_set
  | |- blind (when _ _) => apply blind_when; blind_steps other
  | |- blind (match ?x with _ => _ end) => destruct x; blind_steps other
  | |- blind _ => other
  end.

Section BlindRun.

Lemma getTRM_blind (cap : nat) (resp : TrmResponse) : blind (getTRM cap resp).
Proof. unfold getTRM. blind_steps ltac:(fail). Qed.

Lemma sqlBatches_blind sql batches : forall j n0, blind (Ssh.sqlBatches sql j batches n0).
Proof.
  induction batches as [ | b bs IH]; intros j n0; simpl; [apply blind_ret | ].
  blind_steps ltac:(apply IH).
Qed.

Lemma createStep_blind wp k p l : blind (Ssh.createStep wp k p l).
Proof. unfold Ssh.createStep. blind_steps ltac:(fail). Qed.

Lemma syncSingles_blind sql wp pricesOnly trm nGroups setName abbrev i singles l :
  blind (Ssh.syncSingles sql wp pricesOnly trm nGroups setName abbrev i singles l).
Proof.
  unfold Ssh.syncSingles, Ssh.applyPriceUpdates, Ssh.applyCreates.
  blind_steps ltac:(first [ apply sqlBatches_blind
                          | apply blind_forIndexed; intros; apply createStep_blind ]).
Qed.

Lemma processGroup_blind env pricesOnly trm nGroups groupsMap abbrevMap i group l :
  blind (Ssh.processGroup env pricesOnly trm nGroups groupsMap abbrevMap i group l).
Proof.
  unfold Ssh.processGroup. blind_steps ltac:(apply syncSingles_blind).
Qed.

Lemma runSSHSync_blind env mode : blind (Ssh.runSSHSync env mode).
Proof.
  unfold Ssh.runSSHSync, Ssh.syncGroups.
  blind_steps ltac:(first [ apply getTRM_blind
                          | apply blind_forIndexed; intros; apply processGroup_blind ]).
Qed.

End BlindRun.
(** X17. The SSH run never reads the stop flag: from two worlds that
    differ in the flag only, a run, and every round of its group loop,
    returns the same result and ends in worlds that differ in the flag
    only. *)
Theorem stop_flag_is_never_read (env : Ssh.Env) :
  (forall mode, blind (Ssh.runSSHSync env mode))
  /\ (forall pricesOnly trm nGroups groupsMap abbrevMap i group l,
         blind (Ssh.processGroup env pricesOnly trm nGroups groupsMap abbrevMap
                  i group l)).
Proof.
  split; [exact (runSSHSync_blind env) | ].
  intros; apply processGroup_blind.
Qed.

(** X18. [POST /api/sync/stop] is refused, and changes nothing, when no
    run is in progress.  During a run it answers [Stopping], raises the flag
    and logs the request as a warning: apart from the flag, the world is the
    one that logging the request alone gives. *)
Theorem stop_request (w : World) :
  (running (syncState w) = false -> Ssh.postStop w = (Ok Ssh.Rejected400, w))
  /\ (running (syncState w) = true ->
      let w' := snd (Ssh.postStop w) in
      fst (Ssh.postStop w) = Ok Ssh.Stopping
      /\ stopping (syncState w') = true
      /\ sameButLogs (assign1 (syncState w) (SetStopping true)) (syncState w')
      /\ lastMessage (syncState w') = Some (MsgStopRequested, warn)
      /\ sameButStopping w' (snd (Ssh.log MsgStopRequested warn w))).
Proof.
  split.
  - intros Hrun. unfold Ssh.postStop, bind, getState. now rewrite Hrun.
  - intros Hrun w'.
    assert (E : Ssh.postStop w
                = (Ok Ssh.Stopping,
                   snd (Ssh.log MsgStopRequested warn
                          (snd (modify (fun st => assign1 st (SetStopping true)) w))))).
    { unfold Ssh.postStop, bind, getState. rewrite Hrun. reflexivity. }
    subst w'. rewrite E. clear E. destruct w as [st clk evs]. cbn [fst snd].
    split; [reflexivity | ].
    split; [destruct st; reflexivity | ].
    split; [destruct st; repeat split | ].
    split.
    + unfold lastMessage, Ssh.log, log. cbn. rewrite logs_setLogs.
      now rewrite last_pushLog by (unfold Ssh.LOG_CAP; lia).
    + split; [ | split; reflexivity]. destruct st. reflexivity.
Qed.

Lemma stop_request_witness :
  running (syncState Sample.world0) = false
  /\ Ssh.postStop Sample.world0 = (Ok Ssh.Rejected400, Sample.world0)
  /\ running (syncState Sample.worldRunning) = true
  /\ fst (Ssh.postStop Sample.worldRunning) = Ok Ssh.Stopping
  /\ stopping (syncState (snd (Ssh.postStop Sample.worldRunning))) = true
  /\ sameButStopping (snd (Ssh.postStop Sample.worldRunning))
       (snd (Ssh.log MsgStopRequested warn Sample.worldRunning)).
Proof.
  destruct (stop_request Sample.world0) as [H0 _].
  destruct (stop_request Sample.worldRunning) as [_ H1].
  specialize (H0 eq_refl). specialize (H1 eq_refl).
  destruct H1 as (A & B & _ & _ & C).
  split; [reflexivity | ]. split; [exact H0 | ]. split; [reflexivity | ].
  split; [exact A | ]. split; [exact B | exact C].
Defined.

(** ** Remote commands *)

Section RemoteFacts.

Lemma append_empty_r (s : string) : (s +:+ EmptyString)%string = s.
Proof.
  induction s as [ | c t IH]; [reflexivity | ]. rewrite append_cons. now rewrite IH.
Qed.

Lemma append_assoc' (a b c : string) : ((a +:+ b) +:+ c = a +:+ (b +:+ c))%string.
Proof.
  induction a as [ | x t IH]; [reflexivity | ]. rewrite !append_cons. now rewrite IH.
Qed.

Lemma settle_settled (s : Remote.Session) (r r' : Remote.Failure + string) :
  Remote.settled s = Some r -> Remote.settle r' s = s.
Proof. unfold Remote.settle. now intros ->. Qed.

Lemma handle_settled (s : Remote.Session) (e : Remote.SshEvent)
  (r : Remote.Failure + string) :
  Remote.settled s = Some r -> Remote.settled (Remote.handle s e) = Some r.
Proof.
  intros H. destruct e as [ | [err | ] | chunk | chunk | exit | reason]; simpl;
    try exact H.
  - now rewrite (settle_settled s r).
  - destruct (Remote.listening s); exact H.
  - destruct (Remote.listening s); exact H.
  - destruct (Remote.listening s); [ | exact H].
    destruct exit as [[ | p | p] | ]; now rewrite (settle_settled s r).
  - now rewrite (settle_settled s r).
Qed.

Lemma settled_stays (events : list Remote.SshEvent) :
  forall s r,
    Remote.settled s = Some r ->
    Remote.settled (fold_left Remote.handle events s) = Some r.
Proof.
  induction events as [ | e rest IH]; intros s r H; simpl; [exact H | ].
  apply IH. now apply handle_settled.
Qed.

Lemma data_accumulates (events : list Remote.SshEvent) :
  Forall (fun e => isData e = true) events ->
  forall s,
    Remote.listening s = true ->
    fold_left Remote.handle events s
    = {| Remote.listening := true;
         Remote.output := (Remote.output s +:+ stdoutOf events)%string;
         Remote.errorOutput := (Remote.errorOutput s +:+ stderrOf events)%string;
         Remote.settled := Remote.settled s |}.
Proof.
  induction 1 as [ | e rest He Hrest IH]; intros s Hs; simpl.
  - rewrite !append_empty_r. destruct s. simpl in Hs. now subst.
  - destruct e; try discriminate He; simpl; rewrite Hs; rewrite IH by reflexivity; simpl;
      now rewrite ?append_assoc'.
Qed.

End RemoteFacts.

(** X20. A command whose stream gives data and then closes: with exit
    code 0 the promise resolves with all that was written to the standard
    output; with any other code, or none, it is rejected with the code and
    the text of the standard error, or of the standard output when the
    former is empty.  Before the stream closes the promise is pending.  An
    error of [conn.exec] or of the connection rejects it with that error.
    What comes after the promise is settled does not change it. *)
Theorem sshExec_outcome (data later : list Remote.SshEvent) (exitCode : maybe Z) :
  Forall (fun e => isData e = true) data ->
  Remote.sshExec
    ([Remote.ConnReady; Remote.ExecCallback None] ++ data
     ++ [Remote.StreamClose exitCode] ++ later)
  = Some (match exitCode with
          | Some 0%Z => inr (stdoutOf data)
          | _ => inl (Remote.CommandFailed exitCode
                        (match stderrOf data with
                         | EmptyString => stdoutOf data
                         | e => e
                         end))
          end)
  /\ Remote.sshExec ([Remote.ConnReady; Remote.ExecCallback None] ++ data) = None
  /\ (forall reason,
         Remote.sshExec ([Remote.ConnReady; Remote.ExecCallback (Some reason)] ++ later)
         = Some (inl (Remote.Rejected reason)))
  /\ (forall reason,
         Remote.sshExec
           ([Remote.ConnReady; Remote.ExecCallback None] ++ data
            ++ [Remote.ConnError reason] ++ later)
         = Some (inl (Remote.Rejected reason))).
Proof.
  intros Hdata. unfold Remote.sshExec.
  split; [ | split; [ | split] ].
  - simpl. rewrite fold_left_app, (data_accumulates data Hdata) by reflexivity.
    simpl. apply settled_stays.
    destruct exitCode as [[ | p | p] | ]; reflexivity.
  - simpl. now rewrite (data_accumulates data Hdata).
  - intros reason. simpl. now apply settled_stays.
  - intros reason. simpl.
    rewrite fold_left_app, (data_accumulates data Hdata) by reflexivity.
    simpl. now apply settled_stays.
Qed.

Lemma sshExec_outcome_witness :
  Forall (fun e => isData e = true)
    [Remote.StdoutData "12"; Remote.StderrData "note"; Remote.StdoutData "3"]
  /\ Remote.sshExec
       [Remote.ConnReady; Remote.ExecCallback None; Remote.StdoutData "12";
        Remote.StderrData "note"; Remote.StdoutData "3"; Remote.StreamClose (Some 0%Z);
        Remote.ConnError "closed"]
     = Some (inr "123")
  /\ Remote.sshExec
       [Remote.ConnReady; Remote.ExecCallback None; Remote.StdoutData "12";
        Remote.StderrData "note"; Remote.StdoutData "3"; Remote.StreamClose (Some 1%Z);
        Remote.ConnError "closed"]
     = Some (inl (Remote.CommandFailed (Some 1%Z) "note")).
Proof.
  assert (H : Forall (fun e => isData e = true)
                [Remote.StdoutData "12"; Remote.StderrData "note"; Remote.StdoutData "3"])
    by (repeat constructor).
  split; [exact H | ].
  split.
  - exact (proj1 (sshExec_outcome _ [Remote.ConnError "closed"] (Some 0%Z) H)).
  - exact (proj1 (sshExec_outcome _ [Remote.ConnError "closed"] (Some 1%Z) H)).
Defined.

(** X19. [GET /api/products/count] always answers and never touches the
    run state.  Without a password it answers at once, with no count and
    the error [SSH not configured]; with one, the count is the integer the
    trimmed output of the query starts with, and a query that fails gives
    no count and its error. *)
Theorem products_count_answers (SSH_PASS : maybe string) (result : string + string)
  (w : World) :
  exists answer w',
    Remote.getProductsCount SSH_PASS result w = (Ok answer, w')
    /\ syncState w' = syncState w
    /\ (strTruthy SSH_PASS = false ->
        w' = w
        /\ answer = {| Remote.count := None;
                       Remote.countError := Some "SSH not configured" |})
    /\ (strTruthy SSH_PASS = true ->
        answer = match result with
                 | inr r => {| Remote.count := Some (parseInt (trim r));
                               Remote.countError := None |}
                 | inl reason => {| Remote.count := None;
                                    Remote.countError := Some reason |}
                 end).
Proof.
  unfold Remote.getProductsCount, tryCatch, bind, awaitCall, await, throw, ret.
  destruct (strTruthy SSH_PASS); simpl.
  - destruct result as [reason | r]; simpl; do 2 eexists;
      (split; [reflexivity | ]); (split; [reflexivity | ]);
      (split; [discriminate | reflexivity]).
  - do 2 eexists. split; [reflexivity | ]. split; [reflexivity | ].
    split; [auto | discriminate].
Qed.
